(** * Sea-battle board engine (task_C2_5.py): shallow embedding and properties

    The embedding follows the three gameplay classes of the program,
    [Dot], [Ship] and [Board], one module each.  Python exceptions are
    values of [exn]; a method that can raise returns a [result]; the
    methods of [Board], which mutate the board in place, are state
    transformers that hand back the board as it is at the moment they return
    or raise. *)

From stdpp Require Import base decidable option numbers list strings pretty gmap sets.

Set Warnings "-clear-no-such-hyp".

Open Scope Z_scope.

(** ** Exceptions and results *)

(** The exception classes of the program ([UserException] is never raised
    itself), each with its message, and the two Python built-ins that list
    indexing and attribute access can raise. *)
Inductive exn : Type :=
| BoardOutException (message : string)
| IncorrectParametersException (message : string)
| GameplayException (message : string)
| IndexError
| AttributeError.

Inductive result (A : Type) : Type :=
| Return (a : A)
| Raise (e : exn).
Arguments Return {A} a.
Arguments Raise {A} e.

#[global] Instance exn_eq_dec : EqDecision exn.
Proof. solve_decision. Defined.

#[global] Instance result_ret : MRet result := @Return.
#[global] Instance result_bind : MBind result := fun A B f m =>
  match m with
  | Return a => f a
  | Raise e => Raise e
  end.

(** State transformers with exceptions: the state that comes back is the
    state at the point of the [return] or of the [raise]. *)
Definition M (S A : Type) : Type := S -> S * result A.

Definition ret {S A} (a : A) : M S A := fun s => (s, Return a).
Definition raise {S A} (e : exn) : M S A := fun s => (s, Raise e).
Definition bind {S A B} (m : M S A) (k : A -> M S B) : M S B := fun s =>
  match m s with
  | (s', Return a) => k a s'
  | (s', Raise e) => (s', Raise e)
  end.
Definition gets {S A} (f : S -> A) : M S A := fun s => (s, Return (f s)).
Definition modify {S} (f : S -> S) : M S unit := fun s => (f s, Return tt).
Definition lift {S A} (r : result A) : M S A := fun s => (s, r).

#[global] Instance M_ret {S} : MRet (M S) := fun A => ret.
#[global] Instance M_bind {S} : MBind (M S) := fun A B k m => bind m k.

(** [for x in l: body x] *)
Fixpoint for_ {S A} (l : list A) (body : A -> M S unit) : M S unit :=
  match l with
  | [] => ret tt
  | x :: l' => bind (body x) (fun _ => for_ l' body)
  end.

(** ** Python lists and ranges *)

(** [range(n)] and [range(a, b)]. *)
Definition range (n : Z) : list Z := seqZ 0 n.
Definition range2 (a b : Z) : list Z := seqZ a (b - a).

(** The position [l[i]] denotes: negative indices count from the end, and
    an index outside [-len, len) denotes none (IndexError). *)
Definition py_index {A} (l : list A) (i : Z) : option nat :=
  let len := Z.of_nat (length l) in
  if (0 <=? i) && (i <? len) then Some (Z.to_nat i)
  else if (i <? 0) && (- len <=? i) then Some (Z.to_nat (len + i))
  else None.

Definition py_get {A} (l : list A) (i : Z) : result A :=
  match py_index l i ≫= fun n => l !! n with
  | Some x => Return x
  | None => Raise IndexError
  end.

(** [l.remove(x)]: drops the first element equal to [x].  (On a missing
    element Python raises ValueError; the program calls it only behind a
    membership test.) *)
Fixpoint list_remove `{EqDecision A} (x : A) (l : list A) : list A :=
  match l with
  | [] => []
  | y :: l' => if decide (x = y) then l' else y :: list_remove x l'
  end.

Definition in_1_6 (value : Z) : bool := (1 <=? value) && (value <=? 6).

(** ** Standard output and the texts of exceptions *)

(** The line feed, and [str(n)] for an integer. *)
Definition nl : string := String (Ascii.ascii_of_nat 10) EmptyString.
Definition str_int (n : Z) : string := pretty n.

(** What was written to standard output, one element per call of [print]. *)
Definition stdout : Type := list string.

(** [print(a1, ..., an, end=e)], the arguments already turned to text: they
    are written with a space between them, and [e] after them. *)
Definition print (args : list string) (end_ : string) : M stdout unit :=
  modify (fun out => out ++ [String.concat " " args +:+ end_]).

(** [__str__] of the exception classes; a message that is empty (or
    [None]) counts as no message. *)
Definition BoardOutException_str (message : string) : string :=
  if bool_decide (message = EmptyString)
  then "BoardOutException has been raised. You entered value beyond the board."
  else "BoardOutException has been raised. " +:+ message +:+ ".".

Definition IncorrectParametersException_str (message : string) : string :=
  if bool_decide (message = EmptyString)
  then "IncorrectParametersException has been raised. You entered wrong value."
  else "IncorrectParametersException has been raised. " +:+ message +:+ ".".

(** [try: body except ...]: [handler] gives the clause that catches an
    exception, if there is one. *)
Definition try_except {S A} (body : M S A) (handler : exn -> option (M S A)) : M S A :=
  fun s =>
    match body s with
    | (s', Return a) => (s', Return a)
    | (s', Raise e) =>
        match handler e with
        | Some clause => clause s'
        | None => (s', Raise e)
        end
    end.

(** ** class Dot *)

Inductive State : Type := undamaged | damaged | missed | hidden.

#[global] Instance State_eq_dec : EqDecision State.
Proof. solve_decision. Defined.

Module Dot.

(** [STATE_CHOICES] is the type [State]: the state setter's rejection of
    any other value has no counterpart here.  [icon] is rewritten from the
    state at every state write, so it is a function of the state. *)
Record t : Type := mk { column : Z; row : Z; state : State }.

Definition icon (self : t) : string :=
  match state self with
  | undamaged => "■"
  | damaged => "X"
  | missed => "T"
  | hidden => "O"
  end.

Definition set_column (value : Z) : result Z :=
  if in_1_6 value then Return value
  else Raise (BoardOutException "Column value should be between 1 and 6").

Definition set_row (value : Z) : result Z :=
  if in_1_6 value then Return value
  else Raise (BoardOutException "Row value should be between 1 and 6").

(** [Dot(column, row, state)]: the three attribute writes in order. *)
Definition init (column row : Z) (state : State) : result t :=
  c ← set_column column;
  r ← set_row row;
  mret (mk c r state).

(** [Dot(column, row)], the state defaulting to ["hidden"]. *)
Definition new (column row : Z) : result t := init column row hidden.

Definition get_coords (self : t) : Z * Z := (column self, row self).

(** [__eq__] compares coordinates only. *)
Definition eq (self other : t) : bool :=
  bool_decide (column self = column other) && bool_decide (row self = row other).

Definition with_state (self : t) (value : State) : t :=
  mk (column self) (row self) value.

(** The names of the states, as the program writes them. *)
Definition state_name (value : State) : string :=
  match value with
  | undamaged => "undamaged"
  | damaged => "damaged"
  | missed => "missed"
  | hidden => "hidden"
  end.

(** [__str__] *)
Definition str (self : t) : string :=
  "Dot with coordinates on board: column " +:+ str_int (column self) +:+ ", row "
  +:+ str_int (row self) +:+ ". Current state is: " +:+ state_name (state self) +:+ ".".

End Dot.

#[global] Instance Dot_eq_dec : EqDecision Dot.t.
Proof. solve_decision. Defined.

(** ** class Ship *)

Module Ship.

Definition DIRECTION_CHOICES : list string := ["horizontal"; "vertical"].

(** [dots_list] holds references to the board's Dot objects; a reference
    is kept as the coordinates [(column, row)] of the cell it points to. *)
Record t : Type := mk {
  length : Z;
  direction : string;
  start_point : Dot.t;
  health : Z;
  dots_list : list (Z * Z)
}.

Definition set_length (value : Z) : result Z :=
  if (1 <=? value) && (value <=? 3) then Return value
  else Raise (IncorrectParametersException "Length should be from 1 to 3").

Definition set_direction (value : string) : result string :=
  if bool_decide (value ∈ DIRECTION_CHOICES) then Return value
  else Raise (IncorrectParametersException "Direction should be horizontal or vertical").

(** One pass of the loop of [check_start_point]: builds the Dot of part
    [i] and throws it away. *)
Definition check_part (direction : string) (dot_value : Dot.t) (i : Z) : result unit :=
  if bool_decide (direction = "horizontal") then
    _ ← Dot.new (Dot.column dot_value + i) (Dot.row dot_value); mret tt
  else if bool_decide (direction = "vertical") then
    _ ← Dot.new (Dot.column dot_value) (Dot.row dot_value + i); mret tt
  else mret tt.

Fixpoint check_parts (direction : string) (dot_value : Dot.t) (l : list Z) : result unit :=
  match l with
  | [] => Return tt
  | i :: l' =>
      match check_part direction dot_value i with
      | Return _ => check_parts direction dot_value l'
      | Raise e => Raise e
      end
  end.

(** The [try ... except BoardOutException] around the loop. *)
Definition check_start_point (length : Z) (direction : string) (dot_value : Dot.t)
  : result unit :=
  match check_parts direction dot_value (range length) with
  | Raise (BoardOutException _) =>
      Raise (BoardOutException
               "This ship can't be places on the board, change start point or length")
  | r => r
  end.

Definition set_start_point (length : Z) (direction : string) (value : Dot.t)
  : result Dot.t :=
  _ ← check_start_point length direction value;
  mret value.

(** [health=None] stands for the length. *)
Definition set_health (length : Z) (value : option Z) : Z :=
  match value with
  | None => length
  | Some v => v
  end.

(** [Ship(length, direction, start_point, health)] *)
Definition init (length : Z) (direction : string) (start_point : Dot.t)
    (health : option Z) : result t :=
  l ← set_length length;
  d ← set_direction direction;
  p ← set_start_point l d start_point;
  mret (mk l d p (set_health l health) []).

(** [get_dots]: one coordinate pair appended per [i in range(length)]. *)
Definition get_dots (self : t) : list (Z * Z) :=
  i ← range (length self);
  if bool_decide (direction self = "horizontal") then
    [(Dot.column (start_point self) + i, Dot.row (start_point self))]
  else if bool_decide (direction self = "vertical") then
    [(Dot.column (start_point self), Dot.row (start_point self) + i)]
  else [].

Definition with_health (self : t) (value : Z) : t :=
  mk (length self) (direction self) (start_point self) value (dots_list self).

Definition reduce_health (self : t) : result t :=
  if 0 <? health self then Return (with_health self (health self - 1))
  else Raise (GameplayException "Health can't get negative value").

Definition dots_list_append (self : t) (dot : Z * Z) : t :=
  mk (length self) (direction self) (start_point self) (health self)
     (dots_list self ++ [dot]).

End Ship.

#[global] Instance Ship_eq_dec : EqDecision Ship.t.
Proof. solve_decision. Defined.

(** ** Iteration order of a Python set

    [list(s)] enumerates a set in an order the language leaves open.  The
    embedding takes the enumeration as a parameter: any function that lists
    exactly the elements of the set, each once. *)
Record set_order : Type := SetOrder {
  to_list :> gset (Z * Z) -> list (Z * Z);
  to_list_perm : forall X, to_list X ≡ₚ elements X
}.

Definition sorted_order : set_order := SetOrder elements (fun X => reflexivity (elements X)).

(** ** class Board *)

Module Board.

(** An element of the nested list [board]: the header row and the first
    column hold the integer labels, the rest are Dot objects. *)
Inductive entry : Type :=
| Label (n : Z)
| Cell (d : Dot.t).

Record t : Type := mk {
  board : list (list entry);
  ships_list : list Ship.t;
  ship_length_list : list Z
}.

Definition with_board (self : t) (value : list (list entry)) : t :=
  mk value (ships_list self) (ship_length_list self).
Definition with_ships_list (self : t) (value : list Ship.t) : t :=
  mk (board self) value (ship_length_list self).
Definition with_ship_length_list (self : t) (value : list Z) : t :=
  mk (board self) (ships_list self) value.

(** [[Dot(j, i) for j in range(1, 7)]] *)
Definition create_row (i : Z) : result (list entry) :=
  dots ← mapM (fun j => Dot.new j i) (range2 1 7);
  mret (Label i :: (Cell <$> dots)).

(** [[list(range(1, 7))] + [[i] + [Dot(j, i) ...] for i in range(1, 7)]] *)
Definition create_board : result (list (list entry)) :=
  rows ← mapM create_row (range2 1 7);
  mret ((Label <$> range2 1 7) :: rows).

(** [Board()] *)
Definition init : result t :=
  b ← create_board;
  mret (mk b [] [3; 2; 2; 1; 1; 1; 1]).

(** [self.board[row][column]], as far as the Dot object. *)
Definition get_dot (column row : Z) : M t Dot.t := fun self =>
  (self,
   r ← py_get (board self) row;
   e ← py_get r column;
   match e with
   | Cell d => Return d
   | Label _ => Raise AttributeError
   end).

(** [self.board[row][column].state] *)
Definition get_state (column row : Z) : M t State :=
  d ← get_dot column row; mret (Dot.state d).

(** [self.board[row][column].state = value]: the Dot object is looked up
    and written in place. *)
Definition set_state (column row : Z) (value : State) : M t unit :=
  d ← get_dot column row;
  modify (fun self =>
    match py_index (board self) row with
    | Some n =>
        with_board self
          (alter (fun r => match py_index r column with
                           | Some m => <[m := Cell (Dot.with_state d value)]> r
                           | None => r
                           end) n (board self))
    | None => self
    end).

Section with_set_order.

Context (order : set_order).

(** [contour(ship)] (a static method: it sees the ship alone; its
    [isinstance] test, like those of [add_ship] and [shot], holds by
    typing).  The set is built block by block, the ship's own
    coordinates are taken out ([set.remove]; they are always there, see
    [contour_remove_defined]), the set is turned into a list, and the
    coordinates outside the board are removed from the list one by one. *)
Definition contour (ship : Ship.t) : list (Z * Z) :=
  let contour_dot_list : gset (Z * Z) :=
    foldl (fun acc '(column, row) =>
             let dot_list : gset (Z * Z) :=
               list_to_set (i ← range2 (-1) 2; j ← range2 (-1) 2; [(column + i, row + j)]) in
             acc ∪ dot_list)
          ∅ (Ship.get_dots ship) in
  let contour_dot_list :=
    foldl (fun acc coord => acc ∖ {[coord]}) contour_dot_list (Ship.get_dots ship) in
  let contour_dot_list := order contour_dot_list in
  foldl (fun acc '(column, row) =>
           if negb (in_1_6 column) || negb (in_1_6 row)
           then list_remove (column, row) acc else acc)
        contour_dot_list contour_dot_list.

(** The set [occupied_dots] of [add_ship]. *)
Definition occupied_dots (ships : list Ship.t) : gset (Z * Z) :=
  foldl (fun acc ship =>
           let acc := foldl (fun acc dot => acc ∪ {[dot]}) acc (Ship.get_dots ship) in
           foldl (fun acc dot => acc ∪ {[dot]}) acc (contour ship))
        ∅ ships.

(** [new_ship.dots_list.append(dot)]: [new_ship] is the object that was
    just appended to [ships_list], so the write lands on the last ship of
    the list. *)
Definition append_to_new_ship (dot : Z * Z) : M t unit :=
  modify (fun self =>
    with_ships_list self
      (alter (fun s => Ship.dots_list_append s dot)
             (Nat.pred (length (ships_list self))) (ships_list self))).

Definition add_ship (new_ship : Ship.t) : M t unit :=
  occupied ← gets (fun self => occupied_dots (ships_list self));
  for_ (Ship.get_dots new_ship) (fun dot =>
    if bool_decide (dot ∈ occupied) then
      raise (IncorrectParametersException
        "You can't place ship here, must be at least 1 empty dot between ships")
    else mret tt);;
  lengths ← gets ship_length_list;
  if bool_decide (Ship.length new_ship ∈ lengths) then
    modify (fun self =>
      with_ship_length_list self (list_remove (Ship.length new_ship) (ship_length_list self)));;
    modify (fun self => with_ships_list self (ships_list self ++ [new_ship]));;
    for_ (Ship.get_dots new_ship) (fun dot =>
      set_state dot.1 dot.2 undamaged;;
      append_to_new_ship dot)
  else
    raise (IncorrectParametersException "You're trying to place more ships, than you can").

(** [for column, row in self.contour(i): self.board[row][column].state =
    "missed"].  The loop variables are the arguments of [shot]: the pair
    handed back is their value after the loop. *)
Fixpoint mark_contour (l : list (Z * Z)) (column row : Z) : M t (Z * Z) :=
  match l with
  | [] => mret (column, row)
  | (column', row') :: l' =>
      set_state column' row' missed;;
      mark_contour l' column' row'
  end.

(** [for i in self.ships_list: ...] of [shot].  The list iterator is an
    index [idx] into [self.ships_list], which is read afresh at every pass;
    the loop stops when the index reaches the end of the list.  The hit
    ship is mutated in its slot; [self.ships_list.remove(i)] takes it out of
    its slot (ships compare by identity, and an object is in the list once),
    so that the ship after it slides into the slot and the iterator moves
    on past it.  [fuel] bounds the number of passes: the length of the list
    at the start is enough, since the index grows at each pass and the list
    does not (lemma [hit_ships_iterator]). *)
Fixpoint iterate_ships (fuel idx : nat) (column row : Z) : M t unit :=
  match fuel with
  | O => mret tt
  | S fuel' =>
      ships ← gets ships_list;
      match ships !! idx with
      | None => mret tt
      | Some i =>
          if bool_decide ((column, row) ∈ Ship.get_dots i) then
            i' ← lift (Ship.reduce_health i);
            modify (fun self => with_ships_list self (<[idx := i']> (ships_list self)));;
            if bool_decide (Ship.health i' = 0) then
              '(column', row') ← mark_contour (contour i') column row;
              modify (fun self => with_ships_list self (delete idx (ships_list self)));;
              iterate_ships fuel' (S idx) column' row'
            else iterate_ships fuel' (S idx) column row
          else iterate_ships fuel' (S idx) column row
      end
  end.

(** [shot(column, row)]: [True] for a hit, [False] for a miss.  The third
    test of the chain, [state == "damaged" or "missed"], is true whenever
    it is reached; the [print_board] call after the chain never is. *)
Definition shot (column row : Z) : M t bool :=
  if in_1_6 column && in_1_6 row then
    st ← get_state column row;
    match st with
    | undamaged =>
        set_state column row damaged;;
        ships ← gets ships_list;
        iterate_ships (length ships) 0 column row;;
        mret true
    | hidden =>
        set_state column row missed;;
        mret false
    | damaged | missed =>
        raise (IncorrectParametersException "You've already shot in this field")
    end
  else
    raise (BoardOutException
      "You're trying to shoot outside the board. Choose the coords between 1 and 6").

End with_set_order.

(** [str] of an element of [board], as [print] shows it. *)
Definition entry_str (e : entry) : string :=
  match e with
  | Label n => str_int n
  | Cell d => Dot.str d
  end.

(** The body of the loop over the cells of a row in [print_board]: the
    icon of the cell, or ["O"] for an undamaged cell when [hidden] is set.
    An element that is not a Dot has neither [state] nor [icon]. *)
Definition print_cell (hidden : bool) (j : entry) : M stdout unit :=
  match j with
  | Cell d =>
      if hidden then
        if bool_decide (Dot.state d = undamaged) then print ["O"] " | "
        else print [Dot.icon d] " | "
      else print [Dot.icon d] " | "
  | Label _ => raise AttributeError
  end.

(** [print_board(hidden)]: the board is read, standard output is written. *)
Definition print_board (hidden : bool) (self : t) : M stdout unit :=
  print [nl +:+ "   | "] EmptyString;;
  header ← lift (py_get (board self) 0);
  for_ header (fun i => print [entry_str i] " | ");;
  for_ (drop 1 (board self)) (fun i =>
    i0 ← lift (py_get i 0);
    print [nl; entry_str i0] " | ";;
    for_ (drop 1 i) (print_cell hidden));;
  print [nl] nl.

End Board.

(** ** class Player *)

Module Player.

(** What a move works on: the enemy's board and standard output.  (The
    player's own board is not touched by a move.) *)
Record t : Type := mk { enemy_board : Board.t; out : stdout }.

Definition on_board {A} (m : M Board.t A) : M t A := fun self =>
  let (b, r) := m (enemy_board self) in (mk b (out self), r).

Definition on_out {A} (m : M stdout A) : M t A := fun self =>
  let (o, r) := m (out self) in (mk (enemy_board self) o, r).

(** [self.enemy_board.print_board(hidden)] *)
Definition print_enemy_board (hidden : bool) : M t unit :=
  b ← gets enemy_board; on_out (Board.print_board hidden b).

(** The clause of [move] for a refused shot; [text] is [str(e)]. *)
Definition refused (player : string) (text : string) : M t unit :=
  if bool_decide (player = "user") then
    on_out (print [text] nl);;
    print_enemy_board false
  else mret tt.

(** [move(player)].  [answers] are the values the successive calls of
    [self.ask()] return, each a pair [(column, row)]; every call of [move],
    the first and those it makes to itself after a refused shot, uses up
    one.  The result is [None] when the answers given are used up and [move]
    would ask again.  (The interpreter's limit on the depth of the
    recursion is left out.) *)
Fixpoint move (order : set_order) (player : string) (answers : list (Z * Z))
  : M t (option bool) :=
  match answers with
  | [] => mret None
  | choice :: answers' =>
      try_except
        (shot_result ← on_board (Board.shot order choice.1 choice.2);
         (if bool_decide (player = "user") then
            on_out (print [nl +:+ "You hit dot with coordinates: column "
                           +:+ str_int choice.1 +:+ ", row " +:+ str_int choice.2 +:+ nl] nl);;
            on_out (print ["Enemy's board:"] nl);;
            print_enemy_board true
          else if bool_decide (player = "computer") then
            on_out (print [nl +:+ "Computer hit dot with coordinates: column "
                           +:+ str_int choice.1 +:+ ", row " +:+ str_int choice.2 +:+ nl] nl);;
            on_out (print ["Your board:"] nl);;
            print_enemy_board false
          else raise (GameplayException "Player can be user or computer"));;
         mret (Some (if shot_result : bool then true else false)))
        (fun e =>
           match e with
           | BoardOutException message =>
               Some (refused player (BoardOutException_str message);;
                     move order player answers')
           | IncorrectParametersException message =>
               Some (refused player (IncorrectParametersException_str message);;
                     move order player answers')
           | _ => None
           end)
  end.

End Player.
(** * Properties *)

(** ** Observations and predicates used in the statements *)

Definition in_board (p : Z * Z) : bool := in_1_6 p.1 && in_1_6 p.2.

(** What [self.board[row][column]] holds, when it is a Dot. *)
Definition dot_at (self : Board.t) (p : Z * Z) : option Dot.t :=
  match (Board.get_dot p.1 p.2 self).2 with
  | Return d => Some d
  | Raise _ => None
  end.

Definition state_at (self : Board.t) (p : Z * Z) : option State :=
  Dot.state <$> dot_at self p.

(** Every coordinate pair of the 6 x 6 grid holds a Dot with those
    coordinates. *)
Definition board_wf (self : Board.t) : Prop :=
  forall p, in_board p = true -> exists st, dot_at self p = Some (Dot.mk p.1 p.2 st).

(** The run of cells the specification derives from a vessel's placement:
    the anchor and the [length - 1] cells after it along the orientation. *)
Definition derived_run (length : Z) (direction : string) (anchor : Z * Z) : list (Z * Z) :=
  (fun i => if bool_decide (direction = "horizontal")
            then (anchor.1 + i, anchor.2) else (anchor.1, anchor.2 + i)) <$> seqZ 0 length.

(** The 8-neighbourhood of a cell, and the buffer of a vessel in the
    specification's words: the neighbourhoods of the occupied cells, minus
    the occupied cells, minus what lies outside the grid. *)
Definition neighbourhood8 (p : Z * Z) : gset (Z * Z) :=
  list_to_set [(p.1 - 1, p.2 - 1); (p.1 - 1, p.2); (p.1 - 1, p.2 + 1);
               (p.1, p.2 - 1); (p.1, p.2 + 1);
               (p.1 + 1, p.2 - 1); (p.1 + 1, p.2); (p.1 + 1, p.2 + 1)].

Definition spec_contour (ship : Ship.t) : gset (Z * Z) :=
  filter (fun p => in_board p = true)
    (⋃ (neighbourhood8 <$> Ship.get_dots ship) ∖ list_to_set (Ship.get_dots ship)).

(** A ship as the constructor leaves it, up to health and [dots_list]. *)
Definition ship_wf (s : Ship.t) : Prop :=
  1 <= Ship.length s <= 3 /\ Ship.direction s ∈ Ship.DIRECTION_CHOICES /\
  forall p, p ∈ Ship.get_dots s -> in_board p = true.

(** Two cells of one 3 x 3 block: equal or neighbours, diagonals included. *)
Definition adjacent (p q : Z * Z) : Prop :=
  q.1 - 1 <= p.1 <= q.1 + 1 /\ q.2 - 1 <= p.2 <= q.2 + 1.


(** The board after a state write that went through. *)
Definition write (self : Board.t) (p : Z * Z) (value : State) : Board.t :=
  (Board.set_state p.1 p.2 value self).1.


(** The board after the state writes at the coordinates of [l], in order. *)
Definition writes (self : Board.t) (l : list (Z * Z)) (value : State) : Board.t :=
  foldl (fun b p => write b p value) self l.

(** The exclusion set of the specification: the occupied and the buffer
    coordinates of the vessels of a fleet. *)
Definition exclusion (order : set_order) (ships : list Ship.t) : gset (Z * Z) :=
  ⋃ ((fun s => list_to_set (Ship.get_dots s) ∪ list_to_set (Board.contour order s)) <$> ships).

(** Some coordinate of the candidate lies in the exclusion set. *)
Definition blocked (order : set_order) (self : Board.t) (ship : Ship.t) : Prop :=
  exists p, p ∈ Ship.get_dots ship /\ p ∈ exclusion order (Board.ships_list self).

(** The placement rule in the words of the specification: some coordinate
    of the candidate is occupied by a vessel of the fleet or lies in the
    buffer of one. *)
Definition spec_blocked (self : Board.t) (ship : Ship.t) : Prop :=
  exists p s, p ∈ Ship.get_dots ship /\ s ∈ Board.ships_list self /\
              (p ∈ Ship.get_dots s \/ p ∈ spec_contour s).

(** No coordinate of [s1] is occupied by [s2] or in the buffer of [s2]. *)
Definition separated (order : set_order) (s1 s2 : Ship.t) : Prop :=
  forall p, p ∈ Ship.get_dots s1 ->
    (p ∉ Ship.get_dots s2) /\ (p ∉ Board.contour order s2).

(** The adjacency invariant of a fleet: any two vessels of it, at different
    places of the list, are separated, each from the other. *)
Definition fleet_separated (order : set_order) (ships : list Ship.t) : Prop :=
  forall i j s1 s2, i <> j -> ships !! i = Some s1 -> ships !! j = Some s2 ->
    separated order s1 s2.

(** The ship object after [add_ship] has bound its cells to it. *)
Definition bound (ship : Ship.t) : Ship.t :=
  Ship.mk (Ship.length ship) (Ship.direction ship) (Ship.start_point ship)
          (Ship.health ship) (Ship.dots_list ship ++ Ship.get_dots ship).

(** The messages of the two failures of [add_ship]. *)
Definition add_ship_blocked_message : string :=
  "You can't place ship here, must be at least 1 empty dot between ships".
Definition add_ship_length_message : string :=
  "You're trying to place more ships, than you can".


(** The messages of the failures of [shot] and of [reduce_health]. *)
Definition shot_repeat_message : string := "You've already shot in this field".
Definition shot_outside_message : string :=
  "You're trying to shoot outside the board. Choose the coords between 1 and 6".
Definition health_message : string := "Health can't get negative value".

(** The loop of [shot] over the fleet, by recursion on the list: [done] are
    the ships below the iterator's index, [todo] the ships from the index
    on, and the fleet is [done ++ todo]. *)
Fixpoint hit_ships (order : set_order) (done todo : list Ship.t) (column row : Z)
  : M Board.t unit :=
  match todo with
  | [] => mret tt
  | i :: rest =>
      if bool_decide ((column, row) ∈ Ship.get_dots i) then
        i' ← lift (Ship.reduce_health i);
        modify (fun self => Board.with_ships_list self (done ++ i' :: rest));;
        if bool_decide (Ship.health i' = 0) then
          '(column', row') ← Board.mark_contour (Board.contour order i') column row;
          modify (fun self => Board.with_ships_list self (done ++ rest));;
          match rest with
          | [] => mret tt
          | j :: rest' => hit_ships order (done ++ [j]) rest' column' row'
          end
        else hit_ships order (done ++ [i']) rest column row
      else hit_ships order (done ++ [i]) rest column row
  end.

(** What holds of every board the program can build, whatever the health
    of the ships handed to [add_ship]. *)
Definition inv (order : set_order) (self : Board.t) : Prop :=
  board_wf self /\ fleet_separated order (Board.ships_list self) /\
  forall s, s ∈ Board.ships_list self -> ship_wf s.

(** The ways a call of [shot] can end, by the state of the target cell and
    the ship that owns it. *)
Inductive shot_result (order : set_order) (self : Board.t) (column row : Z)
  : Board.t * result bool -> Prop :=
| shot_is_outside :
    in_board (column, row) = false ->
    shot_result order self column row
      (self, Raise (BoardOutException shot_outside_message))
| shot_is_repeat st :
    in_board (column, row) = true ->
    state_at self (column, row) = Some st -> st = damaged \/ st = missed ->
    shot_result order self column row
      (self, Raise (IncorrectParametersException shot_repeat_message))
| shot_is_miss :
    in_board (column, row) = true ->
    state_at self (column, row) = Some hidden ->
    shot_result order self column row (write self (column, row) missed, Return false)
| shot_is_stray :
    in_board (column, row) = true ->
    state_at self (column, row) = Some undamaged ->
    (forall s, s ∈ Board.ships_list self -> (column, row) ∉ Ship.get_dots s) ->
    shot_result order self column row (write self (column, row) damaged, Return true)
| shot_is_fatal pre i post :
    in_board (column, row) = true ->
    state_at self (column, row) = Some undamaged ->
    Board.ships_list self = pre ++ i :: post ->
    (column, row) ∈ Ship.get_dots i ->
    Ship.health i <= 0 ->
    shot_result order self column row
      (write self (column, row) damaged, Raise (GameplayException health_message))
| shot_is_hit pre i post :
    in_board (column, row) = true ->
    state_at self (column, row) = Some undamaged ->
    Board.ships_list self = pre ++ i :: post ->
    (column, row) ∈ Ship.get_dots i ->
    1 < Ship.health i ->
    shot_result order self column row
      (Board.with_ships_list (write self (column, row) damaged)
         (pre ++ Ship.with_health i (Ship.health i - 1) :: post),
       Return true)
| shot_is_sink pre i post :
    in_board (column, row) = true ->
    state_at self (column, row) = Some undamaged ->
    Board.ships_list self = pre ++ i :: post ->
    (column, row) ∈ Ship.get_dots i ->
    Ship.health i = 1 ->
    shot_result order self column row
      (Board.mk (Board.board (writes (write self (column, row) damaged)
                                (Board.contour order i) missed))
                (pre ++ post) (Board.ship_length_list self),
       Return true).

(** The ways a call of [add_ship] can end. *)
Inductive add_ship_result (order : set_order) (self : Board.t) (ship : Ship.t)
  : Board.t * result unit -> Prop :=
| add_ship_is_blocked :
    blocked order self ship ->
    add_ship_result order self ship
      (self, Raise (IncorrectParametersException add_ship_blocked_message))
| add_ship_is_surplus :
    ~ blocked order self ship ->
    Ship.length ship ∉ Board.ship_length_list self ->
    add_ship_result order self ship
      (self, Raise (IncorrectParametersException add_ship_length_message))
| add_ship_is_placed :
    ~ blocked order self ship ->
    Ship.length ship ∈ Board.ship_length_list self ->
    add_ship_result order self ship
      (Board.mk (Board.board (writes self (Ship.get_dots ship) undamaged))
                (Board.ships_list self ++ [bound ship])
                (list_remove (Ship.length ship) (Board.ship_length_list self)),
       Return tt).

(** ** Boards the program can reach

    [history order allowed n self]: [self] is what a board created by
    [Board()] has become after some calls of [add_ship] and [shot], in any
    order, [n] of the [add_ship] calls having returned.  A ship handed to
    [add_ship] is a Ship object that [allowed] admits: its length, direction
    and start point are as the constructor checked them ([ship_wf]), its
    health and the cells bound to it are whatever the constructor and the
    calls made since have left -- [add_ship] looks at neither, so a ship that
    was hit or sunk can be handed to it again.  A call that raises counts
    too: the board goes on as the call left it. *)
Inductive history (order : set_order) (allowed : Ship.t -> Prop) : nat -> Board.t -> Prop :=
| history_init b :
    Board.init = Return b -> history order allowed 0 b
| history_add_ship n self ship self' :
    history order allowed n self ->
    ship_wf ship -> allowed ship ->
    Board.add_ship order ship self = (self', Return tt) ->
    history order allowed (S n) self'
| history_add_ship_raise n self ship self' e :
    history order allowed n self ->
    ship_wf ship -> allowed ship ->
    Board.add_ship order ship self = (self', Raise e) ->
    history order allowed n self'
| history_shot n self column row :
    history order allowed n self ->
    history order allowed n (Board.shot order column row self).1.

(** Any Ship object; and a Ship object whose health is its length, which
    is how the constructor leaves it when no [health] is given, and how it
    stays until a shot hits it. *)
Definition any_ship : Ship.t -> Prop := fun _ => True.
Definition full_health : Ship.t -> Prop := fun s => Ship.health s = Ship.length s.



(** ** Calls and runs

    A call of the board's interface with its arguments; the ship of an
    [add_ship] call is constructed from the arguments given. *)
Inductive call : Type :=
| AddShip (length : Z) (direction : string) (start_point : Dot.t) (health : option Z)
| Shot (column row : Z).

#[global] Instance call_eq_dec : EqDecision call.
Proof. solve_decision. Defined.

(** The board after a call, whether the call returns or raises. *)
Definition perform (order : set_order) (c : call) (self : Board.t) : Board.t :=
  match c with
  | AddShip length direction start_point health =>
      match Ship.init length direction start_point health with
      | Return ship => (Board.add_ship order ship self).1
      | Raise _ => self
      end
  | Shot column row => (Board.shot order column row self).1
  end.

Definition run (order : set_order) (calls : list call) (b : Board.t) : Board.t :=
  foldl (fun self c => perform order c self) b calls.

(** [placements order placed self]: [self] is a new board on which the ships
    [placed] were put by calls of [add_ship] that all returned, and nothing
    else happened. *)
Inductive placements (order : set_order) : list Ship.t -> Board.t -> Prop :=
| placements_init b :
    Board.init = Return b -> placements order [] b
| placements_add placed self ship self' :
    placements order placed self ->
    ship_wf ship ->
    Board.add_ship order ship self = (self', Return tt) ->
    placements order (placed ++ [ship]) self'.

(** ** Sample boards *)

(** The board [Board()] returns. *)
Definition new_board : Board.t :=
  match Board.init with
  | Return b => b
  | Raise _ => Board.mk [] [] []
  end.

(** The ship of the greeting screen, and the board with that ship hit
    twice. *)
Definition example_ship : Ship.t := Ship.mk 3 "horizontal" (Dot.mk 3 2 hidden) 3 [].

Definition example_board : Board.t :=
  run sorted_order [AddShip 3 "horizontal" (Dot.mk 3 2 hidden) None; Shot 3 2; Shot 4 2]
      new_board.

(** A whole fleet, placed. *)
Definition fleet_calls : list call :=
  [AddShip 3 "horizontal" (Dot.mk 1 1 hidden) None;
   AddShip 2 "horizontal" (Dot.mk 1 3 hidden) None;
   AddShip 2 "horizontal" (Dot.mk 4 3 hidden) None;
   AddShip 1 "horizontal" (Dot.mk 5 1 hidden) None;
   AddShip 1 "horizontal" (Dot.mk 1 5 hidden) None;
   AddShip 1 "vertical" (Dot.mk 3 5 hidden) None;
   AddShip 1 "horizontal" (Dot.mk 5 5 hidden) None].

Definition fleet_board (k : nat) : Board.t := run sorted_order (take k fleet_calls) new_board.

(** ** Definitions for the further properties *)

(** [reduce_health] called [k] times in a row on the same ship. *)
Fixpoint reduce_health_times (k : nat) (ship : Ship.t) : result Ship.t :=
  match k with
  | O => Return ship
  | S k' => ship' ← Ship.reduce_health ship; reduce_health_times k' ship'
  end.

(** The 36 coordinate pairs of the grid, and those of them whose cell was
    not fired at or marked yet (["hidden"] or ["undamaged"]). *)
Definition all_cells : list (Z * Z) := c ← seqZ 1 6; r ← seqZ 1 6; [(c, r)].

Definition open_cells (self : Board.t) : list (Z * Z) :=
  filter (fun p => state_at self p = Some hidden \/ state_at self p = Some undamaged) all_cells.

(** The nested list [board] of a board whose cell at [(column, row)] is in
    state [f (column, row)]. *)
Definition grid (f : Z * Z -> State) : list (list Board.entry) :=
  (Board.Label <$> seqZ 1 6)
  :: ((fun r => Board.Label r :: ((fun c => Board.Cell (Dot.mk c r (f (c, r)))) <$> seqZ 1 6))
        <$> seqZ 1 6).

(** The state of a cell of the grid (["hidden"] stands in elsewhere). *)
Definition cell_state (self : Board.t) (p : Z * Z) : State :=
  default hidden (state_at self p).

(** What [print_board] shows for a cell in state [st]. *)
Definition shown (hidden_ : bool) (st : State) : string :=
  if hidden_ && bool_decide (st = undamaged) then "O"
  else Dot.icon (Dot.mk 1 1 st).

(** The text of a board: the header, then per row its number and what is
    shown of its six cells, each followed by [" | "]. *)
Definition board_text (hidden_ : bool) (f : Z * Z -> State) : list string :=
  [nl +:+ "   | "] ++ ((fun n => str_int n +:+ " | ") <$> seqZ 1 6)
  ++ (r ← seqZ 1 6;
      (nl +:+ " " +:+ str_int r +:+ " | ")
      :: ((fun c => shown hidden_ (f (c, r)) +:+ " | ") <$> seqZ 1 6))
  ++ [nl +:+ nl].

(** An answer that [shot] refuses: outside the grid, or at a cell that has
    been shot at or marked. *)
Definition refused_answer (self : Board.t) (q : Z * Z) : Prop :=
  in_board q = false \/ state_at self q = Some damaged \/ state_at self q = Some missed.

(** [str(e)] of the exception a refused answer raises. *)
Definition refusal_text (q : Z * Z) : string :=
  if in_board q then IncorrectParametersException_str shot_repeat_message
  else BoardOutException_str shot_outside_message.

(** What [move] prints while it skips the refused answers [qs]. *)
Definition refusals (player : string) (self : Board.t) (qs : list (Z * Z)) : list string :=
  if bool_decide (player = "user")
  then q ← qs; (refusal_text q +:+ nl) :: board_text false (cell_state self)
  else [].

(** The first line [move] prints after a shot. *)
Definition hit_line (who : string) (q : Z * Z) : string :=
  (nl +:+ who +:+ " hit dot with coordinates: column " +:+ str_int q.1
      +:+ ", row " +:+ str_int q.2 +:+ nl) +:+ nl.
(** ** Dot *)

Lemma in_1_6_true value : in_1_6 value = true <-> 1 <= value <= 6.
Proof. unfold in_1_6. rewrite andb_true_iff, !Z.leb_le. done. Qed.

Lemma in_1_6_false value : in_1_6 value = false <-> ~ (1 <= value <= 6).
Proof. rewrite <- in_1_6_true. destruct (in_1_6 value); naive_solver. Qed.

Lemma in_board_true p : in_board p = true <-> (1 <= p.1 <= 6) /\ (1 <= p.2 <= 6).
Proof. unfold in_board. rewrite andb_true_iff, !in_1_6_true. done. Qed.

Lemma Dot_init_Return column row st d :
  Dot.init column row st = Return d <->
  in_board (column, row) = true /\ d = Dot.mk column row st.
Proof.
  unfold Dot.init, Dot.set_column, Dot.set_row, in_board; simpl.
  destruct (in_1_6 column), (in_1_6 row); simpl;
    (split; [intros [= <-]; done | intros [[=] ->]; done]).
Qed.

Lemma Dot_init_Raise column row st e :
  Dot.init column row st = Raise e ->
  in_board (column, row) = false /\ exists msg, e = BoardOutException msg.
Proof.
  unfold Dot.init, Dot.set_column, Dot.set_row, in_board; simpl.
  destruct (in_1_6 column), (in_1_6 row); simpl; intros [=]; subst; eauto.
Qed.

(** C8. A Dot is constructed, in the state given (["hidden"] by default),
    exactly when column and row both lie in 1..6; otherwise the construction
    raises BoardOutException. *)
Theorem Dot_construction_bounds (column row : Z) :
  ((1 <= column <= 6 /\ 1 <= row <= 6) ->
     Dot.new column row = Return (Dot.mk column row hidden) /\
     forall st, Dot.init column row st = Return (Dot.mk column row st)) /\
  (~ (1 <= column <= 6 /\ 1 <= row <= 6) ->
     forall st, exists msg, Dot.init column row st = Raise (BoardOutException msg)).
Proof.
  split.
  - intros H. assert (in_board (column, row) = true) by (by apply in_board_true).
    split; [|intros st]; by apply Dot_init_Return.
  - intros H st. destruct (Dot.init column row st) as [d|e] eqn:E.
    + apply Dot_init_Return in E as [E _]. by apply in_board_true in E.
    + apply Dot_init_Raise in E as [_ [msg ->]]. eauto.
Qed.

(** ** Ship *)

Lemma elem_of_range i n : i ∈ range n <-> 0 <= i < n.
Proof. unfold range. rewrite elem_of_seqZ. lia. Qed.

Lemma elem_of_range2 i a b : i ∈ range2 a b <-> a <= i < b.
Proof. unfold range2. rewrite elem_of_seqZ. lia. Qed.


Lemma elem_of_get_dots s p :
  p ∈ Ship.get_dots s <->
  exists i, 0 <= i < Ship.length s /\
    ((Ship.direction s = "horizontal" /\
      p = (Dot.column (Ship.start_point s) + i, Dot.row (Ship.start_point s))) \/
     (Ship.direction s = "vertical" /\
      p = (Dot.column (Ship.start_point s), Dot.row (Ship.start_point s) + i))).
Proof.
  unfold Ship.get_dots. rewrite list_elem_of_bind. split.
  - intros (i & Hp & Hi). apply elem_of_range in Hi. exists i. split; [done|].
    repeat case_bool_decide; set_solver.
  - intros (i & Hi & Hp). exists i. rewrite elem_of_range. split; [|done].
    destruct Hp as [[Hd Hp]|[Hd Hp]]; rewrite Hd, Hp; simpl; set_solver.
Qed.

Lemma NoDup_get_dots s : NoDup (Ship.get_dots s).
Proof.
  unfold Ship.get_dots, range.
  generalize (Ship.length s) 0. intros n.
  unfold seqZ. generalize (Z.to_nat n). clear n. intros n.
  generalize 0%nat.
  induction n as [|n IH]; intros k z; simpl; [constructor|].
  apply NoDup_app. split; [|split].
  - repeat case_bool_decide; repeat constructor; set_solver.
  - intros p Hp Hq. apply list_elem_of_bind in Hq as (i & Hq & Hi).
    apply list_elem_of_fmap in Hi as (j & -> & Hj). apply elem_of_seq in Hj.
    repeat case_bool_decide; try set_solver;
      apply list_elem_of_singleton in Hp; apply list_elem_of_singleton in Hq;
      subst; inversion Hq; lia.
  - apply IH.
Qed.

(** ** Contour *)

Lemma elem_of_list_remove `{EqDecision A} (x : A) (l : list A) :
  NoDup l -> NoDup (list_remove x l) /\ forall y, y ∈ list_remove x l <-> y ∈ l /\ y <> x.
Proof.
  induction 1 as [|z l Hz Hl IH]; simpl.
  - split; [constructor|]. set_solver.
  - case_decide as Hx.
    + subst z. split; [done|]. intros y. set_solver.
    + destruct IH as [IH1 IH2]. split.
      * constructor; [|done]. rewrite IH2. tauto.
      * intros y. rewrite !elem_of_cons, IH2. naive_solver.
Qed.

Lemma elem_of_remove_outside (xs acc : list (Z * Z)) :
  NoDup acc ->
  let res := foldl (fun acc '(column, row) =>
                      if negb (in_1_6 column) || negb (in_1_6 row)
                      then list_remove (column, row) acc else acc) acc xs in
  NoDup res /\ forall p, p ∈ res <-> p ∈ acc /\ ~ (p ∈ xs /\ in_board p = false).
Proof.
  revert acc. induction xs as [|[c r] xs IH]; intros acc Hacc; simpl.
  - split; [done|]. set_solver.
  - destruct (negb (in_1_6 c) || negb (in_1_6 r)) eqn:E.
    + destruct (elem_of_list_remove (c, r) acc Hacc) as [H1 H2].
      destruct (IH _ H1) as [IH1 IH2]. split; [done|]. intros p.
      rewrite IH2, H2, elem_of_cons.
      assert (in_board (c, r) = false).
      { unfold in_board; simpl. destruct (in_1_6 c), (in_1_6 r); done. }
      destruct (decide (p = (c, r))) as [->|]; naive_solver.
    + destruct (IH _ Hacc) as [IH1 IH2]. split; [done|]. intros p.
      rewrite IH2, elem_of_cons.
      assert (in_board (c, r) = true).
      { unfold in_board; simpl. destruct (in_1_6 c), (in_1_6 r); done. }
      destruct (decide (p = (c, r))) as [->|]; [|naive_solver].
      split; [|naive_solver]. intros [? ?]; split; [done|]. intros [_ ?]. congruence.
Qed.

Lemma elem_of_block (p q : Z * Z) :
  p ∈ (i ← range2 (-1) 2; j ← range2 (-1) 2; [(q.1 + i, q.2 + j)]) <-> adjacent p q.
Proof.
  unfold adjacent. rewrite list_elem_of_bind. split.
  - intros (i & Hp & Hi). apply list_elem_of_bind in Hp as (j & Hp & Hj).
    apply elem_of_range2 in Hi, Hj. apply list_elem_of_singleton in Hp. subst p. simpl. lia.
  - intros [H1 H2]. exists (p.1 - q.1). rewrite elem_of_range2. split; [|lia].
    apply list_elem_of_bind. exists (p.2 - q.2). rewrite elem_of_range2. split; [|lia].
    apply list_elem_of_singleton. destruct p as [a b]; simpl. f_equal; lia.
Qed.

Lemma elem_of_blocks (dots : list (Z * Z)) (acc : gset (Z * Z)) p :
  p ∈ foldl (fun acc '(column, row) =>
               let dot_list : gset (Z * Z) :=
                 list_to_set (i ← range2 (-1) 2; j ← range2 (-1) 2; [(column + i, row + j)]) in
               acc ∪ dot_list) acc dots
  <-> p ∈ acc \/ exists q, q ∈ dots /\ adjacent p q.
Proof.
  revert acc. induction dots as [|[c r] dots IH]; intros acc; cbn [foldl].
  - set_solver.
  - rewrite IH. cbv zeta. rewrite elem_of_union, elem_of_list_to_set.
    rewrite (elem_of_block p (c, r)). set_solver.
Qed.

Lemma elem_of_removed (dots : list (Z * Z)) (acc : gset (Z * Z)) p :
  p ∈ foldl (fun acc coord => acc ∖ {[coord]}) acc dots <-> p ∈ acc /\ p ∉ dots.
Proof.
  revert acc. induction dots as [|q dots IH]; intros acc; simpl.
  - set_solver.
  - rewrite IH. set_solver.
Qed.

(** [set.remove] never misses in [contour]: each coordinate of the ship is
    in the union of the blocks, and is met once. *)
Lemma contour_remove_defined (ship : Ship.t) :
  NoDup (Ship.get_dots ship) /\
  forall p, p ∈ Ship.get_dots ship ->
    p ∈ foldl (fun acc '(column, row) =>
                 let dot_list : gset (Z * Z) :=
                   list_to_set (i ← range2 (-1) 2; j ← range2 (-1) 2; [(column + i, row + j)]) in
                 acc ∪ dot_list) (∅ : gset (Z * Z)) (Ship.get_dots ship).
Proof.
  split; [apply NoDup_get_dots|]. intros p Hp. apply elem_of_blocks. right.
  exists p. split; [done|]. unfold adjacent. lia.
Qed.

Lemma elem_of_contour (order : set_order) (ship : Ship.t) p :
  p ∈ Board.contour order ship <->
  in_board p = true /\ (p ∉ Ship.get_dots ship) /\
  exists q, q ∈ Ship.get_dots ship /\ adjacent p q.
Proof.
  unfold Board.contour.
  match goal with |- context [to_list order ?X] => set (S := X) end.
  assert (HS : NoDup (order S)).
  { rewrite (to_list_perm order S). apply NoDup_elements. }
  destruct (elem_of_remove_outside (order S) (order S) HS) as [_ H]. rewrite H. clear H.
  assert (Hin : (p ∈ to_list order S) <-> (p ∈ S)).
  { rewrite (to_list_perm order S). apply elem_of_elements. }
  rewrite Hin. unfold S. rewrite elem_of_removed, elem_of_blocks.
  destruct (in_board p); set_solver.
Qed.

Lemma NoDup_contour (order : set_order) (ship : Ship.t) : NoDup (Board.contour order ship).
Proof.
  unfold Board.contour.
  match goal with |- context [to_list order ?X] => set (S := X) end.
  apply elem_of_remove_outside. rewrite (to_list_perm order S). apply NoDup_elements.
Qed.

(** ** Ship construction *)

Lemma bind_singleton_fmap {A B} (f : A -> B) (l : list A) :
  (l ≫= fun x => [f x]) = f <$> l.
Proof. induction l as [|x l IH]; [done|]. cbn. by f_equal. Qed.

Lemma elem_of_DIRECTION_CHOICES d :
  d ∈ Ship.DIRECTION_CHOICES <-> d = "horizontal" \/ d = "vertical".
Proof. unfold Ship.DIRECTION_CHOICES. set_solver. Qed.

Lemma get_dots_derived_run s :
  Ship.direction s ∈ Ship.DIRECTION_CHOICES ->
  Ship.get_dots s =
  derived_run (Ship.length s) (Ship.direction s) (Dot.get_coords (Ship.start_point s)).
Proof.
  intros Hd. apply elem_of_DIRECTION_CHOICES in Hd.
  unfold Ship.get_dots, derived_run, range, Dot.get_coords.
  destruct Hd as [-> | ->]; simpl; apply bind_singleton_fmap.
Qed.

Lemma elem_of_derived_run length direction anchor p :
  p ∈ derived_run length direction anchor <->
  exists i, 0 <= i < length /\
    p = if bool_decide (direction = "horizontal")
        then (anchor.1 + i, anchor.2) else (anchor.1, anchor.2 + i).
Proof.
  unfold derived_run. rewrite list_elem_of_fmap. setoid_rewrite elem_of_seqZ.
  split; intros (i & ? & ?); exists i; split; (done || lia).
Qed.

Lemma check_part_spec direction dot_value i :
  direction ∈ Ship.DIRECTION_CHOICES ->
  let p := if bool_decide (direction = "horizontal")
           then (Dot.column dot_value + i, Dot.row dot_value)
           else (Dot.column dot_value, Dot.row dot_value + i) in
  if in_board p then Ship.check_part direction dot_value i = Return tt
  else exists msg, Ship.check_part direction dot_value i = Raise (BoardOutException msg).
Proof.
  intros Hd. apply elem_of_DIRECTION_CHOICES in Hd.
  unfold Ship.check_part, Dot.new.
  destruct Hd as [-> | ->]; simpl;
    match goal with |- context [Dot.init ?c ?r ?st] =>
      destruct (Dot.init c r st) as [d|e] eqn:E;
      [apply Dot_init_Return in E as [-> _]; done
      |apply Dot_init_Raise in E as [-> [msg ->]]; simpl; eauto]
    end.
Qed.

Lemma check_parts_spec direction dot_value l :
  direction ∈ Ship.DIRECTION_CHOICES ->
  let part i := if bool_decide (direction = "horizontal")
                then (Dot.column dot_value + i, Dot.row dot_value)
                else (Dot.column dot_value, Dot.row dot_value + i) in
  (Ship.check_parts direction dot_value l = Return tt /\
   forall i, i ∈ l -> in_board (part i) = true) \/
  ((exists msg, Ship.check_parts direction dot_value l = Raise (BoardOutException msg)) /\
   exists i, i ∈ l /\ in_board (part i) = false).
Proof.
  intros Hd part. induction l as [|i l IH]; simpl.
  - left. split; [done|]. set_solver.
  - pose proof (check_part_spec direction dot_value i Hd) as Hi. simpl in Hi.
    fold (part i) in Hi. destruct (in_board (part i)) eqn:E.
    + rewrite Hi. destruct IH as [[IH1 IH2]|[IH1 (j & Hj & IH2)]].
      * left. split; [done|]. intros j Hj. apply elem_of_cons in Hj as [->|Hj]; auto.
      * right. split; [done|]. exists j. set_solver.
    + destruct Hi as [msg ->]. right. split; [eauto|]. exists i. set_solver.
Qed.

Lemma Ship_init_spec length direction start_point health :
  1 <= length <= 3 -> direction ∈ Ship.DIRECTION_CHOICES ->
  let run := derived_run length direction (Dot.get_coords start_point) in
  (Ship.init length direction start_point health
     = Return (Ship.mk length direction start_point (Ship.set_health length health) []) /\
   forall p, p ∈ run -> in_board p = true) \/
  ((exists msg, Ship.init length direction start_point health = Raise (BoardOutException msg)) /\
   exists p, p ∈ run /\ in_board p = false).
Proof.
  intros Hl Hd run. unfold Ship.init, Ship.set_length, Ship.set_direction.
  assert ((1 <=? length) && (length <=? 3) = true) as -> by lia.
  rewrite bool_decide_eq_true_2 by done. simpl.
  unfold Ship.set_start_point, Ship.check_start_point.
  destruct (check_parts_spec direction start_point (range length) Hd)
    as [[H1 H2]|[[msg H1] (i & Hi & H2)]]; rewrite H1; simpl.
  - left. split; [done|]. intros p Hp.
    apply elem_of_derived_run in Hp as (i & Hi & ->). apply elem_of_range in Hi.
    apply (H2 i Hi).
  - right. split; [eauto|]. eexists. split; [|exact H2].
    apply elem_of_derived_run. exists i. apply elem_of_range in Hi. done.
Qed.

Lemma Ship_init_Return length direction start_point health s :
  Ship.init length direction start_point health = Return s ->
  s = Ship.mk length direction start_point (Ship.set_health length health) [] /\ ship_wf s.
Proof.
  intros H.
  assert (Hl : 1 <= length <= 3).
  { unfold Ship.init, Ship.set_length in H.
    destruct ((1 <=? length) && (length <=? 3)) eqn:E; [lia|done]. }
  assert (Hd : direction ∈ Ship.DIRECTION_CHOICES).
  { unfold Ship.init, Ship.set_length, Ship.set_direction in H.
    destruct ((1 <=? length) && (length <=? 3)); [|done]. simpl in H.
    case_bool_decide; done. }
  destruct (Ship_init_spec length direction start_point health Hl Hd)
    as [[H1 H2]|[[msg H1] _]]; [|congruence].
  rewrite H1 in H. injection H as <-. split; [done|].
  split; [done|]. split; [done|]. intros p Hp.
  rewrite get_dots_derived_run in Hp by done. by apply H2.
Qed.

(** ** Reading and writing cells *)

Lemma py_index_nonneg {A} (l : list A) i n :
  0 <= i -> py_index l i = Some n -> n = Z.to_nat i /\ (n < length l)%nat.
Proof.
  unfold py_index. intros Hi.
  destruct ((0 <=? i) && (i <? Z.of_nat (length l))) eqn:E.
  - intros [= <-]. lia.
  - assert ((i <? 0) = false) as -> by lia. done.
Qed.

Lemma py_index_in_range {A} (l : list A) i :
  0 <= i -> (Z.to_nat i < length l)%nat -> py_index l i = Some (Z.to_nat i).
Proof.
  unfold py_index. intros Hi Hl.
  assert ((0 <=? i) && (i <? Z.of_nat (length l)) = true) as -> by lia. done.
Qed.

Lemma dot_at_inv self p d :
  0 <= p.1 -> 0 <= p.2 -> dot_at self p = Some d ->
  exists rw, Board.board self !! Z.to_nat p.2 = Some rw /\
             rw !! Z.to_nat p.1 = Some (Board.Cell d).
Proof.
  intros H1 H2. unfold dot_at, Board.get_dot, py_get; simpl.
  destruct (py_index (Board.board self) p.2) as [n|] eqn:En; simpl; [|done].
  apply py_index_nonneg in En as [-> _]; [|done].
  destruct (Board.board self !! Z.to_nat p.2) as [rw|]; simpl; [|done].
  destruct (py_index rw p.1) as [m|] eqn:Em; simpl; [|done].
  apply py_index_nonneg in Em as [-> _]; [|done].
  destruct (rw !! Z.to_nat p.1) as [[k|d']|] eqn:E; simpl; try done.
  intros [= ->]. eauto.
Qed.

Lemma get_dot_intro self c r rw d :
  0 <= c -> 0 <= r ->
  Board.board self !! Z.to_nat r = Some rw -> rw !! Z.to_nat c = Some (Board.Cell d) ->
  Board.get_dot c r self = (self, Return d).
Proof.
  intros H1 H2 Hr Hc. unfold Board.get_dot, py_get.
  rewrite (py_index_in_range _ r) by eauto using lookup_lt_Some. simpl. rewrite Hr. simpl.
  rewrite (py_index_in_range _ c) by eauto using lookup_lt_Some. simpl. rewrite Hc. done.
Qed.

Lemma dot_at_intro self p rw d :
  0 <= p.1 -> 0 <= p.2 ->
  Board.board self !! Z.to_nat p.2 = Some rw -> rw !! Z.to_nat p.1 = Some (Board.Cell d) ->
  dot_at self p = Some d.
Proof.
  intros. unfold dot_at. by erewrite get_dot_intro.
Qed.

Lemma in_board_nonneg p : in_board p = true -> 0 <= p.1 /\ 0 <= p.2.
Proof. rewrite in_board_true. lia. Qed.

Lemma set_state_wf self p value :
  board_wf self -> in_board p = true ->
  Board.set_state p.1 p.2 value self = (write self p value, Return tt) /\
  Board.ships_list (write self p value) = Board.ships_list self /\
  Board.ship_length_list (write self p value) = Board.ship_length_list self /\
  board_wf (write self p value) /\
  state_at (write self p value) p = Some value /\
  forall q, in_board q = true -> q <> p -> dot_at (write self p value) q = dot_at self q.
Proof.
  intros Hwf Hp. destruct (Hwf p Hp) as [st Hst].
  destruct (in_board_nonneg p Hp) as [Hc Hr].
  destruct (dot_at_inv _ _ _ Hc Hr Hst) as (rw & Hrw & Hcell).
  assert (Hget : Board.get_dot p.1 p.2 self = (self, Return (Dot.mk p.1 p.2 st))).
  { by eapply get_dot_intro. }
  set (rw' := <[Z.to_nat p.1 := Board.Cell (Dot.mk p.1 p.2 value)]> rw).
  set (self' := Board.with_board self (<[Z.to_nat p.2 := rw']> (Board.board self))).
  assert (Hset : Board.set_state p.1 p.2 value self = (self', Return tt)).
  { unfold Board.set_state. unfold mbind, M_bind, bind. rewrite Hget.
    unfold modify. f_equal.
    rewrite (py_index_in_range _ p.2) by eauto using lookup_lt_Some.
    unfold self'. f_equal.
    apply list_eq. intros k. destruct (decide (k = Z.to_nat p.2)) as [->|Hk].
    - rewrite list_lookup_alter_eq, list_lookup_insert_eq by eauto using lookup_lt_Some.
      rewrite Hrw. simpl.
      rewrite (py_index_in_range _ p.1) by eauto using lookup_lt_Some. done.
    - rewrite list_lookup_alter_ne, list_lookup_insert_ne by done. done. }
  assert (Hq : forall q d, in_board q = true ->
             (dot_at self' q = Some d <->
              if decide (q = p) then d = Dot.mk p.1 p.2 value else dot_at self q = Some d)).
  { intros q d Hqb. destruct (in_board_nonneg q Hqb) as [Hqc Hqr].
    destruct (Hwf q Hqb) as [stq Hstq].
    destruct (dot_at_inv _ _ _ Hqc Hqr Hstq) as (rq & Hrq & Hcq).
    case_decide as Hqp.
    - subst q. erewrite (dot_at_intro self' p rw'); [naive_solver|done|done| |].
      + simpl. apply list_lookup_insert_eq. eauto using lookup_lt_Some.
      + apply list_lookup_insert_eq. eauto using lookup_lt_Some.
    - rewrite Hstq. destruct (decide (Z.to_nat q.2 = Z.to_nat p.2)) as [E|E].
      + assert (Z.to_nat q.1 <> Z.to_nat p.1).
        { intros E'. apply Hqp. destruct p, q; simpl in *. f_equal; lia. }
        erewrite (dot_at_intro self' q rw'); [done|done|done| |].
        * simpl. rewrite E. apply list_lookup_insert_eq. eauto using lookup_lt_Some.
        * unfold rw'. rewrite list_lookup_insert_ne by done.
          rewrite E in Hrq. congruence.
      + erewrite (dot_at_intro self' q rq); [done|done|done| |done].
        simpl. rewrite list_lookup_insert_ne by done. done. }
  unfold write. rewrite Hset. simpl. repeat split; try done.
  - intros q Hqb. destruct (Hwf q Hqb) as [stq Hstq].
    destruct (decide (q = p)) as [->|Hne].
    + exists value. apply Hq; [done|]. by rewrite decide_True.
    + exists stq. apply Hq; [done|]. by rewrite decide_False.
  - unfold state_at. rewrite (proj2 (Hq p (Dot.mk p.1 p.2 value) Hp)); [done|].
    by rewrite decide_True.
  - intros q Hqb Hne. destruct (Hwf q Hqb) as [stq Hstq]. rewrite Hstq.
    apply Hq; [done|]. by rewrite decide_False.
Qed.

(** ** Sequences of state writes *)

Lemma writes_wf self l value :
  board_wf self -> (forall p, p ∈ l -> in_board p = true) ->
  Board.ships_list (writes self l value) = Board.ships_list self /\
  Board.ship_length_list (writes self l value) = Board.ship_length_list self /\
  board_wf (writes self l value) /\
  (forall q, q ∈ l -> state_at (writes self l value) q = Some value) /\
  (forall q, in_board q = true -> q ∉ l -> dot_at (writes self l value) q = dot_at self q).
Proof.
  revert self. induction l as [|p l IH]; intros self Hwf Hl; cbn [writes foldl].
  - repeat split; try done. set_solver.
  - assert (Hp : in_board p = true) by (apply Hl; set_solver).
    destruct (set_state_wf self p value Hwf Hp) as (_ & H1 & H2 & H3 & H4 & H5).
    destruct (IH (write self p value) H3) as (I1 & I2 & I3 & I4 & I5).
    { intros q Hq. apply Hl. set_solver. }
    fold (writes (write self p value) l value).
    repeat split; try congruence; try done.
    + intros q Hq. destruct (decide (q ∈ l)) as [|Hn]; [by apply I4|].
      assert (q = p) as -> by set_solver.
      unfold state_at. rewrite I5 by done. exact H4.
    + intros q Hq Hn. rewrite I5 by set_solver. apply H5; set_solver.
Qed.

Lemma state_at_writes self l value q :
  board_wf self -> (forall p, p ∈ l -> in_board p = true) -> in_board q = true ->
  state_at (writes self l value) q = if decide (q ∈ l) then Some value else state_at self q.
Proof.
  intros Hwf Hl Hq. destruct (writes_wf self l value Hwf Hl) as (_ & _ & _ & H4 & H5).
  case_decide; [by apply H4|]. unfold state_at. by rewrite H5.
Qed.

(** ** add_ship *)

Lemma bind_run {St A B} (m : M St A) (k : A -> M St B) (s : St) :
  (m ≫= k) s = match m s with
               | (s', Return a) => k a s'
               | (s', Raise e) => (s', Raise e)
               end.
Proof. done. Qed.

Lemma elem_of_occupied_dots order ships p :
  p ∈ Board.occupied_dots order ships <-> p ∈ exclusion order ships.
Proof.
  unfold Board.occupied_dots, exclusion.
  assert (Hadd : forall (l : list (Z * Z)) (acc : gset (Z * Z)),
            foldl (fun acc dot => acc ∪ {[dot]}) acc l = acc ∪ list_to_set l).
  { induction l as [|x l IH]; intros acc; cbn [foldl].
    - set_solver.
    - rewrite IH. set_solver. }
  assert (Hgen : forall acc : gset (Z * Z),
    p ∈ foldl (fun acc ship =>
                 let acc := foldl (fun acc dot => acc ∪ {[dot]}) acc (Ship.get_dots ship) in
                 foldl (fun acc dot => acc ∪ {[dot]}) acc (Board.contour order ship))
              acc ships
    <-> p ∈ acc \/
        p ∈ ⋃ ((fun s => list_to_set (Ship.get_dots s) ∪ list_to_set (Board.contour order s) : gset (Z * Z))
                 <$> ships)).
  { induction ships as [|s ships IH]; intros acc; cbn [foldl fmap list_fmap].
    - set_solver.
    - rewrite IH. cbv zeta. rewrite !Hadd. set_solver. }
  rewrite Hgen. set_solver.
Qed.

Lemma elem_of_exclusion order ships p :
  p ∈ exclusion order ships <->
  exists s, s ∈ ships /\ (p ∈ Ship.get_dots s \/ p ∈ Board.contour order s).
Proof.
  unfold exclusion. rewrite elem_of_union_list. split.
  - intros (X & HX & Hp). apply list_elem_of_fmap in HX as (s & -> & Hs).
    exists s. set_solver.
  - intros (s & Hs & Hp). eexists. split; [apply list_elem_of_fmap; eauto|]. set_solver.
Qed.

Lemma for_check {St : Type} (l : list (Z * Z)) (occupied : gset (Z * Z)) (e : exn) (s : St) :
  for_ l (fun dot => if bool_decide (dot ∈ occupied) then raise e else mret tt) s =
  (s, if bool_decide (Exists (fun p => p ∈ occupied) l) then Raise e else Return tt).
Proof.
  induction l as [|p l IH]; cbn [for_].
  - rewrite bool_decide_eq_false_2; [done|]. by intros H%Exists_nil.
  - unfold bind at 1. destruct (bool_decide_reflect (p ∈ occupied)) as [Hp|Hp].
    + rewrite bool_decide_eq_true_2; [done|]. by left.
    + cbn. rewrite IH. f_equal.
      destruct (bool_decide_reflect (Exists (fun p => p ∈ occupied) l)) as [Hl|Hl].
      * rewrite bool_decide_eq_true_2; [done|]. by right.
      * rewrite bool_decide_eq_false_2; [done|]. by intros [?|?]%Exists_cons.
Qed.

Lemma blocked_Exists order self ship :
  blocked order self ship <->
  Exists (fun p => p ∈ Board.occupied_dots order (Board.ships_list self)) (Ship.get_dots ship).
Proof.
  unfold blocked. rewrite Exists_exists. setoid_rewrite elem_of_occupied_dots. done.
Qed.

Lemma add_ship_blocked order self ship :
  blocked order self ship ->
  Board.add_ship order ship self =
  (self, Raise (IncorrectParametersException add_ship_blocked_message)).
Proof.
  intros Hb. unfold Board.add_ship, mbind, M_bind.
  unfold bind at 1. unfold gets at 1. unfold bind at 1. rewrite for_check.
  rewrite bool_decide_eq_true_2; [done|]. by apply blocked_Exists.
Qed.

Lemma add_ship_no_length order self ship :
  ~ blocked order self ship ->
  Ship.length ship ∉ Board.ship_length_list self ->
  Board.add_ship order ship self =
  (self, Raise (IncorrectParametersException add_ship_length_message)).
Proof.
  intros Hb Hl. unfold Board.add_ship, mbind, M_bind.
  unfold bind at 1. unfold gets at 1. unfold bind at 1. rewrite for_check.
  rewrite bool_decide_eq_false_2 by (by rewrite <- blocked_Exists).
  unfold bind at 1. unfold gets at 1. rewrite bool_decide_eq_false_2 by done. done.
Qed.

(** The loop that marks the cells of the new ship and binds them to it. *)
Lemma add_ship_loop (l : list (Z * Z)) g ships s lens :
  let self := Board.mk g (ships ++ [s]) lens in
  board_wf self -> (forall p, p ∈ l -> in_board p = true) ->
  for_ l (fun dot => Board.set_state dot.1 dot.2 undamaged;; Board.append_to_new_ship dot) self =
  (Board.mk (Board.board (writes self l undamaged))
            (ships ++ [Ship.mk (Ship.length s) (Ship.direction s) (Ship.start_point s)
                               (Ship.health s) (Ship.dots_list s ++ l)])
            lens,
   Return tt).
Proof.
  revert g s. induction l as [|p l IH]; intros g s self Hwf Hl; cbn [for_].
  - unfold ret. rewrite app_nil_r. by destruct s.
  - assert (Hp : in_board p = true) by (apply Hl; set_solver).
    destruct (set_state_wf self p undamaged Hwf Hp) as (H0 & H1 & H2 & H3 & _).
    set (self1 := write self p undamaged) in *.
    unfold bind at 1. rewrite bind_run, H0.
    change (Board.append_to_new_ship p self1)
      with (Board.with_ships_list self1
              (alter (fun s => Ship.dots_list_append s p)
                     (Nat.pred (length (Board.ships_list self1))) (Board.ships_list self1)),
            Return tt).
    unfold Board.with_ships_list.
    rewrite H1, H2. subst self. cbn [Board.ships_list Board.ship_length_list].
    rewrite length_app, Nat.add_1_r, Nat.pred_succ.
    assert (alter (fun s0 => Ship.dots_list_append s0 p) (length ships) (ships ++ [s])
            = ships ++ [Ship.dots_list_append s p]) as ->.
    { apply list_eq. intros k. destruct (decide (k = length ships)) as [->|Hk].
      - rewrite list_lookup_alter_eq, !lookup_app_r, Nat.sub_diag by lia. done.
      - rewrite list_lookup_alter_ne by done.
        destruct (decide (k < length ships)%nat).
        + by rewrite !lookup_app_l by done.
        + rewrite !lookup_app_r by lia.
          destruct (k - length ships)%nat as [|k'] eqn:E; [lia|]. done. }
    specialize (IH (Board.board self1) (Ship.dots_list_append s p)).
    cbv zeta in IH.
    assert (Hw : forall m x y, board_wf (Board.mk (Board.board m) x y) <-> board_wf m).
    { intros m x y. unfold board_wf, dot_at, Board.get_dot. done. }
    rewrite IH; [|by apply Hw|intros q Hq; apply Hl; set_solver].
    unfold Ship.dots_list_append; cbn [Ship.length Ship.direction Ship.start_point Ship.health Ship.dots_list].
    rewrite <- app_assoc. cbn [app].
    f_equal. f_equal.
    assert (Hwr : forall m x y l, Board.board (writes (Board.mk (Board.board m) x y) l undamaged)
                                 = Board.board (writes m l undamaged)).
    { clear. intros m x y l. revert m x y. induction l as [|q l IH]; intros m x y; [done|].
      cbn [writes foldl]. fold (writes (write (Board.mk (Board.board m) x y) q undamaged) l undamaged).
      fold (writes (write m q undamaged) l undamaged).
      rewrite <- (IH (write m q undamaged) x y).
      f_equal. f_equal. unfold write, Board.set_state, mbind, M_bind, bind, Board.get_dot, modify, Board.with_board.
      cbn [Board.board Board.ships_list Board.ship_length_list].
      destruct (py_get (Board.board m) q.2 ≫= _); cbn; [|done].
      destruct (py_index (Board.board m) q.2); done. }
    rewrite Hwr. done.
Qed.

Lemma add_ship_ok order self ship :
  board_wf self -> (forall p, p ∈ Ship.get_dots ship -> in_board p = true) ->
  ~ blocked order self ship ->
  Ship.length ship ∈ Board.ship_length_list self ->
  Board.add_ship order ship self =
  (Board.mk (Board.board (writes self (Ship.get_dots ship) undamaged))
            (Board.ships_list self ++ [bound ship])
            (list_remove (Ship.length ship) (Board.ship_length_list self)),
   Return tt).
Proof.
  intros Hwf Hdots Hb Hl. unfold Board.add_ship.
  rewrite bind_run. unfold gets at 1. rewrite bind_run, for_check.
  rewrite bool_decide_eq_false_2 by (by rewrite <- blocked_Exists).
  rewrite bind_run. unfold gets at 1. rewrite bool_decide_eq_true_2 by done.
  rewrite bind_run. unfold modify at 1. rewrite bind_run. unfold modify at 1.
  unfold Board.with_ships_list, Board.with_ship_length_list.
  cbn [Board.board Board.ships_list Board.ship_length_list].
  pose proof (add_ship_loop (Ship.get_dots ship) (Board.board self)
                (Board.ships_list self) ship
                (list_remove (Ship.length ship) (Board.ship_length_list self))) as Hloop.
  cbv zeta in Hloop. rewrite Hloop; [|done|done].
  f_equal. unfold bound. f_equal.
  clear. generalize (Board.ships_list self ++ [ship]).
  generalize (list_remove (Ship.length ship) (Board.ship_length_list self)).
  intros x y. generalize (Ship.get_dots ship). intros l. destruct self as [g a b].
  cbn [Board.board]. revert g a b x y.
  induction l as [|q l IH]; intros g a b x y; [done|].
  cbn [writes foldl].
  fold (writes (write (Board.mk g y x) q undamaged) l undamaged).
  fold (writes (write (Board.mk g a b) q undamaged) l undamaged).
  assert (write (Board.mk g y x) q undamaged =
          Board.mk (Board.board (write (Board.mk g a b) q undamaged)) y x) as ->.
  { unfold write, Board.set_state, mbind, M_bind, bind, Board.get_dot, modify, Board.with_board.
    cbn [Board.board Board.ships_list Board.ship_length_list].
    destruct (py_get g q.2 ≫= _); cbn; [|done].
    destruct (py_index g q.2); done. }
  destruct (write (Board.mk g a b) q undamaged) as [g' a' b'].
  cbn [Board.board]. apply IH.
Qed.

(** ** shot *)

Lemma write_board_indep m x y q value :
  write (Board.mk (Board.board m) x y) q value =
  Board.mk (Board.board (write m q value)) x y.
Proof.
  unfold write, Board.set_state. rewrite !bind_run.
  unfold Board.get_dot, modify, Board.with_board.
  cbn [Board.board Board.ships_list Board.ship_length_list].
  destruct (py_get (Board.board m) q.2 ≫= _); cbn; [|by destruct m].
  destruct (py_index (Board.board m) q.2); [done|by destruct m].
Qed.

Lemma writes_board_indep m x y l value :
  writes (Board.mk (Board.board m) x y) l value =
  Board.mk (Board.board (writes m l value)) x y.
Proof.
  revert m. induction l as [|q l IH]; intros m; cbn [writes foldl].
  - done.
  - fold (writes (write (Board.mk (Board.board m) x y) q value) l value).
    fold (writes (write m q value) l value).
    rewrite write_board_indep. apply IH.
Qed.

Lemma board_wf_indep m x y : board_wf (Board.mk (Board.board m) x y) <-> board_wf m.
Proof. unfold board_wf, dot_at, Board.get_dot. done. Qed.

Lemma state_at_indep m x y p : state_at (Board.mk (Board.board m) x y) p = state_at m p.
Proof. done. Qed.

Lemma mark_contour_spec l column row self :
  board_wf self -> (forall p, p ∈ l -> in_board p = true) ->
  Board.mark_contour l column row self =
  (writes self l missed, Return (default (column, row) (last l))).
Proof.
  revert column row self. induction l as [|[c r] l IH]; intros column row self Hwf Hl.
  - done.
  - cbn [Board.mark_contour]. rewrite bind_run.
    assert (Hp : in_board (c, r) = true) by (apply Hl; set_solver).
    destruct (set_state_wf self (c, r) missed Hwf Hp) as (H0 & _ & _ & H3 & _).
    cbn [fst snd] in H0. rewrite H0. rewrite IH; [|done|intros q Hq; apply Hl; set_solver].
    cbn [writes foldl]. f_equal. f_equal. rewrite last_cons. by destruct (last l).
Qed.

Lemma hit_ships_miss order done todo column row self :
  (forall s, s ∈ todo -> (column, row) ∉ Ship.get_dots s) ->
  hit_ships order done todo column row self = (self, Return tt).
Proof.
  revert done. induction todo as [|i rest IH]; intros done Hmiss; cbn [hit_ships].
  - done.
  - rewrite bool_decide_eq_false_2 by (apply Hmiss; set_solver).
    apply IH. intros s Hs. apply Hmiss. set_solver.
Qed.

Lemma hit_ships_hit order done pre i post column row self :
  board_wf self ->
  (forall s, s ∈ pre -> (column, row) ∉ Ship.get_dots s) ->
  (column, row) ∈ Ship.get_dots i ->
  (forall s, s ∈ post -> (column, row) ∉ Ship.get_dots s) ->
  (forall s q, s ∈ post -> q ∈ Board.contour order i -> q ∉ Ship.get_dots s) ->
  hit_ships order done (pre ++ i :: post) column row self =
  if 0 <? Ship.health i then
    if bool_decide (Ship.health i = 1) then
      (Board.mk (Board.board (writes self (Board.contour order i) missed))
                (done ++ pre ++ post) (Board.ship_length_list self), Return tt)
    else
      (Board.with_ships_list self
         (done ++ pre ++ Ship.with_health i (Ship.health i - 1) :: post), Return tt)
  else (self, Raise (GameplayException health_message)).
Proof.
  intros Hwf Hpre Hi Hpost Hcont. revert done.
  induction pre as [|s pre IH]; intros done.
  - cbn [app hit_ships]. rewrite bool_decide_eq_true_2 by done.
    rewrite bind_run. unfold lift, Ship.reduce_health.
    destruct (0 <? Ship.health i) eqn:Hh; [|done].
    rewrite bind_run. unfold modify at 1.
    cbn [Ship.health Ship.with_health].
    destruct (bool_decide_reflect (Ship.health i - 1 = 0)) as [H0|H0].
    + rewrite bool_decide_eq_true_2 by lia.
      rewrite bind_run.
      change (Board.contour order (Ship.with_health i (Ship.health i - 1)))
        with (Board.contour order i).
      rewrite mark_contour_spec.
      2:{ unfold Board.with_ships_list. by apply board_wf_indep. }
      2:{ intros p Hp. by apply elem_of_contour in Hp as [? _]. }
      destruct (default (column, row) (last (Board.contour order i))) as [c' r'] eqn:El.
      rewrite bind_run. unfold modify at 1. unfold Board.with_ships_list.
      rewrite writes_board_indep.
      cbn [Board.board Board.ships_list Board.ship_length_list].
      destruct post as [|j post'].
      * done.
      * rewrite hit_ships_miss; [done|]. intros s Hs.
        destruct (last (Board.contour order i)) as [q|] eqn:Eq; simpl in El.
        -- subst q. apply (Hcont s); [set_solver|]. eapply list_elem_of_lookup_2.
           rewrite <- last_lookup. exact Eq.
        -- injection El as <- <-. apply Hpost. set_solver.
    + rewrite bool_decide_eq_false_2 by lia.
      rewrite hit_ships_miss; [|done]. unfold Board.with_ships_list. f_equal.
  - cbn [app hit_ships]. rewrite bool_decide_eq_false_2 by (apply Hpre; set_solver).
    rewrite IH; [|intros s' Hs'; apply Hpre; set_solver].
    rewrite <- !app_assoc. done.
Qed.

(** ** The loop over the fleet, by index and by list *)

Lemma set_state_ships_list column row value self :
  Board.ships_list (Board.set_state column row value self).1 = Board.ships_list self.
Proof.
  unfold Board.set_state. rewrite bind_run. unfold Board.get_dot, modify.
  destruct (py_get (Board.board self) row ≫= _); cbn; [|done].
  by destruct (py_index (Board.board self) row).
Qed.

Lemma mark_contour_ships_list l column row self :
  Board.ships_list (Board.mark_contour l column row self).1 = Board.ships_list self.
Proof.
  revert column row self. induction l as [|[c r] l IH]; intros column row self; [done|].
  cbn [Board.mark_contour]. rewrite bind_run.
  pose proof (set_state_ships_list c r missed self) as Hs.
  destruct (Board.set_state c r missed self) as [self1 [[]|e]]; cbn [fst] in *.
  - by rewrite IH.
  - done.
Qed.

Lemma hit_ships_iterator order fuel done todo column row self :
  Board.ships_list self = done ++ todo -> (length todo <= fuel)%nat ->
  Board.iterate_ships order fuel (length done) column row self =
  hit_ships order done todo column row self.
Proof.
  revert done todo column row self.
  induction fuel as [|fuel IH]; intros done todo column row self Hl Hfuel.
  - destruct todo; [done|simpl in Hfuel; lia].
  - cbn [Board.iterate_ships]. rewrite bind_run. unfold gets at 1. rewrite Hl.
    destruct todo as [|i rest].
    + rewrite lookup_ge_None_2 by (rewrite length_app; simpl; lia). done.
    + rewrite list_lookup_middle by done. cbn [hit_ships].
      assert (Hnext : forall x, S (length done) = length (done ++ [x])).
      { intros x. rewrite length_app. simpl. lia. }
      simpl in Hfuel.
      destruct (bool_decide_reflect ((column, row) ∈ Ship.get_dots i)) as [Hpi|Hpi].
      * rewrite !bind_run. unfold lift.
        destruct (Ship.reduce_health i) as [i'|e]; [|done].
        rewrite !bind_run. unfold modify at 1 3. rewrite Hl.
        assert (Hins : <[length done := i']> (done ++ i :: rest) = done ++ i' :: rest).
        { replace (length done) with (length done + 0)%nat by lia.
          by rewrite insert_app_r. }
        rewrite Hins.
        destruct (bool_decide_reflect (Ship.health i' = 0)) as [H0|H0].
        -- rewrite !bind_run.
           pose proof (mark_contour_ships_list (Board.contour order i') column row
                         (Board.with_ships_list self (done ++ i' :: rest))) as Hm.
           destruct (Board.mark_contour (Board.contour order i') column row
                       (Board.with_ships_list self (done ++ i' :: rest)))
             as [self1 [[c' r']|e]]; [|done].
           cbn [fst Board.with_ships_list Board.ships_list] in Hm.
           rewrite !bind_run. unfold modify at 1 2. rewrite Hm.
           rewrite delete_middle. destruct rest as [|j rest'].
           ++ destruct fuel as [|fuel']; [done|].
              cbn [Board.iterate_ships]. rewrite bind_run. unfold gets at 1.
              cbn [Board.with_ships_list Board.ships_list].
              rewrite lookup_ge_None_2 by (rewrite length_app; simpl; lia). done.
           ++ rewrite (Hnext j). apply IH.
              ** cbn [Board.with_ships_list Board.ships_list]. by rewrite <- app_assoc.
              ** simpl in Hfuel. lia.
        -- rewrite (Hnext i'). apply IH.
           ++ cbn [Board.with_ships_list Board.ships_list]. by rewrite <- app_assoc.
           ++ lia.
      * rewrite (Hnext i). apply IH.
        -- rewrite Hl. by rewrite <- app_assoc.
        -- lia.
Qed.

Lemma get_state_wf self column row st :
  board_wf self -> in_board (column, row) = true ->
  state_at self (column, row) = Some st ->
  Board.get_state column row self = (self, Return st).
Proof.
  intros Hwf Hp Hst. destruct (Hwf _ Hp) as [st' Hd].
  unfold state_at in Hst. rewrite Hd in Hst. injection Hst as <-.
  destruct (in_board_nonneg _ Hp) as [Hc Hr].
  destruct (dot_at_inv _ _ _ Hc Hr Hd) as (rw & Hrw & Hcell).
  unfold Board.get_state. rewrite bind_run.
  rewrite (get_dot_intro self column row rw _ Hc Hr Hrw Hcell). done.
Qed.

Lemma state_at_is_Some self p :
  board_wf self -> in_board p = true -> exists st, state_at self p = Some st.
Proof. intros Hwf Hp. destruct (Hwf p Hp) as [st H]. exists st. unfold state_at. by rewrite H. Qed.

Lemma shot_outside order self column row :
  in_board (column, row) = false ->
  Board.shot order column row self = (self, Raise (BoardOutException shot_outside_message)).
Proof. unfold in_board, Board.shot. simpl. by intros ->. Qed.

Lemma shot_repeat order self column row :
  board_wf self -> in_board (column, row) = true ->
  state_at self (column, row) = Some damaged \/ state_at self (column, row) = Some missed ->
  Board.shot order column row self =
  (self, Raise (IncorrectParametersException shot_repeat_message)).
Proof.
  intros Hwf Hp Hst. unfold Board.shot. unfold in_board in Hp. simpl in Hp. rewrite Hp.
  rewrite bind_run.
  destruct Hst as [Hst|Hst]; rewrite (get_state_wf self column row _ Hwf Hp Hst); done.
Qed.

Lemma shot_hidden order self column row :
  board_wf self -> in_board (column, row) = true ->
  state_at self (column, row) = Some hidden ->
  Board.shot order column row self = (write self (column, row) missed, Return false).
Proof.
  intros Hwf Hp Hst. unfold Board.shot. pose proof Hp as Hp'.
  unfold in_board in Hp'. simpl in Hp'. rewrite Hp'.
  rewrite bind_run, (get_state_wf self column row _ Hwf Hp Hst).
  rewrite bind_run.
  destruct (set_state_wf self (column, row) missed Hwf Hp) as (H0 & _).
  cbn [fst snd] in H0. rewrite H0. done.
Qed.

Lemma shot_undamaged order self column row :
  board_wf self -> in_board (column, row) = true ->
  state_at self (column, row) = Some undamaged ->
  Board.shot order column row self =
  match hit_ships order [] (Board.ships_list self) column row
          (write self (column, row) damaged) with
  | (s', Return _) => (s', Return true)
  | (s', Raise e) => (s', Raise e)
  end.
Proof.
  intros Hwf Hp Hst. unfold Board.shot. pose proof Hp as Hp'.
  unfold in_board in Hp'. simpl in Hp'. rewrite Hp'.
  rewrite bind_run, (get_state_wf self column row _ Hwf Hp Hst).
  rewrite bind_run.
  destruct (set_state_wf self (column, row) damaged Hwf Hp) as (H0 & H1 & _).
  cbn [fst snd] in H0. rewrite H0. rewrite bind_run. unfold gets at 1.
  rewrite H1. rewrite bind_run.
  rewrite (hit_ships_iterator order _ [] (Board.ships_list self)) by done.
  destruct (hit_ships order [] (Board.ships_list self) column row
              (write self (column, row) damaged)) as [s' [[]|e]]; done.
Qed.

(** ** The adjacency invariant on lists *)

Lemma separated_ext order s1 s2 s1' s2' :
  Ship.get_dots s1' = Ship.get_dots s1 -> Ship.get_dots s2' = Ship.get_dots s2 ->
  separated order s1 s2 -> separated order s1' s2'.
Proof.
  intros E1 E2 H p Hp. rewrite E1 in Hp. destruct (H p Hp) as [H1 H2].
  rewrite E2. split; [done|]. intros Hc. apply H2.
  apply elem_of_contour. apply elem_of_contour in Hc. by rewrite <- E2.
Qed.

Lemma fleet_separated_app order l1 l2 :
  fleet_separated order (l1 ++ l2) <->
  fleet_separated order l1 /\ fleet_separated order l2 /\
  forall a b, a ∈ l1 -> b ∈ l2 -> separated order a b /\ separated order b a.
Proof.
  unfold fleet_separated. split.
  - intros H. split; [|split].
    + intros i j s1 s2 Hij H1 H2. apply (H i j); [done| |]; by apply lookup_app_l_Some.
    + intros i j s1 s2 Hij H1 H2. apply (H (length l1 + i)%nat (length l1 + j)%nat); [lia| |];
        rewrite lookup_app_r by lia; rewrite Nat.add_comm, Nat.add_sub; done.
    + intros a b Ha Hb.
      apply list_elem_of_lookup in Ha as [i Hi]. apply list_elem_of_lookup in Hb as [j Hj].
      pose proof (lookup_lt_Some _ _ _ Hi) as Hlt.
      assert (Hj' : (l1 ++ l2) !! (length l1 + j)%nat = Some b).
      { rewrite lookup_app_r by lia. by rewrite Nat.add_comm, Nat.add_sub. }
      assert (Hi' : (l1 ++ l2) !! i = Some a) by (by apply lookup_app_l_Some).
      split; [apply (H i (length l1 + j)%nat)|apply (H (length l1 + j)%nat i)];
        (done || lia).
  - intros (H1 & H2 & H3) i j s1 s2 Hij Hi Hj.
    apply lookup_app_Some in Hi as [Hi|[Hil Hi]]; apply lookup_app_Some in Hj as [Hj|[Hjl Hj]].
    + by apply (H1 i j).
    + apply (H3 s1 s2); eapply list_elem_of_lookup_2; eauto.
    + apply (H3 s2 s1); eapply list_elem_of_lookup_2; eauto.
    + apply (H2 (i - length l1)%nat (j - length l1)%nat); [lia|done|done].
Qed.

Lemma fleet_separated_singleton order s : fleet_separated order [s].
Proof.
  intros i j s1 s2 Hij Hi Hj. apply lookup_lt_Some in Hi, Hj. simpl in *. lia.
Qed.

Lemma fleet_separated_nil order : fleet_separated order [].
Proof. intros i j s1 s2 _ Hi. done. Qed.

Lemma fleet_separated_split order pre i post :
  fleet_separated order (pre ++ i :: post) ->
  fleet_separated order (pre ++ post) /\
  (forall s, s ∈ pre ++ post -> separated order i s /\ separated order s i) /\
  (forall i', Ship.get_dots i' = Ship.get_dots i -> fleet_separated order (pre ++ i' :: post)).
Proof.
  intros H. apply fleet_separated_app in H as (H1 & H2 & H3).
  change (i :: post) with ([i] ++ post) in H2, H3.
  apply fleet_separated_app in H2 as (_ & H2 & H4).
  assert (H5 : forall s, s ∈ pre ++ post -> separated order i s /\ separated order s i).
  { intros s Hs. apply elem_of_app in Hs as [Hs|Hs].
    - destruct (H3 s i Hs); [set_solver|done].
    - apply H4; set_solver. }
  split; [|split].
  - apply fleet_separated_app. split; [done|]. split; [done|].
    intros a b Ha Hb. apply H3; set_solver.
  - exact H5.
  - intros i' Ei. apply fleet_separated_app. split; [done|]. split.
    + change (i' :: post) with ([i'] ++ post). apply fleet_separated_app.
      split; [apply fleet_separated_singleton|]. split; [done|].
      intros a b Ha Hb. apply list_elem_of_singleton in Ha as ->.
      destruct (H4 i b); [set_solver|done|].
      split; eapply separated_ext; eauto.
    + intros a b Ha Hb. apply elem_of_cons in Hb as [->|Hb].
      * destruct (H3 a i Ha); [set_solver|]. split; eapply separated_ext; eauto.
      * apply H3; set_solver.
Qed.

Lemma adjacent_sym p q : adjacent p q -> adjacent q p.
Proof. unfold adjacent. lia. Qed.

(** A candidate that is not blocked is separated from every ship of the
    fleet, both ways. *)
Lemma not_blocked_separated order self ship s :
  (forall p, p ∈ Ship.get_dots ship -> in_board p = true) ->
  ~ blocked order self ship -> s ∈ Board.ships_list self ->
  separated order ship s /\ separated order s ship.
Proof.
  intros Hin Hb Hs.
  assert (H1 : separated order ship s).
  { intros p Hp. split; intros Hq; apply Hb; exists p; (split; [done|]);
      apply elem_of_exclusion; exists s; auto. }
  split; [done|]. intros q Hq. split.
  - intros Hq'. by destruct (H1 q Hq').
  - intros Hc. apply elem_of_contour in Hc as (_ & Hn & p & Hp & Hadj).
    destruct (H1 p Hp) as [Hp1 Hp2]. apply Hp2. apply elem_of_contour.
    split; [by apply Hin|]. split; [done|]. exists q. split; [done|]. by apply adjacent_sym.
Qed.

(** ** The outcomes of add_ship and shot *)

Lemma add_ship_cases order self ship :
  board_wf self -> (forall p, p ∈ Ship.get_dots ship -> in_board p = true) ->
  add_ship_result order self ship (Board.add_ship order ship self).
Proof.
  intros Hwf Hin.
  destruct (decide (Exists (fun p => p ∈ Board.occupied_dots order (Board.ships_list self))
                           (Ship.get_dots ship))) as [Hb|Hb];
    rewrite <- blocked_Exists in Hb.
  - rewrite add_ship_blocked by done. by constructor.
  - destruct (decide (Ship.length ship ∈ Board.ship_length_list self)) as [Hl|Hl].
    + rewrite add_ship_ok by done. by constructor.
    + rewrite add_ship_no_length by done. by constructor.
Qed.

Lemma shot_cases order self column row :
  inv order self ->
  shot_result order self column row (Board.shot order column row self).
Proof.
  intros (Hwf & Hsep & _).
  destruct (in_board (column, row)) eqn:Hp.
  2:{ rewrite shot_outside by done. by constructor. }
  destruct (state_at_is_Some self _ Hwf Hp) as [st Hst]. destruct st.
  - rewrite shot_undamaged by done.
    destruct (set_state_wf self (column, row) damaged Hwf Hp) as (_ & H1 & H2 & H3 & _).
    destruct (decide (Exists (fun s => (column, row) ∈ Ship.get_dots s) (Board.ships_list self)))
      as [Hex|Hex].
    + apply Exists_exists in Hex as (i & Hi & Hpi).
      apply list_elem_of_split in Hi as (pre & post & Hsplit).
      rewrite Hsplit in Hsep.
      destruct (fleet_separated_split _ _ _ _ Hsep) as (_ & Hoth & _).
      rewrite Hsplit.
      rewrite (hit_ships_hit order [] pre i post column row); try done.
      * rewrite H2. destruct (0 <? Ship.health i) eqn:Hh.
        -- case_bool_decide as Hh1.
           ++ by apply (shot_is_sink _ _ _ _ pre i post).
           ++ apply (shot_is_hit _ _ _ _ pre i post); try done. lia.
        -- apply (shot_is_fatal _ _ _ _ pre i post); try done. lia.
      * intros s Hs Hq. destruct (Hoth s) as [Ho _]; [set_solver|]. by destruct (Ho _ Hpi).
      * intros s Hs Hq. destruct (Hoth s) as [Ho _]; [set_solver|]. by destruct (Ho _ Hpi).
      * intros s q Hs Hq Hq'. destruct (Hoth s) as [_ Ho]; [set_solver|]. by destruct (Ho _ Hq').
    + rewrite hit_ships_miss.
      * apply shot_is_stray; try done. intros s Hs Hq. apply Hex, Exists_exists. eauto.
      * intros s Hs Hq. apply Hex, Exists_exists. eauto.
  - rewrite shot_repeat by auto. eapply shot_is_repeat; eauto.
  - rewrite shot_repeat by auto. eapply shot_is_repeat; eauto.
  - rewrite shot_hidden by done. by constructor.
Qed.

(** ** The general invariant *)

Lemma Board_init_spec b :
  Board.init = Return b ->
  board_wf b /\ Board.ships_list b = [] /\ Board.ship_length_list b = [3; 2; 2; 1; 1; 1; 1].
Proof.
  intros H. vm_compute in H. injection H as <-. split; [|done].
  intros [c r] Hp. apply in_board_true in Hp. simpl in Hp.
  assert (Hc : c = 1 \/ c = 2 \/ c = 3 \/ c = 4 \/ c = 5 \/ c = 6) by lia.
  assert (Hr : r = 1 \/ r = 2 \/ r = 3 \/ r = 4 \/ r = 5 \/ r = 6) by lia.
  exists hidden.
  destruct Hc as [->|[->|[->|[->|[->| ->]]]]];
    destruct Hr as [->|[->|[->|[->|[->| ->]]]]]; reflexivity.
Qed.

Lemma Board_init_returns : exists b, Board.init = Return b.
Proof. eexists. vm_compute. reflexivity. Qed.

Lemma inv_init order b : Board.init = Return b -> inv order b.
Proof.
  intros H. destruct (Board_init_spec b H) as (Hwf & Hs & _).
  split; [done|]. rewrite Hs. split; [apply fleet_separated_nil|]. set_solver.
Qed.

Lemma ship_wf_ext s s' :
  Ship.length s' = Ship.length s -> Ship.direction s' = Ship.direction s ->
  Ship.get_dots s' = Ship.get_dots s -> ship_wf s -> ship_wf s'.
Proof. unfold ship_wf. intros -> -> ->. done. Qed.

Lemma inv_add_ship order self ship :
  inv order self -> ship_wf ship -> inv order (Board.add_ship order ship self).1.
Proof.
  intros (Hwf & Hsep & Hships) (Hl & Hd & Hin).
  destruct (add_ship_cases order self ship Hwf Hin) as [Hb|Hb Hlen|Hb Hlen];
    cbn [fst]; [done|done|].
  split; [|split].
  - apply board_wf_indep. by apply writes_wf.
  - cbn [Board.ships_list]. apply fleet_separated_app.
    split; [done|]. split; [apply fleet_separated_singleton|].
    intros a b Ha Hb'. apply list_elem_of_singleton in Hb' as ->.
    destruct (not_blocked_separated order self ship a Hin Hb Ha) as [H1 H2].
    split; eapply separated_ext; eauto.
  - cbn [Board.ships_list]. intros s Hs. apply elem_of_app in Hs as [Hs|Hs]; [by apply Hships|].
    apply list_elem_of_singleton in Hs as ->. by apply (ship_wf_ext ship).
Qed.

Lemma inv_shot order self column row :
  inv order self -> inv order (Board.shot order column row self).1.
Proof.
  intros Hinv. pose proof Hinv as (Hwf & Hsep & Hships).
  destruct (shot_cases order self column row Hinv)
    as [Hp|st Hp Hst Hst'|Hp Hst|Hp Hst Hno|pre i post Hp Hst Hsplit Hpi Hh
       |pre i post Hp Hst Hsplit Hpi Hh|pre i post Hp Hst Hsplit Hpi Hh]; cbn [fst]; try done.
  - destruct (set_state_wf self (column, row) missed Hwf Hp) as (_ & H1 & _ & H3 & _).
    split; [done|]. by rewrite H1.
  - destruct (set_state_wf self (column, row) damaged Hwf Hp) as (_ & H1 & _ & H3 & _).
    split; [done|]. by rewrite H1.
  - destruct (set_state_wf self (column, row) damaged Hwf Hp) as (_ & H1 & _ & H3 & _).
    split; [done|]. by rewrite H1.
  - destruct (set_state_wf self (column, row) damaged Hwf Hp) as (_ & H1 & _ & H3 & _).
    rewrite Hsplit in Hsep, Hships.
    destruct (fleet_separated_split _ _ _ _ Hsep) as (_ & _ & Hrep).
    split; [|split].
    + unfold Board.with_ships_list. by apply board_wf_indep.
    + cbn [Board.with_ships_list Board.ships_list]. by apply Hrep.
    + cbn [Board.with_ships_list Board.ships_list]. intros s Hs.
      apply elem_of_app in Hs as [Hs|Hs]; [apply Hships; set_solver|].
      apply elem_of_cons in Hs as [->|Hs]; [|apply Hships; set_solver].
      apply (ship_wf_ext i); try done. apply Hships. set_solver.
  - destruct (set_state_wf self (column, row) damaged Hwf Hp) as (_ & H1 & _ & H3 & _).
    rewrite Hsplit in Hsep, Hships.
    destruct (fleet_separated_split _ _ _ _ Hsep) as (Hdel & _ & _).
    split; [|split].
    + apply board_wf_indep. apply writes_wf; [done|].
      intros p Hc. by apply elem_of_contour in Hc as [? _].
    + done.
    + cbn [Board.ships_list]. intros s Hs. apply Hships. set_solver.
Qed.

Lemma history_inv order allowed n self : history order allowed n self -> inv order self.
Proof.
  induction 1 as [b Hb|n self ship self' _ IH Hwf _ Hadd
                 |n self ship self' e _ IH Hwf _ Hadd|n self c r _ IH].
  - by apply inv_init.
  - pose proof (inv_add_ship order self ship IH Hwf) as H. by rewrite Hadd in H.
  - pose proof (inv_add_ship order self ship IH Hwf) as H. by rewrite Hadd in H.
  - by apply inv_shot.
Qed.

Lemma history_weaken order (allowed allowed' : Ship.t -> Prop) n self :
  (forall s, allowed s -> allowed' s) ->
  history order allowed n self -> history order allowed' n self.
Proof.
  intros Hsub. induction 1; [by constructor|eapply history_add_ship; eauto
                            |eapply history_add_ship_raise; eauto|by constructor].
Qed.

(** ** The health invariant *)

Lemma state_at_write self p value q :
  board_wf self -> in_board p = true -> in_board q = true ->
  state_at (write self p value) q = if decide (q = p) then Some value else state_at self q.
Proof.
  intros Hwf Hp Hq. destruct (set_state_wf self p value Hwf Hp) as (_ & _ & _ & _ & H4 & H5).
  case_decide as E; [by subst|]. unfold state_at. by rewrite H5.
Qed.




Lemma length_get_dots s :
  Ship.direction s ∈ Ship.DIRECTION_CHOICES ->
  length (Ship.get_dots s) = Z.to_nat (Ship.length s).
Proof.
  intros Hd. rewrite get_dots_derived_run by done. unfold derived_run.
  by rewrite length_fmap, length_seqZ.
Qed.






(** ** Runs and placement sequences are histories *)

(** A ship fresh from the constructor is handed to [add_ship]. *)
Lemma history_add_init order (allowed : Ship.t -> Prop) n self
    length direction start_point health ship self' :
  history order allowed n self ->
  Ship.init length direction start_point health = Return ship ->
  allowed ship ->
  (forall r, Board.add_ship order ship self = (self', r) ->
     history order allowed (match r with Return _ => S n | Raise _ => n end) self').
Proof.
  intros Hhist Hinit Hal r Hadd. apply Ship_init_Return in Hinit as [_ Hwf].
  destruct r as [[]|e].
  - by eapply history_add_ship.
  - by eapply history_add_ship_raise.
Qed.

(** Left to default, the health is the length. *)
Lemma Ship_init_full_health length direction start_point ship :
  Ship.init length direction start_point None = Return ship -> full_health ship.
Proof. intros H. apply Ship_init_Return in H as [-> _]. reflexivity. Qed.

Lemma perform_history order allowed n self c :
  (forall l d sp h ship, c = AddShip l d sp h -> Ship.init l d sp h = Return ship ->
     allowed ship) ->
  history order allowed n self ->
  exists n', history order allowed n' (perform order c self).
Proof.
  intros Hal H. destruct c as [l d sp h|column row]; simpl.
  - destruct (Ship.init l d sp h) as [ship|e] eqn:E; [|eauto].
    destruct (Board.add_ship order ship self) as [self' r] eqn:E'; simpl.
    eexists. eapply (history_add_init _ _ _ _ _ _ _ _ _ _ H E); [by eapply Hal|exact E'].
  - exists n. by constructor.
Qed.

Lemma run_history order allowed calls b :
  (forall l d sp h ship, AddShip l d sp h ∈ calls -> Ship.init l d sp h = Return ship ->
     allowed ship) ->
  Board.init = Return b ->
  exists n, history order allowed n (run order calls b).
Proof.
  intros Hal Hb. induction calls as [|c calls IH] using rev_ind.
  - exists 0%nat. by constructor.
  - destruct IH as [n IH];
      [intros l d sp h ship Hin; apply (Hal l d sp); set_solver|].
    unfold run. rewrite foldl_app. simpl.
    eapply perform_history; [|exact IH].
    intros l d sp h ship ->. apply (Hal l d sp). set_solver.
Qed.

Lemma placements_history order placed self :
  placements order placed self -> history order any_ship (length placed) self.
Proof.
  induction 1 as [b Hb|placed self ship self' _ IH Hwf Hadd].
  - by constructor.
  - rewrite length_app, Nat.add_1_r. by eapply history_add_ship.
Qed.

(** A returning [add_ship] is the third outcome. *)
Lemma add_ship_Return order self ship self' :
  board_wf self -> (forall p, p ∈ Ship.get_dots ship -> in_board p = true) ->
  Board.add_ship order ship self = (self', Return tt) ->
  ~ blocked order self ship /\ Ship.length ship ∈ Board.ship_length_list self /\
  self' = Board.mk (Board.board (writes self (Ship.get_dots ship) undamaged))
                   (Board.ships_list self ++ [bound ship])
                   (list_remove (Ship.length ship) (Board.ship_length_list self)).
Proof.
  intros Hwf Hin Hadd.
  pose proof (add_ship_cases order self ship Hwf Hin) as Hc. rewrite Hadd in Hc.
  inversion Hc; subst. done.
Qed.

Lemma add_ship_Raise order self ship self' e :
  board_wf self -> (forall p, p ∈ Ship.get_dots ship -> in_board p = true) ->
  Board.add_ship order ship self = (self', Raise e) ->
  self' = self /\
  ((blocked order self ship /\ e = IncorrectParametersException add_ship_blocked_message) \/
   (~ blocked order self ship /\ (Ship.length ship ∉ Board.ship_length_list self) /\
    e = IncorrectParametersException add_ship_length_message)).
Proof.
  intros Hwf Hin Hadd.
  pose proof (add_ship_cases order self ship Hwf Hin) as Hc. rewrite Hadd in Hc.
  inversion Hc; subst; auto.
Qed.

Lemma placements_ships_list order placed self :
  placements order placed self -> Board.ships_list self = bound <$> placed.
Proof.
  induction 1 as [b Hb|placed self ship self' Hpl IH (_ & _ & Hin) Hadd].
  - by destruct (Board_init_spec b Hb) as (_ & -> & _).
  - pose proof (history_inv _ _ _ _ (placements_history _ _ _ Hpl)) as (Hwf & _).
    destruct (add_ship_Return _ _ _ _ Hwf Hin Hadd) as (_ & _ & ->).
    cbn [Board.ships_list]. by rewrite IH, fmap_app.
Qed.

(** Closes a decidable goal on concrete data by evaluation. *)
Ltac by_compute := apply (bool_decide_unpack _); vm_compute; exact I.

(** ** A shot at a cell of a ship of the fleet *)

Lemma shot_owner order self column row pre i post :
  inv order self ->
  Board.ships_list self = pre ++ i :: post ->
  (column, row) ∈ Ship.get_dots i ->
  state_at self (column, row) = Some undamaged ->
  Board.shot order column row self =
  if 0 <? Ship.health i then
    if bool_decide (Ship.health i = 1) then
      (Board.mk (Board.board (writes (write self (column, row) damaged)
                                (Board.contour order i) missed))
                (pre ++ post) (Board.ship_length_list self), Return true)
    else
      (Board.with_ships_list (write self (column, row) damaged)
         (pre ++ Ship.with_health i (Ship.health i - 1) :: post), Return true)
  else (write self (column, row) damaged, Raise (GameplayException health_message)).
Proof.
  intros (Hwf & Hsep & Hships) Hsplit Hpi Hst.
  assert (Hp : in_board (column, row) = true).
  { destruct (Hships i) as (_ & _ & Hin); [rewrite Hsplit; set_solver|]. by apply Hin. }
  rewrite shot_undamaged by done.
  destruct (set_state_wf self (column, row) damaged Hwf Hp) as (_ & H1 & H2 & H3 & _).
  rewrite Hsplit in Hsep.
  destruct (fleet_separated_split _ _ _ _ Hsep) as (_ & Hoth & _).
  rewrite Hsplit.
  rewrite (hit_ships_hit order [] pre i post column row); try done.
  - rewrite H2. destruct (0 <? Ship.health i); [|done]. by case_bool_decide.
  - intros s Hs Hq. destruct (Hoth s) as [Ho _]; [set_solver|]. by destruct (Ho _ Hpi).
  - intros s Hs Hq. destruct (Hoth s) as [Ho _]; [set_solver|]. by destruct (Ho _ Hpi).
  - intros s q Hs Hq Hq'. destruct (Hoth s) as [_ Ho]; [set_solver|]. by destruct (Ho _ Hq').
Qed.

(** The board after the shot that sinks ship [i]. *)
Lemma state_at_sunk order self column row i q :
  board_wf self -> in_board (column, row) = true -> in_board q = true ->
  state_at (writes (write self (column, row) damaged) (Board.contour order i) missed) q =
  if decide (q ∈ Board.contour order i) then Some missed
  else if decide (q = (column, row)) then Some damaged
  else state_at self q.
Proof.
  intros Hwf Hp Hq.
  destruct (set_state_wf self (column, row) damaged Hwf Hp) as (_ & _ & _ & Hwf1 & _).
  rewrite state_at_writes; [|done|intros p Hc; by apply elem_of_contour in Hc as [? _]|done].
  case_decide; [done|]. by apply state_at_write.
Qed.

(** ** The buffer in the words of the specification *)

Lemma elem_of_neighbourhood8 p q : p ∈ neighbourhood8 q <-> adjacent p q /\ p <> q.
Proof.
  unfold neighbourhood8, adjacent. rewrite elem_of_list_to_set.
  destruct p as [a b], q as [c d]. cbn [fst snd]. split.
  - intros H. repeat (apply elem_of_cons in H as [[= -> ->]|H]);
      [..|by apply elem_of_nil in H]; (split; [lia|intros [=]; lia]).
  - intros [[H1 H2] Hne].
    assert (Ha : a = c - 1 \/ a = c \/ a = c + 1) by lia.
    assert (Hb : b = d - 1 \/ b = d \/ b = d + 1) by lia.
    destruct Ha as [->|[->| ->]]; destruct Hb as [->|[->| ->]];
      try done; repeat ((by left) || right).
Qed.

Lemma elem_of_spec_contour (s : Ship.t) p :
  p ∈ spec_contour s <->
  in_board p = true /\ (p ∉ Ship.get_dots s) /\
  exists q, q ∈ Ship.get_dots s /\ adjacent p q.
Proof.
  unfold spec_contour. rewrite elem_of_filter, elem_of_difference, elem_of_union_list.
  rewrite elem_of_list_to_set. split.
  - intros (Hb & (X & HX & Hp) & Hn). split; [done|]. split; [done|].
    apply list_elem_of_fmap in HX as (q & -> & Hq).
    apply elem_of_neighbourhood8 in Hp as [Hadj _]. eauto.
  - intros (Hb & Hn & q & Hq & Hadj). split; [done|]. split; [|done].
    exists (neighbourhood8 q). split; [apply list_elem_of_fmap; eauto|].
    apply elem_of_neighbourhood8. split; [done|]. by intros ->.
Qed.

Lemma contour_spec order (s : Ship.t) p :
  p ∈ Board.contour order s <-> p ∈ spec_contour s.
Proof. by rewrite elem_of_contour, elem_of_spec_contour. Qed.

Lemma blocked_adjacent order self ship :
  (forall p, p ∈ Ship.get_dots ship -> in_board p = true) ->
  blocked order self ship <->
  exists s p q, s ∈ Board.ships_list self /\ p ∈ Ship.get_dots ship /\
                q ∈ Ship.get_dots s /\ adjacent p q.
Proof.
  intros Hin. unfold blocked. setoid_rewrite elem_of_exclusion. split.
  - intros (p & Hp & s & Hs & [Hq|Hq]).
    + exists s, p, p. repeat (split; [done|]). unfold adjacent. lia.
    + apply elem_of_contour in Hq as (_ & _ & q & Hq & Hadj). by exists s, p, q.
  - intros (s & p & q & Hs & Hp & Hq & Hadj). exists p. split; [done|]. exists s.
    split; [done|]. destruct (decide (p ∈ Ship.get_dots s)); [by left|right].
    apply elem_of_contour. split; [by apply Hin|]. split; [done|]. by exists q.
Qed.

Lemma spec_blocked_blocked order self ship :
  spec_blocked self ship <-> blocked order self ship.
Proof.
  unfold spec_blocked, blocked. setoid_rewrite elem_of_exclusion. split.
  - intros (p & s & Hp & Hs & Hq). exists p. split; [done|]. exists s. split; [done|].
    by rewrite contour_spec.
  - intros (p & Hp & s & Hs & Hq). exists p, s. by rewrite <- (contour_spec order).
Qed.

(** * Main theorems *)

(** C1. On a board reached by calls of [add_ship] that all returned, the
    fleet is the list of the ships placed, and any two of them keep the
    adjacency rule: no coordinate of one is a coordinate of the other, none
    lies in the buffer of the other -- the 8-neighbourhoods of its cells,
    minus its cells, clipped to the grid -- and no cell of one touches a
    cell of the other, by a side or by a corner.  On any board the program
    can reach, [add_ship] raises IncorrectParametersException (its "at least
    1 empty dot between ships" message), leaving the board as it was,
    exactly when a coordinate of the candidate is occupied by a ship of the
    fleet or lies in the buffer of one, and returns only when none does; and
    no two ships of the fleet have cells that touch, shots fired or not. *)
Theorem adjacency_invariant (order : set_order) :
  (forall placed self, placements order placed self ->
     Board.ships_list self = bound <$> placed /\
     forall i j s1 s2, i <> j -> placed !! i = Some s1 -> placed !! j = Some s2 ->
       (forall p, p ∈ Ship.get_dots s1 ->
          (p ∉ Ship.get_dots s2) /\ (p ∉ spec_contour s2)) /\
       (forall p q, p ∈ Ship.get_dots s1 -> q ∈ Ship.get_dots s2 -> ~ adjacent p q)) /\
  (forall n self ship,
     history order any_ship n self -> ship_wf ship ->
     (spec_blocked self ship <->
      Board.add_ship order ship self =
      (self, Raise (IncorrectParametersException add_ship_blocked_message))) /\
     (forall self', Board.add_ship order ship self = (self', Return tt) ->
      ~ spec_blocked self ship)) /\
  (forall n self i j s1 s2,
     history order any_ship n self -> i <> j ->
     Board.ships_list self !! i = Some s1 -> Board.ships_list self !! j = Some s2 ->
     forall p q, p ∈ Ship.get_dots s1 -> q ∈ Ship.get_dots s2 -> ~ adjacent p q).
Proof.
  split; [|split].
  - intros placed self Hpl.
    pose proof (placements_ships_list _ _ _ Hpl) as Hships.
    pose proof (history_inv _ _ _ _ (placements_history _ _ _ Hpl)) as (_ & Hsep & Hwf).
    split; [done|].
    rewrite Hships in Hsep, Hwf. intros i j s1 s2 Hij H1 H2.
    assert (Hs : separated order s1 s2).
    { apply (separated_ext order (bound s1) (bound s2)); [done|done|].
      apply (Hsep i j); [done| |]; rewrite list_lookup_fmap; by (rewrite H1 || rewrite H2). }
    assert (Hin : forall p, p ∈ Ship.get_dots s1 -> in_board p = true).
    { destruct (Hwf (bound s1)) as (_ & _ & Hin); [|done].
      apply list_elem_of_fmap. exists s1. split; [done|]. by eapply list_elem_of_lookup_2. }
    split.
    + intros p Hp. destruct (Hs p Hp) as [Hn Hc]. split; [done|].
      by rewrite <- (contour_spec order).
    + intros p q Hp Hq Hadj. destruct (Hs p Hp) as [Hn Hc]. apply Hc.
      apply elem_of_contour. split; [by apply Hin|]. split; [done|]. by exists q.
  - intros n self ship Hhist (_ & _ & Hin).
    pose proof (history_inv _ _ _ _ Hhist) as (Hwf & _).
    rewrite !(spec_blocked_blocked order). split; [split|].
    + apply add_ship_blocked.
    + intros Hadd. pose proof (add_ship_cases order self ship Hwf Hin) as Hc.
      rewrite Hadd in Hc. by inversion Hc; subst.
    + intros self' Hadd. rewrite (spec_blocked_blocked order).
      by destruct (add_ship_Return _ _ _ _ Hwf Hin Hadd).
  - intros n self i j s1 s2 Hhist Hij H1 H2 p q Hp Hq Hadj.
    pose proof (history_inv _ _ _ _ Hhist) as (_ & Hsep & Hwf).
    destruct (Hsep i j s1 s2 Hij H1 H2 p Hp) as [Hn Hc]. apply Hc.
    apply elem_of_contour. split; [|split; [done|by exists q]].
    destruct (Hwf s1) as (_ & _ & Hin); [by eapply list_elem_of_lookup_2|]. by apply Hin.
Qed.

(** C2. On any board the program can reach, a shot at an undamaged cell of
    a ship of the fleet whose health is 1 returns [True]; afterwards every
    coordinate of the contour of that ship is ["missed"], the fleet is the
    former fleet without that ship -- the other ships in place, with the
    health they had -- and the cells of the other ships are in the state
    they were in.  In particular, with a ship of length 3 placed
    horizontally at (3, 2) on a new board, the shots at (3, 2), (4, 2) and
    (5, 2) return [True] and leave the ship with health 2, then 1, then 0;
    after the third the fleet is empty and the twelve cells around the ship
    are ["missed"]. *)
Theorem sinking_marks_contour (order : set_order) :
  (forall n self column row pre i post,
     history order any_ship n self ->
     Board.ships_list self = pre ++ i :: post ->
     (column, row) ∈ Ship.get_dots i ->
     state_at self (column, row) = Some undamaged ->
     Ship.health i = 1 ->
     exists self',
       Board.shot order column row self = (self', Return true) /\
       Ship.reduce_health i = Return (Ship.with_health i 0) /\
       Board.ships_list self' = pre ++ post /\
       Board.ship_length_list self' = Board.ship_length_list self /\
       (forall q, q ∈ Board.contour order i -> state_at self' q = Some missed) /\
       (forall s q, s ∈ pre ++ post -> q ∈ Ship.get_dots s ->
          state_at self' q = state_at self q)) /\
  (exists b0 ship b1 b2 b3 b4 i2 i3,
     Board.init = Return b0 /\
     Ship.init 3 "horizontal" (Dot.mk 3 2 hidden) None = Return ship /\
     Ship.get_dots ship = [(3, 2); (4, 2); (5, 2)] /\
     Board.add_ship order ship b0 = (b1, Return tt) /\
     Board.shot order 3 2 b1 = (b2, Return true) /\
     Board.ships_list b2 = [i2] /\ Ship.health i2 = 2 /\
     Board.shot order 4 2 b2 = (b3, Return true) /\
     Board.ships_list b3 = [i3] /\ Ship.health i3 = 1 /\
     Board.shot order 5 2 b3 = (b4, Return true) /\
     Ship.reduce_health i3 = Return (Ship.with_health i3 0) /\
     Board.ships_list b4 = [] /\
     forall q, q ∈ [(2, 1); (3, 1); (4, 1); (5, 1); (6, 1); (2, 2); (6, 2);
                    (2, 3); (3, 3); (4, 3); (5, 3); (6, 3)] ->
       q ∈ Board.contour order ship /\ state_at b4 q = Some missed).
Proof.
  assert (Hgen : forall n self column row pre i post,
     history order any_ship n self ->
     Board.ships_list self = pre ++ i :: post ->
     (column, row) ∈ Ship.get_dots i ->
     state_at self (column, row) = Some undamaged ->
     Ship.health i = 1 ->
     exists self',
       Board.shot order column row self = (self', Return true) /\
       Ship.reduce_health i = Return (Ship.with_health i 0) /\
       Board.ships_list self' = pre ++ post /\
       Board.ship_length_list self' = Board.ship_length_list self /\
       (forall q, q ∈ Board.contour order i -> state_at self' q = Some missed) /\
       (forall s q, s ∈ pre ++ post -> q ∈ Ship.get_dots s ->
          state_at self' q = state_at self q)).
  { intros n self column row pre i post Hhist Hsplit Hpi Hst Hh.
    pose proof (history_inv _ _ _ _ Hhist) as Hinv.
    pose proof Hinv as (Hwf & Hsep & Hships).
    assert (Hp : in_board (column, row) = true).
    { destruct (Hships i) as (_ & _ & Hin); [rewrite Hsplit; set_solver|]. by apply Hin. }
    rewrite (shot_owner order self column row pre i post) by done.
    rewrite Hh. simpl. eexists. split; [done|].
    split; [unfold Ship.reduce_health; by rewrite Hh|].
    split; [done|]. split; [done|]. split.
    - intros q Hq. rewrite state_at_indep, state_at_sunk; try done.
      + by rewrite decide_True.
      + by apply elem_of_contour in Hq as [? _].
    - intros s q Hs Hq. rewrite Hsplit in Hsep, Hships.
      destruct (fleet_separated_split _ _ _ _ Hsep) as (_ & Hoth & _).
      destruct (Hoth s Hs) as [Ho1 Ho2].
      rewrite state_at_indep, state_at_sunk; try done.
      + rewrite decide_False by (by destruct (Ho2 _ Hq)).
        rewrite decide_False; [done|]. intros ->. by destruct (Ho1 _ Hpi).
      + destruct (Hships s) as (_ & _ & Hin); [set_solver|]. by apply Hin. }
  split; [exact Hgen|].
  destruct Board_init_returns as [b0 Hb0].
  set (ship := Ship.mk 3 "horizontal" (Dot.mk 3 2 hidden) 3 []).
  assert (Hship : Ship.init 3 "horizontal" (Dot.mk 3 2 hidden) None = Return ship) by done.
  pose proof Hb0 as Hb0'. vm_compute in Hb0'. injection Hb0' as Eb0.
  destruct (Board.add_ship order ship b0) as [b1 r1] eqn:E1.
  assert (Hr1 : r1 = Return tt) by (rewrite <- Eb0 in E1; vm_compute in E1; congruence).
  subst r1.
  assert (H1 : history order any_ship 1 b1).
  { eapply (history_add_ship _ _ 0);
      [by constructor|exact (proj2 (Ship_init_Return _ _ _ _ _ Hship))|done|exact E1]. }
  destruct (Board.shot order 3 2 b1) as [b2 r2] eqn:E2.
  destruct (Board.shot order 4 2 b2) as [b3 r3] eqn:E3.
  assert (H2 : history order any_ship 1 b2).
  { replace b2 with (Board.shot order 3 2 b1).1 by (by rewrite E2). by constructor. }
  assert (H3 : history order any_ship 1 b3).
  { replace b3 with (Board.shot order 4 2 b2).1 by (by rewrite E3). by constructor. }
  rewrite <- Eb0 in E1. vm_compute in E1. injection E1 as E1.
  rewrite <- E1 in E2. vm_compute in E2. injection E2 as E2 Er2.
  rewrite <- E2 in E3. vm_compute in E3. injection E3 as E3 Er3.
  set (i3 := Ship.mk 3 "horizontal" (Dot.mk 3 2 hidden) 1 [(3, 2); (4, 2); (5, 2)]).
  destruct (Hgen 1%nat b3 5 2 [] i3 [] H3) as (b4 & E4 & Hred & Hs4 & _ & Hc4 & _);
    [by rewrite <- E3|by_compute|by rewrite <- E3|done|].
  exists b0, ship, b1, b2, b3, b4,
    (Ship.mk 3 "horizontal" (Dot.mk 3 2 hidden) 2 [(3, 2); (4, 2); (5, 2)]), i3.
  repeat (split; [first [done | by subst]|]).
  intros q Hq.
  assert (Hqc : q ∈ Board.contour order i3).
  { apply elem_of_contour.
    repeat (apply elem_of_cons in Hq as [->|Hq]);
      [..|by apply elem_of_nil in Hq];
      (split; [done|]); (split; [by_compute|]);
      first [exists (3, 2); split; [by_compute|unfold adjacent; simpl; lia]
            |exists (4, 2); split; [by_compute|unfold adjacent; simpl; lia]
            |exists (5, 2); split; [by_compute|unfold adjacent; simpl; lia]]. }
  split; [exact Hqc|]. by apply Hc4.
Qed.



(** C4, counterexample.  A shot that fails can leave the board
    changed: when the ship at (1, 1) was constructed with [health=0], the
    shot at (1, 1) marks the cell ["damaged"] and then raises
    GameplayException "Health can't get negative value". *)
Lemma failed_shot_changes_board :
  ~ exists order : set_order,
      forall calls b column row self' e,
        Board.init = Return b ->
        Board.shot order column row (run order calls b) = (self', Raise e) ->
        self' = run order calls b.
Proof.
  intros [order H]. destruct Board_init_returns as [b0 Hb0].
  set (calls := [AddShip 1 "horizontal" (Dot.mk 1 1 hidden) (Some 0)]).
  pose proof Hb0 as Hb0'. vm_compute in Hb0'. injection Hb0' as Eb0.
  destruct (Board.shot order 1 1 (run order calls b0)) as [b2 r2] eqn:E2.
  pose proof E2 as E2'. rewrite <- Eb0 in E2'. vm_compute in E2'. injection E2' as Eb2 Er2.
  subst r2. specialize (H calls b0 1 1 b2 _ Hb0 E2).
  rewrite <- Eb0, <- Eb2 in H. vm_compute in H. discriminate H.
Qed.

(** C4, amended.  On any board the program can reach: an [add_ship] that
    raises leaves the board as it was (the exception is
    IncorrectParametersException); a [shot] that raises BoardOutException
    or IncorrectParametersException leaves the board as it was; a [shot]
    that raises GameplayException -- the target is a cell of a ship of the
    fleet that has no health left -- has marked the target cell ["damaged"]
    and changed nothing else.  When every ship of the fleet has a health of
    at least 1, no shot raises GameplayException, and every shot that raises
    leaves the board as it was. *)
Theorem failure_leaves_board (order : set_order) :
  (forall n self ship self' e,
     history order any_ship n self -> ship_wf ship ->
     Board.add_ship order ship self = (self', Raise e) ->
     self' = self /\ exists msg, e = IncorrectParametersException msg) /\
  (forall n self column row self' e,
     history order any_ship n self ->
     Board.shot order column row self = (self', Raise e) ->
     (self' = self /\
      (e = BoardOutException shot_outside_message \/
       e = IncorrectParametersException shot_repeat_message)) \/
     (e = GameplayException health_message /\
      self' = write self (column, row) damaged /\
      state_at self (column, row) = Some undamaged /\
      state_at self' (column, row) = Some damaged /\
      exists s, s ∈ Board.ships_list self /\ (column, row) ∈ Ship.get_dots s /\
                Ship.health s <= 0)) /\
  (forall n self column row self' e,
     history order any_ship n self ->
     (forall s, s ∈ Board.ships_list self -> 1 <= Ship.health s) ->
     Board.shot order column row self = (self', Raise e) ->
     self' = self /\
     (e = BoardOutException shot_outside_message \/
      e = IncorrectParametersException shot_repeat_message)).
Proof.
  assert (Hshot : forall n self column row self' e,
     history order any_ship n self ->
     Board.shot order column row self = (self', Raise e) ->
     (self' = self /\
      (e = BoardOutException shot_outside_message \/
       e = IncorrectParametersException shot_repeat_message)) \/
     (e = GameplayException health_message /\
      self' = write self (column, row) damaged /\
      state_at self (column, row) = Some undamaged /\
      state_at self' (column, row) = Some damaged /\
      exists s, s ∈ Board.ships_list self /\ (column, row) ∈ Ship.get_dots s /\
                Ship.health s <= 0)).
  { intros n self column row self' e Hhist Hshot.
    pose proof (history_inv _ _ _ _ Hhist) as Hinv. pose proof Hinv as (Hwf & _).
    pose proof (shot_cases order self column row Hinv) as Hc. rewrite Hshot in Hc.
    inversion Hc as [Ht|st0 Ht Hst0 Hst0'|Ht Hst0|Ht Hst0 Hno|pre i post Ht Hst0 Hsplit Hpi Hhi
                    |pre i post Ht Hst0 Hsplit Hpi Hhi|pre i post Ht Hst0 Hsplit Hpi Hhi];
      subst; auto.
    right. repeat (split; [done|]). split.
    - rewrite state_at_write by done. by rewrite decide_True.
    - exists i. split; [rewrite Hsplit; set_solver|done]. }
  split; [|split].
  - intros n self ship self' e Hhist (_ & _ & Hin) Hadd.
    pose proof (history_inv _ _ _ _ Hhist) as (Hwf & _).
    destruct (add_ship_Raise _ _ _ _ _ Hwf Hin Hadd) as [-> [[_ ->]|(_ & _ & ->)]]; eauto.
  - exact Hshot.
  - intros n self column row self' e Hhist Hall Hs.
    destruct (Hshot n self column row self' e Hhist Hs)
      as [?|(_ & _ & _ & _ & s & Hin & _ & Hh)]; [done|].
    specialize (Hall s Hin). lia.
Qed.

(** C5. For every ship, the coordinates that [contour] returns are, as a
    set, the 8-neighbourhoods of the ship's coordinates, minus the ship's
    coordinates, minus the coordinates outside the 6 x 6 grid; each is listed
    once; none is a coordinate of the ship and none lies outside the grid;
    and the result is the same for two ships of the same length, direction
    and start coordinates.  [contour] takes the ship alone: no board and no
    other ship enters. *)
Theorem contour_is_buffer (order : set_order) (ship : Ship.t) :
  list_to_set (Board.contour order ship) = spec_contour ship /\
  NoDup (Board.contour order ship) /\
  (forall p, p ∈ Board.contour order ship ->
     (p ∉ Ship.get_dots ship) /\ in_board p = true) /\
  (forall ship',
     Ship.length ship' = Ship.length ship ->
     Ship.direction ship' = Ship.direction ship ->
     Dot.get_coords (Ship.start_point ship') = Dot.get_coords (Ship.start_point ship) ->
     Board.contour order ship' = Board.contour order ship).
Proof.
  split; [|split; [|split]].
  - apply set_eq. intros p. rewrite elem_of_list_to_set, elem_of_contour.
    unfold spec_contour. rewrite elem_of_filter, elem_of_difference, elem_of_union_list.
    rewrite elem_of_list_to_set. split.
    + intros (Hb & Hn & q & Hq & Hadj). split; [done|]. split; [|done].
      exists (neighbourhood8 q). split; [apply list_elem_of_fmap; eauto|].
      apply elem_of_neighbourhood8. split; [done|]. by intros ->.
    + intros (Hb & (X & HX & Hp) & Hn). split; [done|]. split; [done|].
      apply list_elem_of_fmap in HX as (q & -> & Hq).
      apply elem_of_neighbourhood8 in Hp as [Hadj _]. eauto.
  - apply NoDup_contour.
  - intros p Hp. by apply elem_of_contour in Hp as (? & ? & _).
  - intros ship' Hl Hd Hc.
    assert (E : Ship.get_dots ship' = Ship.get_dots ship).
    { unfold Ship.get_dots. unfold Dot.get_coords in Hc. injection Hc as -> ->.
      by rewrite Hl, Hd. }
    unfold Board.contour. by rewrite E.
Qed.

(** C7. With a length in 1..3 and one of the two directions, the
    construction of a ship raises BoardOutException exactly when some
    coordinate of the run -- the start point and the [length - 1] cells
    after it along the direction -- lies outside the 6 x 6 grid; otherwise
    it returns the ship, with the run as its coordinates.  The check is the
    constructor's own: it builds the Dot of every part, and takes no board. *)
Theorem ship_construction_bounds (length : Z) (direction : string) (start_point : Dot.t)
    (health : option Z) :
  1 <= length <= 3 -> direction ∈ Ship.DIRECTION_CHOICES ->
  let run := derived_run length direction (Dot.get_coords start_point) in
  ((exists msg, Ship.init length direction start_point health = Raise (BoardOutException msg))
   <-> exists p, p ∈ run /\ in_board p = false) /\
  ((forall p, p ∈ run -> in_board p = true) ->
   exists ship, Ship.init length direction start_point health = Return ship /\
                Ship.get_dots ship = run) /\
  (Ship.check_start_point length direction start_point = Return tt <->
   forall i, 0 <= i < length ->
     exists d, Dot.new (if bool_decide (direction = "horizontal")
                        then Dot.column start_point + i else Dot.column start_point)
                       (if bool_decide (direction = "horizontal")
                        then Dot.row start_point else Dot.row start_point + i) = Return d).
Proof.
  intros Hl Hd run.
  destruct (Ship_init_spec length direction start_point health Hl Hd)
    as [[H1 H2]|[[msg H1] (p & Hp & H2)]]; fold run in H2.
  - split; [|split].
    + split.
      * intros [msg Hm]. congruence.
      * intros (p & Hp & Hb). rewrite (H2 p Hp) in Hb. done.
    + intros _. eexists. split; [exact H1|].
      by rewrite get_dots_derived_run.
    + assert (Hcheck : Ship.check_start_point length direction start_point = Return tt).
      { unfold Ship.init, Ship.set_length, Ship.set_direction in H1.
        assert ((1 <=? length) && (length <=? 3) = true) as Hl' by lia.
        rewrite Hl' in H1. rewrite bool_decide_eq_true_2 in H1 by done. simpl in H1.
        unfold Ship.set_start_point in H1.
        destruct (Ship.check_start_point length direction start_point) as [[]|]; done. }
      split; [|done]. intros _ i Hi.
      assert (Hin : in_board (if bool_decide (direction = "horizontal")
                              then (Dot.column start_point + i, Dot.row start_point)
                              else (Dot.column start_point, Dot.row start_point + i)) = true).
      { apply H2. apply elem_of_derived_run. by exists i. }
      eexists. apply Dot_init_Return. split; [|done].
      unfold Dot.get_coords in Hin. cbn [fst snd] in Hin.
      by destruct (bool_decide (direction = "horizontal")).
  - fold run in Hp. split; [|split].
    + split; eauto.
    + intros Hall. rewrite (Hall p Hp) in H2. done.
    + split.
      * intros Hcheck. exfalso.
        unfold Ship.init, Ship.set_length, Ship.set_direction in H1.
        assert ((1 <=? length) && (length <=? 3) = true) as Hl' by lia.
        rewrite Hl' in H1. rewrite bool_decide_eq_true_2 in H1 by done. simpl in H1.
        unfold Ship.set_start_point in H1. rewrite Hcheck in H1. done.
      * intros Hall. exfalso.
        apply elem_of_derived_run in Hp as (i & Hi & ->).
        destruct (Hall i Hi) as [d Hdot]. apply Dot_init_Return in Hdot as [Hb _].
        unfold Dot.get_coords in H2. cbn [fst snd] in H2.
        destruct (bool_decide (direction = "horizontal")); congruence.
Qed.

Lemma list_remove_elem `{EqDecision A} (x : A) (l : list A) :
  x ∈ l -> l ≡ₚ x :: list_remove x l.
Proof.
  induction l as [|y l IH]; intros Hx; [by apply elem_of_nil in Hx|]. simpl.
  case_decide as E; [by subst|].
  apply elem_of_cons in Hx as [?|Hx]; [done|]. rewrite (IH Hx) at 1. apply Permutation_swap.
Qed.

Lemma shot_ship_length_list order self column row :
  inv order self ->
  Board.ship_length_list (Board.shot order column row self).1 = Board.ship_length_list self.
Proof.
  intros Hinv. pose proof Hinv as (Hwf & _).
  destruct (shot_cases order self column row Hinv); cbn [fst]; try done;
    by destruct (set_state_wf self (column, row) missed Hwf) as (_ & _ & ? & _),
               (set_state_wf self (column, row) damaged Hwf) as (_ & _ & ? & _).
Qed.

Lemma history_ship_length_list order allowed n self :
  history order allowed n self ->
  (length (Board.ship_length_list self) + n = 7)%nat.
Proof.
  induction 1 as [b Hb|n self ship self' Hhist IH (_ & _ & Hin) _ Hadd
                 |n self ship self' e Hhist IH (_ & _ & Hin) _ Hadd|n self c r Hhist IH].
  - by destruct (Board_init_spec b Hb) as (_ & _ & ->).
  - pose proof (history_inv _ _ _ _ Hhist) as (Hwf & _).
    destruct (add_ship_Return _ _ _ _ Hwf Hin Hadd) as (_ & Hlen & ->).
    cbn [Board.ship_length_list].
    pose proof (Permutation_length (list_remove_elem _ _ Hlen)) as Hperm.
    simpl in Hperm. lia.
  - pose proof (history_inv _ _ _ _ Hhist) as (Hwf & _).
    by destruct (add_ship_Raise _ _ _ _ _ Hwf Hin Hadd) as [-> _].
  - rewrite shot_ship_length_list; [done|]. by eapply history_inv.
Qed.

(** C6. A new board has [ship_length_list = [3, 2, 2, 1, 1, 1, 1]] and an
    empty fleet.  On any board the program can reach, an [add_ship] that
    returns found the length of the ship in the list, took one occurrence of
    it out and appended the ship to the fleet; [add_ship] raises
    IncorrectParametersException, leaving the board as it was, whenever the
    length of the ship is not in the list.  After seven calls of [add_ship]
    have returned the list is empty, and [add_ship] raises
    IncorrectParametersException for every ship. *)
Theorem fleet_composition (order : set_order) :
  (forall b, Board.init = Return b ->
     Board.ship_length_list b = [3; 2; 2; 1; 1; 1; 1] /\ Board.ships_list b = []) /\
  (forall n self length direction start_point health ship self',
     history order any_ship n self ->
     Ship.init length direction start_point health = Return ship ->
     Board.add_ship order ship self = (self', Return tt) ->
     Ship.length ship ∈ Board.ship_length_list self /\
     Board.ship_length_list self' =
       list_remove (Ship.length ship) (Board.ship_length_list self) /\
     Board.ship_length_list self ≡ₚ Ship.length ship :: Board.ship_length_list self' /\
     Board.ships_list self' = Board.ships_list self ++ [bound ship]) /\
  (forall n self length direction start_point health ship,
     history order any_ship n self ->
     Ship.init length direction start_point health = Return ship ->
     Ship.length ship ∉ Board.ship_length_list self ->
     exists msg, Board.add_ship order ship self =
                 (self, Raise (IncorrectParametersException msg))) /\
  (forall self,
     history order any_ship 7 self ->
     Board.ship_length_list self = [] /\
     forall length direction start_point health ship,
       Ship.init length direction start_point health = Return ship ->
       exists msg, Board.add_ship order ship self =
                   (self, Raise (IncorrectParametersException msg))).
Proof.
  assert (Hsurplus : forall n self length direction start_point health ship,
     history order any_ship n self ->
     Ship.init length direction start_point health = Return ship ->
     Ship.length ship ∉ Board.ship_length_list self ->
     exists msg, Board.add_ship order ship self =
                 (self, Raise (IncorrectParametersException msg))).
  { intros n self l d sp h ship Hhist Hinit Hlen.
    pose proof (history_inv _ _ _ _ Hhist) as (Hwf & _).
    apply Ship_init_Return in Hinit as [_ (_ & _ & Hin)].
    destruct (add_ship_cases order self ship Hwf Hin); eauto. done. }
  split; [|split; [|split]].
  - intros b Hb. by destruct (Board_init_spec b Hb) as (_ & -> & ->).
  - intros n self l d sp h ship self' Hhist Hinit Hadd.
    pose proof (history_inv _ _ _ _ Hhist) as (Hwf & _).
    apply Ship_init_Return in Hinit as [_ (_ & _ & Hin)].
    destruct (add_ship_Return _ _ _ _ Hwf Hin Hadd) as (_ & Hlen & ->).
    cbn [Board.ship_length_list Board.ships_list].
    split; [done|]. split; [done|]. split; [by apply list_remove_elem|done].
  - exact Hsurplus.
  - intros self Hhist.
    pose proof (history_ship_length_list _ _ _ _ Hhist) as Hlen.
    assert (Hnil : Board.ship_length_list self = []).
    { destruct (Board.ship_length_list self); [done|simpl in Hlen; lia]. }
    split; [done|]. intros l d sp h ship Hinit.
    apply (Hsurplus 7%nat self l d sp h ship Hhist Hinit). rewrite Hnil. set_solver.
Qed.

#[global] Instance blocked_dec order self ship : Decision (blocked order self ship).
Proof.
  destruct (decide (Exists (fun p => p ∈ Board.occupied_dots order (Board.ships_list self))
                           (Ship.get_dots ship))) as [H|H];
    [left|right]; by rewrite blocked_Exists.
Defined.

Lemma state_at_add_ship order self ship p :
  board_wf self -> (forall q, q ∈ Ship.get_dots ship -> in_board q = true) ->
  in_board p = true ->
  state_at (Board.add_ship order ship self).1 p =
  if decide (p ∈ Ship.get_dots ship /\ ~ blocked order self ship /\
             Ship.length ship ∈ Board.ship_length_list self)
  then Some undamaged else state_at self p.
Proof.
  intros Hwf Hin Hp.
  destruct (add_ship_cases order self ship Hwf Hin) as [Hb|Hb Hlen|Hb Hlen]; cbn [fst].
  - rewrite decide_False; [done|]. tauto.
  - rewrite decide_False; [done|]. tauto.
  - rewrite state_at_indep, state_at_writes by done.
    destruct (decide (p ∈ Ship.get_dots ship)).
    + by rewrite decide_True.
    + rewrite decide_False; [done|]. tauto.
Qed.

(** Before any shot a cell is ["hidden"], or ["undamaged"] and a cell of a
    ship of the fleet. *)
Lemma placements_states order placed self p :
  placements order placed self -> in_board p = true ->
  state_at self p = Some hidden \/
  (state_at self p = Some undamaged /\
   exists s, s ∈ Board.ships_list self /\ p ∈ Ship.get_dots s).
Proof.
  intros Hpl. revert p.
  induction Hpl as [b Hb|placed self ship self' Hpl IH (_ & _ & Hin) Hadd]; intros p Hp.
  - left. destruct (Board_init_spec b Hb) as (Hwf & _).
    destruct (state_at_is_Some b p Hwf Hp) as [st Hst]. rewrite Hst.
    vm_compute in Hb. injection Hb as <-.
    destruct p as [c r]. apply in_board_true in Hp. simpl in Hp.
    assert (Hc : c = 1 \/ c = 2 \/ c = 3 \/ c = 4 \/ c = 5 \/ c = 6) by lia.
    assert (Hr : r = 1 \/ r = 2 \/ r = 3 \/ r = 4 \/ r = 5 \/ r = 6) by lia.
    destruct Hc as [->|[->|[->|[->|[->| ->]]]]];
      destruct Hr as [->|[->|[->|[->|[->| ->]]]]]; vm_compute in Hst; congruence.
  - pose proof (history_inv _ _ _ _ (placements_history _ _ _ Hpl)) as (Hwf & _).
    pose proof (state_at_add_ship order self ship p Hwf Hin Hp) as Hst.
    destruct (add_ship_Return _ _ _ _ Hwf Hin Hadd) as (Hb & Hlen & Eself).
    rewrite Hadd in Hst. cbn [fst] in Hst. rewrite Hst. rewrite Eself.
    cbn [Board.ships_list]. case_decide as Hd.
    + right. split; [done|]. exists (bound ship). split; [set_solver|]. by destruct Hd.
    + destruct (IH p Hp) as [?|[? (s & Hs & Hps)]]; [by left|right].
      split; [done|]. exists s. split; [set_solver|done].
Qed.

(** C9, counterexample.  A placement after a shot takes a cell
    from ["missed"] back to ["undamaged"]: on a new board the shot at (1, 1)
    is a miss, and a ship of length 1 can then be placed at (1, 1). *)
Lemma placement_resets_missed_cell :
  ~ exists order : set_order,
      forall calls c b p st st',
        Board.init = Return b ->
        state_at (run order calls b) p = Some st ->
        state_at (perform order c (run order calls b)) p = Some st' ->
        st = damaged \/ st = missed ->
        st' <> hidden /\ st' <> undamaged.
Proof.
  intros [order H]. destruct Board_init_returns as [b0 Hb0].
  pose proof Hb0 as Hb0'. vm_compute in Hb0'. injection Hb0' as Eb0.
  destruct (H [Shot 1 1] (AddShip 1 "horizontal" (Dot.mk 1 1 hidden) None) b0 (1, 1)
              missed undamaged Hb0) as [_ Hne]; try (by rewrite <- Eb0; vm_compute); auto.
Qed.

(** C9, amended.  Every cell of the grid holds, on every board the
    program can reach, a Dot with the cell's own coordinates.  A shot
    changes the state of its target only from ["hidden"] to ["missed"] or
    from ["undamaged"] to ["damaged"]; it changes the state of another cell
    only to ["missed"], and only when the shot sinks a ship -- the ship
    holds the target, had health 1 and leaves the fleet -- and the cell lies
    in the buffer of that ship.  So a cell goes from ["damaged"] to
    ["missed"] only as a buffer cell of the ship that sinks, and no shot
    takes a cell from ["damaged"] or ["missed"] back to ["hidden"] or
    ["undamaged"].  [add_ship] changes only cells of the ship it places, and
    sets them to ["undamaged"], whatever they were; on a board on which no
    shot was fired yet, they were ["hidden"]. *)
Theorem cell_transitions (order : set_order) :
  (forall n self p,
     history order any_ship n self -> in_board p = true ->
     exists st, dot_at self p = Some (Dot.mk p.1 p.2 st)) /\
  (forall n self column row p,
     history order any_ship n self -> in_board p = true ->
     exists st st',
       state_at self p = Some st /\
       state_at (Board.shot order column row self).1 p = Some st' /\
       (st' = st \/
        (p = (column, row) /\
         ((st = hidden /\ st' = missed) \/ (st = undamaged /\ st' = damaged))) \/
        (p <> (column, row) /\ st' = missed /\
         exists pre i post,
           Board.ships_list self = pre ++ i :: post /\
           Board.ships_list (Board.shot order column row self).1 = pre ++ post /\
           (column, row) ∈ Ship.get_dots i /\ Ship.health i = 1 /\
           p ∈ spec_contour i)) /\
       (st = damaged \/ st = missed -> st' = damaged \/ st' = missed)) /\
  (forall n self ship p,
     history order any_ship n self -> ship_wf ship -> in_board p = true ->
     exists st st',
       state_at self p = Some st /\
       state_at (Board.add_ship order ship self).1 p = Some st' /\
       (st' = st \/ (p ∈ Ship.get_dots ship /\ st' = undamaged))) /\
  (forall placed self ship p,
     placements order placed self -> ship_wf ship -> in_board p = true ->
     exists st st',
       state_at self p = Some st /\
       state_at (Board.add_ship order ship self).1 p = Some st' /\
       (st' = st \/ (st = hidden /\ st' = undamaged))).
Proof.
  split; [|split; [|split]].
  - intros n self p Hhist Hp. destruct (history_inv _ _ _ _ Hhist) as (Hwf & _).
    by apply Hwf.
  - intros n self column row p Hhist Hp.
    pose proof (history_inv _ _ _ _ Hhist) as Hinv. pose proof Hinv as (Hwf & Hsep & Hships).
    destruct (state_at_is_Some self p Hwf Hp) as [st Hst]. exists st.
    assert (Hsame : exists st',
              Some st = Some st' /\
              (st' = st \/
               (p = (column, row) /\
                ((st = hidden /\ st' = missed) \/ (st = undamaged /\ st' = damaged))) \/
               (p <> (column, row) /\ st' = missed /\
                exists pre i post,
                  Board.ships_list self = pre ++ i :: post /\
                  Board.ships_list (Board.shot order column row self).1 = pre ++ post /\
                  (column, row) ∈ Ship.get_dots i /\ Ship.health i = 1 /\
                  p ∈ spec_contour i)) /\
              (st = damaged \/ st = missed -> st' = damaged \/ st' = missed)).
    { exists st. split; [done|]. split; [by left|done]. }
    assert (Htarget : forall st0 st1,
              state_at self (column, row) = Some st0 ->
              (st0 = hidden /\ st1 = missed) \/ (st0 = undamaged /\ st1 = damaged) ->
              exists st',
                (if decide (p = (column, row)) then Some st1 else state_at self p) = Some st' /\
                (st' = st \/
                 (p = (column, row) /\
                  ((st = hidden /\ st' = missed) \/ (st = undamaged /\ st' = damaged))) \/
                 (p <> (column, row) /\ st' = missed /\
                  exists pre i post,
                    Board.ships_list self = pre ++ i :: post /\
                    Board.ships_list (Board.shot order column row self).1 = pre ++ post /\
                    (column, row) ∈ Ship.get_dots i /\ Ship.health i = 1 /\
                    p ∈ spec_contour i)) /\
                (st = damaged \/ st = missed -> st' = damaged \/ st' = missed)).
    { intros st0 st1 Hst0 Hcase. case_decide as Hd.
      - subst p. rewrite Hst0 in Hst. injection Hst as <-. exists st1. split; [done|].
        split; [right; left; by split|].
        intros [->| ->]; destruct Hcase as [[? _]|[? _]]; done.
      - rewrite Hst. exact Hsame. }
    pose proof (shot_cases order self column row Hinv) as Hc.
    destruct (Board.shot order column row self) as [self1 r1] eqn:Hshot. cbn [fst] in *.
    inversion Hc as [Ht|st0 Ht Hst0 Hst0'|Ht Hst0|Ht Hst0 Hno|pre i post Ht Hst0 Hsplit Hpi Hhi
                    |pre i post Ht Hst0 Hsplit Hpi Hhi|pre i post Ht Hst0 Hsplit Hpi Hhi];
      subst self1 r1.
    + rewrite Hst. destruct Hsame as (st' & E & H). exists st'. by split.
    + rewrite Hst. destruct Hsame as (st' & E & H). exists st'. by split.
    + rewrite state_at_write by done.
      destruct (Htarget hidden missed Hst0) as (st' & E & H); [by left|]. exists st'. by split.
    + rewrite state_at_write by done.
      destruct (Htarget undamaged damaged Hst0) as (st' & E & H); [by right|].
      exists st'. by split.
    + rewrite state_at_write by done.
      destruct (Htarget undamaged damaged Hst0) as (st' & E & H); [by right|].
      exists st'. by split.
    + unfold Board.with_ships_list. rewrite state_at_indep, state_at_write by done.
      destruct (Htarget undamaged damaged Hst0) as (st' & E & H); [by right|].
      exists st'. by split.
    + rewrite state_at_indep, state_at_sunk by done.
      destruct (decide (p ∈ Board.contour order i)) as [Hcont|Hcont].
      * exists missed. split; [done|]. split; [done|]. split; [|auto].
        right. right.
        assert (Hne : p <> (column, row)).
        { intros ->. by apply elem_of_contour in Hcont as (_ & ? & _). }
        split; [done|]. split; [done|]. exists pre, i, post.
        repeat (split; [done|]). by rewrite <- (contour_spec order).
      * destruct (Htarget undamaged damaged Hst0) as (st' & E & H); [by right|].
        exists st'. by split.
  - intros n self ship p Hhist (_ & _ & Hin) Hp.
    pose proof (history_inv _ _ _ _ Hhist) as (Hwf & _).
    destruct (state_at_is_Some self p Hwf Hp) as [st Hst]. exists st.
    rewrite state_at_add_ship by done. case_decide as Hd.
    + exists undamaged. destruct Hd as [? _]. auto.
    + exists st. auto.
  - intros placed self ship p Hpl (_ & _ & Hin) Hp.
    pose proof (history_inv _ _ _ _ (placements_history _ _ _ Hpl)) as (Hwf & _).
    destruct (state_at_is_Some self p Hwf Hp) as [st Hst]. exists st.
    rewrite state_at_add_ship by done. case_decide as Hd; [|exists st; auto].
    exists undamaged. split; [done|]. split; [done|]. right. split; [|done].
    destruct Hd as (Hpd & Hb & _).
    destruct (placements_states order placed self p Hpl Hp) as [Hh|[_ (s & Hs & Hps)]];
      [congruence|].
    exfalso. apply Hb. exists p. split; [done|]. apply elem_of_exclusion. eauto.
Qed.



(** * The theorems at work on sample boards *)

Lemma new_board_init : Board.init = Return new_board.
Proof. reflexivity. Qed.

Lemma example_board_history : history sorted_order full_health 1 example_board.
Proof.
  unfold example_board. do 2 apply (history_shot sorted_order full_health 1).
  apply (history_add_ship sorted_order full_health 0 new_board example_ship).
  - constructor. exact new_board_init.
  - exact (proj2 (Ship_init_Return 3 "horizontal" (Dot.mk 3 2 hidden) None _ eq_refl)).
  - reflexivity.
  - vm_compute. reflexivity.
Qed.

Lemma fleet_board_history :
  history sorted_order full_health 7 (fleet_board 7).
Proof.
  assert (Hstep : forall k l d sp ship,
            fleet_calls !! k = Some (AddShip l d sp None) ->
            Ship.init l d sp None = Return ship ->
            (Board.add_ship sorted_order ship (fleet_board k)).2 = Return tt ->
            history sorted_order full_health k (fleet_board k) ->
            history sorted_order full_health (S k) (fleet_board (S k))).
  { intros k l d sp ship Hk Hinit Hadd Hhist.
    eapply history_add_ship;
      [exact Hhist|exact (proj2 (Ship_init_Return _ _ _ _ _ Hinit))
      |exact (Ship_init_full_health _ _ _ _ Hinit)|].
    unfold fleet_board at 2. rewrite (take_S_r _ _ _ Hk). unfold run.
    rewrite foldl_app. simpl. fold (run sorted_order (take k fleet_calls) new_board).
    fold (fleet_board k). rewrite Hinit.
    destruct (Board.add_ship sorted_order ship (fleet_board k)) as [b r].
    simpl in *. by subst. }
  eapply Hstep; [reflexivity|reflexivity|by vm_compute|].
  eapply Hstep; [reflexivity|reflexivity|by vm_compute|].
  eapply Hstep; [reflexivity|reflexivity|by vm_compute|].
  eapply Hstep; [reflexivity|reflexivity|by vm_compute|].
  eapply Hstep; [reflexivity|reflexivity|by vm_compute|].
  eapply Hstep; [reflexivity|reflexivity|by vm_compute|].
  eapply Hstep; [reflexivity|reflexivity|by vm_compute|].
  constructor. exact new_board_init.
Qed.

Lemma any_default order n self :
  history order full_health n self -> history order any_ship n self.
Proof. apply history_weaken. done. Qed.

(** C1 at work: two ships placed, two cells apart; and a ship refused at
    (4, 2), which touches the cell (3, 1) of the first by a corner. *)
Lemma adjacency_invariant_witness :
  ((2, 1) ∉ Ship.get_dots (Ship.mk 2 "horizontal" (Dot.mk 1 3 hidden) 2 [])) /\
  ((2, 1) ∉ spec_contour (Ship.mk 2 "horizontal" (Dot.mk 1 3 hidden) 2 [])) /\
  Board.add_ship sorted_order (Ship.mk 1 "horizontal" (Dot.mk 4 2 hidden) 1 []) (fleet_board 1) =
  (fleet_board 1, Raise (IncorrectParametersException add_ship_blocked_message)).
Proof.
  assert (Hwf : forall l d sp s, Ship.init l d sp None = Return s -> ship_wf s).
  { intros l d sp s Hs. exact (proj2 (Ship_init_Return _ _ _ _ _ Hs)). }
  assert (Hpl1 : placements sorted_order
                   [Ship.mk 3 "horizontal" (Dot.mk 1 1 hidden) 3 []] (fleet_board 1)).
  { apply (placements_add sorted_order [] new_board).
    - constructor. reflexivity.
    - exact (Hwf 3 "horizontal" (Dot.mk 1 1 hidden) _ eq_refl).
    - vm_compute. reflexivity. }
  assert (Hpl : placements sorted_order
    [Ship.mk 3 "horizontal" (Dot.mk 1 1 hidden) 3 []; Ship.mk 2 "horizontal" (Dot.mk 1 3 hidden) 2 []]
    (fleet_board 2)).
  { apply (placements_add sorted_order [Ship.mk 3 "horizontal" (Dot.mk 1 1 hidden) 3 []]
             (fleet_board 1)).
    - exact Hpl1.
    - exact (Hwf 2 "horizontal" (Dot.mk 1 3 hidden) _ eq_refl).
    - vm_compute. reflexivity. }
  apply and_assoc. split.
  - apply (proj1 (proj2 (proj1 (adjacency_invariant sorted_order) _ _ Hpl) 0%nat 1%nat _ _
                    (O_S 0) eq_refl eq_refl)).
    by_compute.
  - apply (proj1 (proj1 (proj2 (adjacency_invariant sorted_order)) 1%nat (fleet_board 1) _
                    (placements_history _ _ _ Hpl1)
                    (Hwf 1 "horizontal" (Dot.mk 4 2 hidden) _ eq_refl))).
    exists (4, 2), (Ship.mk 3 "horizontal" (Dot.mk 1 1 hidden) 3 [(1, 1); (2, 1); (3, 1)]).
    split; [by_compute|]. split; [by_compute|]. right.
    apply elem_of_spec_contour. split; [reflexivity|]. split; [by_compute|].
    exists (3, 1). split; [by_compute|]. unfold adjacent. simpl. lia.
Defined.

(** C2 at work: the third hit on the example ship. *)
Lemma sinking_marks_contour_witness :
  exists self',
    Board.shot sorted_order 5 2 example_board = (self', Return true) /\
    Board.ships_list self' = [] /\
    state_at self' (6, 3) = Some missed.
Proof.
  destruct (proj1 (sinking_marks_contour sorted_order) 1%nat example_board 5 2 []
              (Ship.mk 3 "horizontal" (Dot.mk 3 2 hidden) 1 [(3, 2); (4, 2); (5, 2)]) [])
    as (self' & H1 & _ & H2 & _ & H3 & _).
  - apply any_default. exact example_board_history.
  - vm_compute. reflexivity.
  - by_compute.
  - vm_compute. reflexivity.
  - reflexivity.
  - exists self'. split; [exact H1|]. split; [exact H2|]. apply H3. by_compute.
Defined.


(** C4 at work: a shot outside the board. *)
Lemma failure_leaves_board_witness :
  (Board.shot sorted_order 7 1 example_board).1 = example_board.
Proof.
  destruct (Board.shot sorted_order 7 1 example_board) as [self' r] eqn:E.
  assert (Hr : r = Raise (BoardOutException shot_outside_message)).
  { vm_compute in E. injection E as _ <-. reflexivity. }
  subst r.
  destruct (proj1 (proj2 (failure_leaves_board sorted_order)) 1%nat example_board 7 1 self' _
              (any_default _ _ _ example_board_history) E) as [[-> _]|[He _]];
    [reflexivity|discriminate He].
Defined.

(** C6 at work: the whole fleet is placed; nothing more goes on. *)
Lemma fleet_composition_witness :
  Board.ship_length_list (fleet_board 7) = [] /\
  exists msg, Board.add_ship sorted_order (Ship.mk 1 "horizontal" (Dot.mk 6 6 hidden) 1 [])
                (fleet_board 7) =
              (fleet_board 7, Raise (IncorrectParametersException msg)).
Proof.
  destruct (proj2 (proj2 (proj2 (fleet_composition sorted_order))) (fleet_board 7)
              (any_default _ _ _ fleet_board_history)) as [H1 H2].
  split; [exact H1|].
  apply (H2 1 "horizontal" (Dot.mk 6 6 hidden) None). reflexivity.
Defined.

(** C7 at work: a ship of length 3 does not fit at (5, 2). *)
Lemma ship_construction_bounds_witness :
  (exists msg, Ship.init 3 "horizontal" (Dot.mk 5 2 hidden) None
               = Raise (BoardOutException msg)) <->
  (exists p, p ∈ derived_run 3 "horizontal" (5, 2) /\ in_board p = false).
Proof.
  apply (ship_construction_bounds 3 "horizontal" (Dot.mk 5 2 hidden) None).
  - lia.
  - by_compute.
Defined.

(** C8 at work. *)
Lemma Dot_construction_bounds_witness :
  Dot.new 3 2 = Return (Dot.mk 3 2 hidden) /\
  exists msg, Dot.init 7 2 hidden = Raise (BoardOutException msg).
Proof.
  split.
  - apply (proj1 (Dot_construction_bounds 3 2)). lia.
  - apply (proj2 (Dot_construction_bounds 7 2)). lia.
Defined.

(** C9 at work: the shot that sinks the example ship, seen from (6, 3). *)
Lemma cell_transitions_witness :
  exists st st',
    state_at example_board (6, 3) = Some st /\
    state_at (Board.shot sorted_order 5 2 example_board).1 (6, 3) = Some st' /\
    (st = damaged \/ st = missed -> st' = damaged \/ st' = missed).
Proof.
  destruct (proj1 (proj2 (cell_transitions sorted_order)) 1%nat example_board 5 2 (6, 3)
              (any_default _ _ _ example_board_history) eq_refl)
    as (st & st' & H1 & H2 & _ & H3).
  exists st, st'. split; [exact H1|]. split; [exact H2|exact H3].
Defined.


(** * Further properties of the code *)

(** ** Ship: coordinates, construction, health *)

Lemma lookup_get_dots s k p :
  Ship.direction s ∈ Ship.DIRECTION_CHOICES ->
  Ship.get_dots s !! k = Some p <->
  (Z.of_nat k < Ship.length s /\
   p = if bool_decide (Ship.direction s = "horizontal")
       then (Dot.column (Ship.start_point s) + Z.of_nat k, Dot.row (Ship.start_point s))
       else (Dot.column (Ship.start_point s), Dot.row (Ship.start_point s) + Z.of_nat k)).
Proof.
  intros Hd. rewrite get_dots_derived_run by done. unfold derived_run, Dot.get_coords.
  rewrite list_lookup_fmap. cbn [fst snd]. split.
  - intros H. destruct (seqZ 0 (Ship.length s) !! k) as [i|] eqn:E; [|done].
    apply lookup_seqZ in E as [-> ?]. simpl in H. injection H as <-.
    split; [lia|]. by rewrite Z.add_0_l.
  - intros [Hk ->]. assert (seqZ 0 (Ship.length s) !! k = Some (Z.of_nat k)) as ->.
    { apply lookup_seqZ. lia. }
    done.
Qed.

(** X1. The coordinates of a constructed ship, as [get_dots] lists them:
    as many as the length, all different, all on the board, the start point
    first, and each the one before moved by one column (horizontal) or one
    row (vertical). *)
Theorem get_dots_line (length : Z) (direction : string) (start_point : Dot.t)
    (health : option Z) (ship : Ship.t) :
  Ship.init length direction start_point health = Return ship ->
  Datatypes.length (Ship.get_dots ship) = Z.to_nat length /\
  NoDup (Ship.get_dots ship) /\
  Ship.get_dots ship !! 0%nat = Some (Dot.get_coords start_point) /\
  (forall k p, Ship.get_dots ship !! k = Some p ->
     in_board p = true /\
     p = if bool_decide (direction = "horizontal")
         then (Dot.column start_point + Z.of_nat k, Dot.row start_point)
         else (Dot.column start_point, Dot.row start_point + Z.of_nat k)).
Proof.
  intros Hinit. apply Ship_init_Return in Hinit as [-> (Hl & Hd & Hin)].
  cbn [Ship.length Ship.direction Ship.start_point] in *.
  split; [by rewrite length_get_dots|]. split; [apply NoDup_get_dots|]. split.
  - apply lookup_get_dots; [done|]. cbn [Ship.length Ship.direction Ship.start_point].
    split; [lia|]. unfold Dot.get_coords. rewrite !Z.add_0_r. by case_bool_decide.
  - intros k p Hk. split; [apply Hin; by eapply list_elem_of_lookup_2|].
    by apply lookup_get_dots in Hk as [_ ->].
Qed.

Lemma get_dots_line_witness :
  Ship.get_dots example_ship !! 0%nat = Some (3, 2) /\
  Datatypes.length (Ship.get_dots example_ship) = 3%nat.
Proof.
  destruct (get_dots_line 3 "horizontal" (Dot.mk 3 2 hidden) None example_ship eq_refl)
    as (H1 & _ & H2 & _).
  split; [exact H2|exact H1].
Defined.

(** X2. What the constructor of a ship checks, and in which order: a length
    outside 1..3 raises IncorrectParametersException whatever the other
    arguments; with a valid length, a direction other than the two names
    raises IncorrectParametersException whatever the start point; the
    bounds of the run are looked at last.  A ship that is returned holds the
    arguments as given, the health defaulting to the length, and no bound
    cells. *)
Theorem ship_init_errors (length : Z) (direction : string) (start_point : Dot.t)
    (health : option Z) :
  (~ 1 <= length <= 3 ->
   Ship.init length direction start_point health =
   Raise (IncorrectParametersException "Length should be from 1 to 3")) /\
  (1 <= length <= 3 -> direction <> "horizontal" -> direction <> "vertical" ->
   Ship.init length direction start_point health =
   Raise (IncorrectParametersException "Direction should be horizontal or vertical")) /\
  (forall ship, Ship.init length direction start_point health = Return ship ->
     Ship.length ship = length /\ Ship.direction ship = direction /\
     Ship.start_point ship = start_point /\ Ship.dots_list ship = [] /\
     Ship.health ship = match health with Some v => v | None => length end).
Proof.
  split; [|split].
  - intros Hl. unfold Ship.init, Ship.set_length.
    assert ((1 <=? length) && (length <=? 3) = false) as -> by lia. done.
  - intros Hl Hh Hv. unfold Ship.init, Ship.set_length, Ship.set_direction.
    assert ((1 <=? length) && (length <=? 3) = true) as -> by lia. simpl.
    rewrite bool_decide_eq_false_2; [done|].
    rewrite elem_of_DIRECTION_CHOICES. tauto.
  - intros ship Hinit. apply Ship_init_Return in Hinit as [-> _]. by destruct health.
Qed.

Lemma ship_init_errors_witness :
  Ship.init 4 "diagonal" (Dot.mk 6 6 hidden) None =
  Raise (IncorrectParametersException "Length should be from 1 to 3") /\
  Ship.init 2 "diagonal" (Dot.mk 6 6 hidden) None =
  Raise (IncorrectParametersException "Direction should be horizontal or vertical").
Proof.
  split.
  - apply (proj1 (ship_init_errors 4 "diagonal" (Dot.mk 6 6 hidden) None)). lia.
  - apply (proj1 (proj2 (ship_init_errors 2 "diagonal" (Dot.mk 6 6 hidden) None)));
      [lia|discriminate|discriminate].
Defined.

(** X3. [reduce_health] called [k] times in a row on a ship of health
    [h >= 0]: the first [h] calls return and leave the health at [h - k],
    touching nothing else of the ship; from call [h + 1] on it raises
    GameplayException, so the health never goes below zero. *)
Theorem reduce_health_repeated (k : nat) (ship : Ship.t) :
  0 <= Ship.health ship ->
  reduce_health_times k ship =
  if decide (Z.of_nat k <= Ship.health ship)
  then Return (Ship.with_health ship (Ship.health ship - Z.of_nat k))
  else Raise (GameplayException health_message).
Proof.
  revert ship. induction k as [|k IH]; intros ship Hh.
  - simpl. rewrite decide_True by lia. rewrite Z.sub_0_r. by destruct ship.
  - cbn [reduce_health_times]. unfold Ship.reduce_health.
    destruct (0 <? Ship.health ship) eqn:Hpos.
    + cbn. rewrite IH by (simpl; lia). cbn [Ship.health Ship.with_health].
      destruct (decide (Z.of_nat k <= Ship.health ship - 1)).
      * rewrite decide_True by lia. unfold Ship.with_health; simpl. do 2 f_equal. lia.
      * rewrite decide_False by lia. done.
    + cbn. rewrite decide_False by lia. done.
Qed.

Lemma reduce_health_repeated_witness :
  reduce_health_times 3 example_ship = Return (Ship.with_health example_ship 0) /\
  reduce_health_times 4 example_ship = Raise (GameplayException health_message).
Proof.
  split.
  - apply (reduce_health_repeated 3 example_ship). simpl. lia.
  - apply (reduce_health_repeated 4 example_ship). simpl. lia.
Defined.

(** X4. For a ship of length 1 the direction makes no difference: with
    either name [get_dots] is the start point alone, and [contour] is the
    same list. *)
Theorem single_cell_ship (order : set_order) (ship : Ship.t) :
  Ship.length ship = 1 -> Ship.direction ship ∈ Ship.DIRECTION_CHOICES ->
  Ship.get_dots ship = [Dot.get_coords (Ship.start_point ship)] /\
  forall ship',
    Ship.length ship' = 1 -> Ship.direction ship' ∈ Ship.DIRECTION_CHOICES ->
    Dot.get_coords (Ship.start_point ship') = Dot.get_coords (Ship.start_point ship) ->
    Ship.get_dots ship' = Ship.get_dots ship /\
    Board.contour order ship' = Board.contour order ship.
Proof.
  assert (Hone : forall s, Ship.length s = 1 -> Ship.direction s ∈ Ship.DIRECTION_CHOICES ->
            Ship.get_dots s = [Dot.get_coords (Ship.start_point s)]).
  { intros s Hl Hd. rewrite get_dots_derived_run by done. rewrite Hl.
    unfold derived_run, Dot.get_coords. simpl. rewrite !Z.add_0_r. by case_bool_decide. }
  intros Hl Hd. split; [by apply Hone|].
  intros ship' Hl' Hd' Hc.
  assert (E : Ship.get_dots ship' = Ship.get_dots ship) by (by rewrite !Hone, Hc).
  split; [done|]. unfold Board.contour. by rewrite E.
Qed.

Lemma single_cell_ship_witness :
  Ship.get_dots (Ship.mk 1 "vertical" (Dot.mk 3 5 hidden) 1 []) = [(3, 5)].
Proof.
  destruct (single_cell_ship sorted_order (Ship.mk 1 "vertical" (Dot.mk 3 5 hidden) 1 []))
    as [H _].
  - reflexivity.
  - by_compute.
  - exact H.
Defined.

(** ** Contour: what the iteration order leaves open, and its size *)

Lemma contour_in_frame (order : set_order) (s : Ship.t) p :
  Ship.direction s ∈ Ship.DIRECTION_CHOICES ->
  p ∈ Board.contour order s ->
  let c := Dot.column (Ship.start_point s) in
  let r := Dot.row (Ship.start_point s) in
  let l := Ship.length s in
  if bool_decide (Ship.direction s = "horizontal") then
    p ∈ [(c - 1, r - 1); (c - 1, r); (c - 1, r + 1); (c + l, r - 1); (c + l, r); (c + l, r + 1)]
        ++ ((fun i => (c + i, r - 1)) <$> seqZ 0 l) ++ ((fun i => (c + i, r + 1)) <$> seqZ 0 l)
  else
    p ∈ [(c - 1, r - 1); (c, r - 1); (c + 1, r - 1); (c - 1, r + l); (c, r + l); (c + 1, r + l)]
        ++ ((fun i => (c - 1, r + i)) <$> seqZ 0 l) ++ ((fun i => (c + 1, r + i)) <$> seqZ 0 l).
Proof.
  intros Hd Hp c r l. apply elem_of_contour in Hp as (_ & Hn & q & Hq & [H1 H2]).
  rewrite elem_of_get_dots in Hn. apply elem_of_get_dots in Hq as (i & Hi & Hq).
  fold c r l in Hn, Hi, Hq. destruct p as [a b]. cbn [fst snd] in *.
  apply elem_of_DIRECTION_CHOICES in Hd.
  destruct Hd as [Hd|Hd]; rewrite Hd in *; simpl;
    [destruct Hq as [[_ ->]|[[=] _]]|destruct Hq as [[[=] _]|[_ ->]]];
    cbn [fst snd] in *.
  - destruct (decide (a = c - 1)) as [->|?]; [|destruct (decide (a = c + l)) as [->|?]].
    + assert (b = r - 1 \/ b = r \/ b = r + 1) as [->|[->| ->]] by lia;
        repeat ((by left) || right).
    + assert (b = r - 1 \/ b = r \/ b = r + 1) as [->|[->| ->]] by lia;
        do 3 right; repeat ((by left) || right).
    + assert (b <> r).
      { intros ->. apply Hn. exists (a - c). split; [lia|]. left. split; [done|].
        f_equal. lia. }
      do 6 right. apply elem_of_app.
      assert (b = r - 1 \/ b = r + 1) as [->| ->] by lia; [left|right];
        apply list_elem_of_fmap; exists (a - c); (split; [f_equal; lia|]);
        apply elem_of_seqZ; lia.
  - destruct (decide (b = r - 1)) as [->|?]; [|destruct (decide (b = r + l)) as [->|?]].
    + assert (a = c - 1 \/ a = c \/ a = c + 1) as [->|[->| ->]] by lia;
        repeat ((by left) || right).
    + assert (a = c - 1 \/ a = c \/ a = c + 1) as [->|[->| ->]] by lia;
        do 3 right; repeat ((by left) || right).
    + assert (a <> c).
      { intros ->. apply Hn. exists (b - r). split; [lia|]. right. split; [done|].
        f_equal. lia. }
      do 6 right. apply elem_of_app.
      assert (a = c - 1 \/ a = c + 1) as [->| ->] by lia; [left|right];
        apply list_elem_of_fmap; exists (b - r); (split; [f_equal; lia|]);
        apply elem_of_seqZ; lia.
Qed.

(** X5. The list [contour] returns is fixed up to the order of its
    elements: under two iteration orders of the set the two lists are
    permutations of each other.  For a constructed ship it is never empty
    and has at most [2 * length + 6] coordinates. *)
Theorem contour_size (order order' : set_order) (length : Z) (direction : string)
    (start_point : Dot.t) (health : option Z) (ship : Ship.t) :
  Ship.init length direction start_point health = Return ship ->
  Board.contour order ship ≡ₚ Board.contour order' ship /\
  Board.contour order ship <> [] /\
  Z.of_nat (Datatypes.length (Board.contour order ship)) <= 2 * length + 6.
Proof.
  intros Hinit. apply Ship_init_Return in Hinit as [Es (Hl & Hd & Hin)].
  assert (El : Ship.length ship = length) by (by subst).
  split; [|split].
  - apply NoDup_Permutation; [apply NoDup_contour..|]. intros p.
    by rewrite !elem_of_contour.
  - assert (Hstart : (Dot.column (Ship.start_point ship), Dot.row (Ship.start_point ship))
                     ∈ Ship.get_dots ship).
    { apply elem_of_get_dots. exists 0. split; [lia|].
      apply elem_of_DIRECTION_CHOICES in Hd as [Hd|Hd]; [left|right];
        (split; [done|]); f_equal; lia. }
    set (c := Dot.column (Ship.start_point ship)) in *.
    set (r := Dot.row (Ship.start_point ship)) in *.
    pose proof (Hin _ Hstart) as Hb. apply in_board_true in Hb. cbn [fst snd] in Hb.
    assert (Hex : exists p, p ∈ Board.contour order ship).
    { apply elem_of_DIRECTION_CHOICES in Hd as [Hd|Hd].
      - exists (c, if decide (r < 6) then r + 1 else r - 1).
        apply elem_of_contour. split; [|split].
        + apply in_board_true. cbn [fst snd]. case_decide; lia.
        + rewrite elem_of_get_dots. rewrite Hd. fold c r.
          intros (i & _ & [[_ [=]]|[[=] _]]). case_decide; lia.
        + exists (c, r). split; [done|]. unfold adjacent. cbn [fst snd]. case_decide; lia.
      - exists (if decide (c < 6) then c + 1 else c - 1, r).
        apply elem_of_contour. split; [|split].
        + apply in_board_true. cbn [fst snd]. case_decide; lia.
        + rewrite elem_of_get_dots. rewrite Hd. fold c r.
          intros (i & _ & [[[=] _]|[_ [=]]]). case_decide; lia.
        + exists (c, r). split; [done|]. unfold adjacent. cbn [fst snd]. case_decide; lia. }
    destruct Hex as [p Hp]. intros E. rewrite E in Hp. by apply elem_of_nil in Hp.
  - rewrite <- El.
    pose proof (fun p => contour_in_frame order ship p Hd) as Hframe. cbv zeta in Hframe.
    destruct (bool_decide (Ship.direction ship = "horizontal"));
      match type of Hframe with forall p, _ -> p ∈ ?L =>
        pose proof (submseteq_length _ _
                      (NoDup_submseteq _ L (NoDup_contour order ship) Hframe)) as Hlen
      end;
      rewrite length_app, length_app, !length_fmap, !length_seqZ in Hlen;
      simpl in Hlen; lia.
Qed.

Lemma contour_size_witness :
  Board.contour sorted_order example_ship <> [] /\
  Z.of_nat (Datatypes.length (Board.contour sorted_order example_ship)) <= 2 * 3 + 6.
Proof.
  exact (proj2 (contour_size sorted_order sorted_order 3 "horizontal" (Dot.mk 3 2 hidden)
                  None example_ship eq_refl)).
Defined.

(** ** add_ship: when it goes through, and how two placements compose *)

(** X6. The placement rule in terms of cells: on any board the program
    can reach, [add_ship] refuses a constructed ship as too close exactly
    when some cell of it and some cell of a ship of the fleet are the same
    or touch, by a side or by a corner (columns and rows at most 1 apart). *)
Theorem add_ship_refuses_touching (order : set_order) (n : nat) (self : Board.t)
    (length : Z) (direction : string) (start_point : Dot.t) (health : option Z)
    (ship : Ship.t) :
  history order any_ship n self ->
  Ship.init length direction start_point health = Return ship ->
  Board.add_ship order ship self =
    (self, Raise (IncorrectParametersException add_ship_blocked_message))
  <->
  exists s p q, s ∈ Board.ships_list self /\ p ∈ Ship.get_dots ship /\
                q ∈ Ship.get_dots s /\
                Z.abs (p.1 - q.1) <= 1 /\ Z.abs (p.2 - q.2) <= 1.
Proof.
  intros Hhist Hinit. pose proof (history_inv _ _ _ _ Hhist) as (Hwf & _).
  apply Ship_init_Return in Hinit as [_ (_ & _ & Hin)].
  assert (Habs : forall p q : Z * Z,
            adjacent p q <-> Z.abs (p.1 - q.1) <= 1 /\ Z.abs (p.2 - q.2) <= 1).
  { intros p q. unfold adjacent. lia. }
  setoid_rewrite <- Habs. rewrite <- (blocked_adjacent order self ship Hin). split.
  - intros Hadd. pose proof (add_ship_cases order self ship Hwf Hin) as Hc.
    rewrite Hadd in Hc. by inversion Hc; subst.
  - apply add_ship_blocked.
Qed.

Lemma add_ship_refuses_touching_witness :
  Board.add_ship sorted_order (Ship.mk 1 "horizontal" (Dot.mk 6 3 hidden) 1 []) example_board =
  (example_board, Raise (IncorrectParametersException add_ship_blocked_message)).
Proof.
  apply (add_ship_refuses_touching sorted_order 1 example_board 1 "horizontal"
           (Dot.mk 6 3 hidden) None _ (any_default _ _ _ example_board_history) eq_refl).
  exists (Ship.mk 3 "horizontal" (Dot.mk 3 2 hidden) 1 [(3, 2); (4, 2); (5, 2)]), (6, 3), (5, 2).
  split; [by_compute|]. split; [by_compute|]. split; [by_compute|]. simpl. lia.
Defined.

Lemma exclusion_app order l1 l2 p :
  p ∈ exclusion order (l1 ++ l2) <-> p ∈ exclusion order l1 \/ p ∈ exclusion order l2.
Proof. rewrite !elem_of_exclusion. setoid_rewrite elem_of_app. naive_solver. Qed.

Lemma elem_of_list_remove_ne `{EqDecision A} (a b : A) (l : list A) :
  a <> b -> a ∈ list_remove b l <-> a ∈ l.
Proof.
  intros Hne. induction l as [|y l IH]; [done|]. simpl. case_decide as E.
  - subst y. rewrite elem_of_cons. naive_solver.
  - rewrite !elem_of_cons, IH. done.
Qed.

Lemma elem_of_list_remove_weaken `{EqDecision A} (a b : A) (l : list A) :
  a ∈ list_remove b l -> a ∈ l.
Proof.
  induction l as [|y l IH]; [done|]. simpl. case_decide; rewrite ?elem_of_cons; naive_solver.
Qed.

Lemma list_remove_comm `{EqDecision A} (a b : A) (l : list A) :
  list_remove a (list_remove b l) = list_remove b (list_remove a l).
Proof.
  induction l as [|y l IH]; [done|]. simpl.
  destruct (decide (b = y)) as [->|Hb], (decide (a = y)) as [->|Ha]; simpl;
    rewrite ?decide_True by done; rewrite ?decide_False by done; try done.
  by rewrite IH.
Qed.

(** X7. When [add_ship] goes through: on any board the program can reach,
    the call returns for a constructed ship exactly when no cell of the ship
    is in the exclusion set of the fleet and the length of the ship is still
    in [ship_length_list].  Then every cell of the ship is ["undamaged"],
    every other cell is as it was, and the ship stands last in the fleet with
    its cells bound to it in the order of [get_dots]. *)
Theorem add_ship_returns (order : set_order) (n : nat) (self : Board.t)
    (length : Z) (direction : string) (start_point : Dot.t) (health : option Z)
    (ship : Ship.t) :
  history order any_ship n self ->
  Ship.init length direction start_point health = Return ship ->
  ((exists self', Board.add_ship order ship self = (self', Return tt)) <->
   ~ blocked order self ship /\ Ship.length ship ∈ Board.ship_length_list self) /\
  (forall self', Board.add_ship order ship self = (self', Return tt) ->
     (forall p, p ∈ Ship.get_dots ship -> state_at self' p = Some undamaged) /\
     (forall p, in_board p = true -> p ∉ Ship.get_dots ship ->
        state_at self' p = state_at self p) /\
     last (Board.ships_list self') =
       Some (Ship.mk length direction start_point
               (match health with Some v => v | None => length end)
               (Ship.get_dots ship))).
Proof.
  intros Hhist Hinit. pose proof (history_inv _ _ _ _ Hhist) as (Hwf & _).
  apply Ship_init_Return in Hinit as [Es (_ & _ & Hin)]. split.
  - split.
    + intros [self' Hadd]. by destruct (add_ship_Return _ _ _ _ Hwf Hin Hadd) as (? & ? & _).
    + intros [Hb Hl]. eexists. by apply add_ship_ok.
  - intros self' Hadd. destruct (add_ship_Return _ _ _ _ Hwf Hin Hadd) as (_ & _ & ->).
    split; [|split].
    + intros p Hp. rewrite state_at_indep, state_at_writes by auto. by rewrite decide_True.
    + intros p Hp Hn. rewrite state_at_indep, state_at_writes by auto. by rewrite decide_False.
    + cbn [Board.ships_list]. rewrite last_snoc. f_equal. subst ship. unfold bound. simpl.
      by destruct health.
Qed.

Lemma add_ship_returns_witness :
  exists self',
    Board.add_ship sorted_order (Ship.mk 2 "vertical" (Dot.mk 1 4 hidden) 2 []) example_board
    = (self', Return tt).
Proof.
  apply (proj1 (add_ship_returns sorted_order 1 example_board 2 "vertical" (Dot.mk 1 4 hidden)
                  None _ (any_default _ _ _ example_board_history) eq_refl)).
  split; by_compute.
Defined.

(** X8. Two placements commute.  On a board the program can reach, if
    [add_ship] returns for ship [a] and then for ship [b], it also returns
    for [b] and then for [a], and the two boards agree: the same cell
    states, the same [ship_length_list], and the same fleet but for the
    order of the last two ships. *)
Theorem add_ship_commutes (order : set_order) (n : nat) (self : Board.t)
    (la lb : Z) (da db : string) (pa pb : Dot.t) (ha hb : option Z) (a b : Ship.t)
    (self1 self2 : Board.t) :
  history order any_ship n self ->
  Ship.init la da pa ha = Return a -> Ship.init lb db pb hb = Return b ->
  Board.add_ship order a self = (self1, Return tt) ->
  Board.add_ship order b self1 = (self2, Return tt) ->
  exists self1' self2',
    Board.add_ship order b self = (self1', Return tt) /\
    Board.add_ship order a self1' = (self2', Return tt) /\
    Board.ship_length_list self2' = Board.ship_length_list self2 /\
    (forall p, in_board p = true -> state_at self2' p = state_at self2 p) /\
    Board.ships_list self2 = Board.ships_list self ++ [bound a; bound b] /\
    Board.ships_list self2' = Board.ships_list self ++ [bound b; bound a].
Proof.
  intros Hhist Hinita Hinitb Hadd1 Hadd2.
  pose proof (history_inv _ _ _ _ Hhist) as Hinv. pose proof Hinv as (Hwf & _).
  apply Ship_init_Return in Hinita as [_ Hwfa]. apply Ship_init_Return in Hinitb as [_ Hwfb].
  pose proof Hwfa as (_ & _ & Hina). pose proof Hwfb as (_ & _ & Hinb).
  destruct (add_ship_Return _ _ _ _ Hwf Hina Hadd1) as (Hba & Hla & E1).
  pose proof (inv_add_ship order self a Hinv Hwfa) as Hinv1. rewrite Hadd1 in Hinv1.
  cbn [fst] in Hinv1. pose proof Hinv1 as (Hwf1 & _).
  destruct (add_ship_Return _ _ _ _ Hwf1 Hinb Hadd2) as (Hbb1 & Hlb1 & E2).
  assert (Hsep : separated order b (bound a) /\ separated order (bound a) b).
  { apply (not_blocked_separated order self1 b (bound a) Hinb Hbb1).
    rewrite E1. cbn [Board.ships_list]. set_solver. }
  assert (Hbb : ~ blocked order self b).
  { intros (p & Hp & Hex). apply Hbb1. exists p. split; [done|].
    rewrite E1. cbn [Board.ships_list]. apply exclusion_app. by left. }
  assert (Hlb : Ship.length b ∈ Board.ship_length_list self).
  { rewrite E1 in Hlb1. cbn [Board.ship_length_list] in Hlb1.
    by eapply elem_of_list_remove_weaken. }
  pose proof (add_ship_ok order self b Hwf Hinb Hbb Hlb) as Hadd1'.
  set (self1' := Board.mk _ _ _) in Hadd1'.
  pose proof (inv_add_ship order self b Hinv Hwfb) as Hinv1'. rewrite Hadd1' in Hinv1'.
  cbn [fst] in Hinv1'. pose proof Hinv1' as (Hwf1' & _).
  assert (Hba' : ~ blocked order self1' a).
  { intros (p & Hp & Hex). cbn [self1' Board.ships_list] in Hex.
    apply exclusion_app in Hex as [Hex|Hex].
    - apply Hba. by exists p.
    - apply elem_of_exclusion in Hex as (s & Hs & Hps).
      apply list_elem_of_singleton in Hs as ->.
      destruct Hsep as [_ Hsep]. destruct (Hsep p Hp) as [H1 H2].
      destruct Hps as [Hps|Hps]; [by apply H1|].
      apply H2. apply elem_of_contour. by apply elem_of_contour in Hps. }
  assert (Hla' : Ship.length a ∈ Board.ship_length_list self1').
  { cbn [self1' Board.ship_length_list].
    rewrite E1 in Hlb1. cbn [Board.ship_length_list] in Hlb1.
    destruct (decide (Ship.length a = Ship.length b)) as [E|Hne].
    - by rewrite <- E in *.
    - by apply elem_of_list_remove_ne. }
  pose proof (add_ship_ok order self1' a Hwf1' Hina Hba' Hla') as Hadd2'.
  eexists _, _. split; [exact Hadd1'|]. split; [exact Hadd2'|].
  rewrite E2, E1. cbn [self1' Board.ship_length_list Board.ships_list].
  split; [apply list_remove_comm|]. split; [|by rewrite <- !app_assoc].
  intros p Hp. unfold self1'. rewrite !writes_board_indep, !state_at_indep.
  assert (Hw1 : board_wf (writes self (Ship.get_dots a) undamaged)) by (by apply writes_wf).
  assert (Hw2 : board_wf (writes self (Ship.get_dots b) undamaged)) by (by apply writes_wf).
  rewrite (state_at_writes _ _ _ _ Hw2 Hina Hp), (state_at_writes _ _ _ _ Hw1 Hinb Hp).
  rewrite (state_at_writes self _ _ _ Hwf Hinb Hp), (state_at_writes self _ _ _ Hwf Hina Hp).
  repeat case_decide; done.
Qed.

Lemma add_ship_commutes_witness :
  exists self1' self2',
    Board.add_ship sorted_order (Ship.mk 2 "horizontal" (Dot.mk 1 3 hidden) 2 []) new_board
    = (self1', Return tt) /\
    Board.add_ship sorted_order (Ship.mk 3 "horizontal" (Dot.mk 1 1 hidden) 3 []) self1'
    = (self2', Return tt) /\
    forall p, in_board p = true -> state_at self2' p = state_at (fleet_board 2) p.
Proof.
  destruct (add_ship_commutes sorted_order 0 new_board
              3 2 "horizontal" "horizontal" (Dot.mk 1 1 hidden) (Dot.mk 1 3 hidden) None None
              (Ship.mk 3 "horizontal" (Dot.mk 1 1 hidden) 3 [])
              (Ship.mk 2 "horizontal" (Dot.mk 1 3 hidden) 2 [])
              (fleet_board 1) (fleet_board 2))
    as (self1' & self2' & H1 & H2 & _ & H3 & _).
  - constructor. reflexivity.
  - reflexivity.
  - reflexivity.
  - vm_compute. reflexivity.
  - vm_compute. reflexivity.
  - exists self1', self2'. split; [exact H1|]. split; [exact H2|exact H3].
Defined.

(** ** The composition of the fleet *)

Lemma history_fleet_lengths order allowed n self :
  history order allowed n self ->
  (Ship.length <$> Board.ships_list self) ++ Board.ship_length_list self
  ⊆+ [3; 2; 2; 1; 1; 1; 1].
Proof.
  induction 1 as [b Hb|n self ship self' Hhist IH (_ & _ & Hin) _ Hadd
                 |n self ship self' e Hhist IH (_ & _ & Hin) _ Hadd|n self c r Hhist IH].
  - by destruct (Board_init_spec b Hb) as (_ & -> & ->).
  - pose proof (history_inv _ _ _ _ Hhist) as (Hwf & _).
    destruct (add_ship_Return _ _ _ _ Hwf Hin Hadd) as (_ & Hlen & ->).
    cbn [Board.ships_list Board.ship_length_list].
    rewrite fmap_app, <- app_assoc. simpl.
    change (Ship.length (bound ship)) with (Ship.length ship).
    by rewrite <- (list_remove_elem _ _ Hlen).
  - pose proof (history_inv _ _ _ _ Hhist) as (Hwf & _).
    by destruct (add_ship_Raise _ _ _ _ _ Hwf Hin Hadd) as [-> _].
  - pose proof (history_inv _ _ _ _ Hhist) as Hinv. pose proof Hinv as (Hwf & _).
    rewrite shot_ship_length_list by done.
    etrans; [|exact IH]. apply submseteq_skips_r.
    destruct (shot_cases order self c r Hinv)
      as [Hp|st Hp Hst Hst'|Hp Hst|Hp Hst Hno|pre i post Hp Hst Hsplit Hpi Hh
         |pre i post Hp Hst Hsplit Hpi Hh|pre i post Hp Hst Hsplit Hpi Hh]; cbn [fst];
      try done;
      try (by destruct (set_state_wf self (c, r) missed Hwf Hp) as (_ & -> & _));
      try (by destruct (set_state_wf self (c, r) damaged Hwf Hp) as (_ & -> & _)).
    + cbn [Board.with_ships_list Board.ships_list]. rewrite Hsplit.
      by rewrite !fmap_app, !fmap_cons.
    + cbn [Board.ships_list]. rewrite Hsplit. rewrite !fmap_app, !fmap_cons.
      apply submseteq_skips_l. by apply submseteq_cons.
Qed.

(** X9. The fleet keeps to its fixed composition.  After placements only,
    the lengths of the ships placed and the lengths left in
    [ship_length_list] are together the lengths 3, 2, 2, 1, 1, 1, 1.  On any
    board the program can reach, the lengths of the ships of the fleet and
    the lengths left are among those seven: the fleet never has more than
    seven ships, nor more ships of a length than the list allows. *)
Theorem fleet_keeps_composition (order : set_order) :
  (forall placed self, placements order placed self ->
     (Ship.length <$> placed) ++ Board.ship_length_list self ≡ₚ [3; 2; 2; 1; 1; 1; 1]) /\
  (forall n self, history order any_ship n self ->
     (Ship.length <$> Board.ships_list self) ++ Board.ship_length_list self
     ⊆+ [3; 2; 2; 1; 1; 1; 1] /\
     (Datatypes.length (Board.ships_list self) + Datatypes.length (Board.ship_length_list self)
      <= 7)%nat).
Proof.
  split.
  - induction 1 as [b Hb|placed self ship self' Hpl IH (_ & _ & Hin) Hadd].
    + by destruct (Board_init_spec b Hb) as (_ & _ & ->).
    + pose proof (history_inv _ _ _ _ (placements_history _ _ _ Hpl)) as (Hwf & _).
      destruct (add_ship_Return _ _ _ _ Hwf Hin Hadd) as (_ & Hlen & ->).
      cbn [Board.ship_length_list]. rewrite fmap_app, <- app_assoc. simpl.
      by rewrite <- (list_remove_elem _ _ Hlen).
  - intros n self Hhist. pose proof (history_fleet_lengths _ _ _ _ Hhist) as Hsub.
    split; [done|]. apply submseteq_length in Hsub.
    rewrite length_app, length_fmap in Hsub. simpl in Hsub. lia.
Qed.

Lemma fleet_keeps_composition_witness :
  (Ship.length <$> Board.ships_list (fleet_board 7)) ++ Board.ship_length_list (fleet_board 7)
  ⊆+ [3; 2; 2; 1; 1; 1; 1].
Proof.
  exact (proj1 (proj2 (fleet_keeps_composition sorted_order) 7%nat (fleet_board 7)
                  (any_default _ _ _ fleet_board_history))).
Defined.

(** ** shot: what a call changes *)

Lemma elem_of_all_cells p : p ∈ all_cells <-> in_board p = true.
Proof.
  rewrite in_board_true. unfold all_cells. rewrite list_elem_of_bind. split.
  - intros (c & Hp & Hc). apply list_elem_of_bind in Hp as (r & Hp & Hr).
    apply list_elem_of_singleton in Hp as ->. apply elem_of_seqZ in Hc, Hr. simpl. lia.
  - intros [Hc Hr]. exists p.1. rewrite elem_of_seqZ. split; [|lia].
    apply list_elem_of_bind. exists p.2. rewrite elem_of_seqZ. split; [|lia].
    destruct p. set_solver.
Qed.

Lemma filter_length_le {A} (P Q : A -> Prop) `{!forall x, Decision (P x)}
    `{!forall x, Decision (Q x)} (l : list A) :
  (forall x, x ∈ l -> Q x -> P x) ->
  (length (filter Q l) <= length (filter P l))%nat.
Proof.
  induction l as [|x l IH]; intros Hall; [done|].
  rewrite !filter_cons.
  assert (IH' : (length (filter Q l) <= length (filter P l))%nat).
  { apply IH. intros y Hy. apply Hall. set_solver. }
  assert (Hx : Q x -> P x) by (apply Hall; set_solver).
  destruct (decide (Q x)), (decide (P x)); simpl; try lia. tauto.
Qed.

Lemma filter_length_lt {A} (P Q : A -> Prop) `{!forall x, Decision (P x)}
    `{!forall x, Decision (Q x)} (l : list A) (a : A) :
  (forall x, x ∈ l -> Q x -> P x) -> a ∈ l -> P a -> ~ Q a ->
  (length (filter Q l) < length (filter P l))%nat.
Proof.
  induction l as [|x l IH]; intros Hall Ha HP HQ; [by apply elem_of_nil in Ha|].
  rewrite !filter_cons.
  assert (Hle : (length (filter Q l) <= length (filter P l))%nat).
  { apply filter_length_le. intros y Hy. apply Hall. set_solver. }
  assert (Hx : Q x -> P x) by (apply Hall; set_solver).
  apply elem_of_cons in Ha as [<-|Ha].
  - rewrite decide_False, decide_True by done. simpl. lia.
  - assert (IH' : (length (filter Q l) < length (filter P l))%nat).
    { apply IH; try done. intros y Hy. apply Hall. set_solver. }
    destruct (decide (Q x)), (decide (P x)); simpl; try lia. tauto.
Qed.

(** What a shot does to the fleet and to the cells, case by case. *)
Lemma shot_effect order self column row :
  inv order self ->
  let self' := (Board.shot order column row self).1 in
  let res := (Board.shot order column row self).2 in
  Board.ship_length_list self' = Board.ship_length_list self /\
  (length (Board.ships_list self') = length (Board.ships_list self) \/
   S (length (Board.ships_list self')) = length (Board.ships_list self)) /\
  (forall p, in_board p = true -> p <> (column, row) ->
     state_at self' p = state_at self p \/
     (state_at self' p = Some missed /\
      S (length (Board.ships_list self')) = length (Board.ships_list self))) /\
  (res = Return true ->
     state_at self (column, row) = Some undamaged /\
     state_at self' (column, row) = Some damaged) /\
  (res = Return false ->
     state_at self (column, row) = Some hidden /\
     state_at self' (column, row) = Some missed).
Proof.
  intros Hinv. pose proof Hinv as (Hwf & Hsep & Hships). cbv zeta.
  split; [by apply shot_ship_length_list|].
  destruct (shot_cases order self column row Hinv)
    as [Hp|st Hp Hst Hst'|Hp Hst|Hp Hst Hno|pre i post Hp Hst Hsplit Hpi Hh
       |pre i post Hp Hst Hsplit Hpi Hh|pre i post Hp Hst Hsplit Hpi Hh]; cbn [fst snd].
  - repeat split; auto; done.
  - repeat split; auto; done.
  - destruct (set_state_wf self (column, row) missed Hwf Hp) as (_ & -> & _).
    split; [by left|]. split; [|split; [done|]].
    + intros p Hpb Hne. left. rewrite state_at_write by done. by rewrite decide_False.
    + intros _. split; [done|]. rewrite state_at_write by done. by rewrite decide_True.
  - destruct (set_state_wf self (column, row) damaged Hwf Hp) as (_ & -> & _).
    split; [by left|]. split; [|split; [|done]].
    + intros p Hpb Hne. left. rewrite state_at_write by done. by rewrite decide_False.
    + intros _. split; [done|]. rewrite state_at_write by done. by rewrite decide_True.
  - destruct (set_state_wf self (column, row) damaged Hwf Hp) as (_ & -> & _).
    split; [by left|]. split; [|split; done].
    intros p Hpb Hne. left. rewrite state_at_write by done. by rewrite decide_False.
  - cbn [Board.with_ships_list Board.ships_list]. unfold Board.with_ships_list.
    rewrite Hsplit, !length_app. cbn [length].
    split; [by left|]. split; [|split; [|done]].
    + intros p Hpb Hne. left. rewrite state_at_indep, state_at_write by done.
      by rewrite decide_False.
    + intros _. split; [done|]. rewrite state_at_indep, state_at_write by done.
      by rewrite decide_True.
  - cbn [Board.ships_list]. rewrite Hsplit, !length_app. cbn [length].
    split; [right; lia|]. split; [|split; [|done]].
    + intros p Hpb Hne. rewrite state_at_indep, state_at_sunk by done.
      case_decide; [right; split; [done|lia]|left]. by rewrite decide_False.
    + intros _. split; [done|]. rewrite state_at_indep, state_at_sunk by done.
      rewrite decide_False; [by rewrite decide_True|].
      intros Hc. by apply elem_of_contour in Hc as (_ & ? & _).
Qed.

(** X10. What one call of [shot] changes, on any board the program can
    reach.  It never touches [ship_length_list]; the fleet keeps its size or
    loses one ship; a cell other than the target keeps its state, unless a
    ship is lost, and then it keeps it or becomes ["missed"].  When the call
    returns [True] the target was ["undamaged"] and is ["damaged"]; when it
    returns [False] the target was ["hidden"] and is ["missed"]. *)
Theorem shot_changes (order : set_order) (n : nat) (self : Board.t) (column row : Z)
    (self' : Board.t) (res : result bool) :
  history order any_ship n self ->
  Board.shot order column row self = (self', res) ->
  Board.ship_length_list self' = Board.ship_length_list self /\
  (length (Board.ships_list self') = length (Board.ships_list self) \/
   S (length (Board.ships_list self')) = length (Board.ships_list self)) /\
  (forall p, in_board p = true -> p <> (column, row) ->
     state_at self' p = state_at self p \/
     (state_at self' p = Some missed /\
      S (length (Board.ships_list self')) = length (Board.ships_list self))) /\
  (res = Return true ->
     state_at self (column, row) = Some undamaged /\
     state_at self' (column, row) = Some damaged) /\
  (res = Return false ->
     state_at self (column, row) = Some hidden /\
     state_at self' (column, row) = Some missed).
Proof.
  intros Hhist Hshot. pose proof (shot_effect order self column row (history_inv _ _ _ _ Hhist)) as H.
  by rewrite Hshot in H.
Qed.

Lemma shot_changes_witness :
  state_at example_board (5, 2) = Some undamaged /\
  state_at (Board.shot sorted_order 5 2 example_board).1 (5, 2) = Some damaged.
Proof.
  destruct (Board.shot sorted_order 5 2 example_board) as [self' res] eqn:E.
  assert (Hres : res = Return true).
  { vm_compute in E. injection E as _ <-. reflexivity. }
  exact (proj1 (proj2 (proj2 (proj2 (shot_changes sorted_order 1 example_board 5 2 self' res
           (any_default _ _ _ example_board_history) E)))) Hres).
Defined.

(** X11. Every shot that returns settles at least one more cell: the
    number of cells that are still ["hidden"] or ["undamaged"] goes down with
    each returning call of [shot], never goes up with a call that raises,
    and is at most 36. *)
Theorem shot_settles_cells (order : set_order) (n : nat) (self : Board.t) (column row : Z)
    (self' : Board.t) (res : result bool) :
  history order any_ship n self ->
  Board.shot order column row self = (self', res) ->
  (length (open_cells self') <= length (open_cells self) <= 36)%nat /\
  (forall hit, res = Return hit ->
     (length (open_cells self') < length (open_cells self))%nat).
Proof.
  intros Hhist Hshot. pose proof (history_inv _ _ _ _ Hhist) as Hinv.
  pose proof Hinv as (Hwf & _).
  pose proof (shot_effect order self column row Hinv) as H. rewrite Hshot in H.
  cbn [fst snd] in H. destruct H as (_ & _ & Hother & Htrue & Hfalse).
  assert (Hmono : forall p, p ∈ all_cells ->
            state_at self' p = Some hidden \/ state_at self' p = Some undamaged ->
            state_at self p = Some hidden \/ state_at self p = Some undamaged).
  { intros p Hp Hopen. apply elem_of_all_cells in Hp.
    destruct (decide (p = (column, row))) as [->|Hne].
    - destruct res as [[|]|e].
      + destruct (Htrue eq_refl) as [_ Hd]. rewrite Hd in Hopen. destruct Hopen; done.
      + destruct (Hfalse eq_refl) as [_ Hd]. rewrite Hd in Hopen. destruct Hopen; done.
      + pose proof (shot_cases order self column row Hinv) as Hc. rewrite Hshot in Hc.
        inversion Hc; subst; auto.
    - destruct (Hother p Hp Hne) as [E|[E _]]; rewrite E in Hopen; [done|].
      destruct Hopen; done. }
  split; [split|].
  - by apply filter_length_le.
  - etrans; [apply length_filter|]. done.
  - intros hit ->. apply (filter_length_lt _ _ _ (column, row)); [done| | |].
    + apply elem_of_all_cells.
      destruct (in_board (column, row)) eqn:Hp; [done|].
      rewrite shot_outside in Hshot by done. congruence.
    + destruct hit; [destruct (Htrue eq_refl)|destruct (Hfalse eq_refl)]; auto.
    + destruct hit; [destruct (Htrue eq_refl) as [_ E]|destruct (Hfalse eq_refl) as [_ E]];
        rewrite E; intros [?|?]; done.
Qed.

Lemma shot_settles_cells_witness :
  (length (open_cells (Board.shot sorted_order 5 2 example_board).1)
   < length (open_cells example_board))%nat.
Proof.
  destruct (Board.shot sorted_order 5 2 example_board) as [self' res] eqn:E.
  assert (Hres : res = Return true).
  { vm_compute in E. injection E as _ <-. reflexivity. }
  exact (proj2 (shot_settles_cells sorted_order 1 example_board 5 2 self' res
                  (any_default _ _ _ example_board_history) E) true Hres).
Defined.



(** ** print_board *)

Lemma in_board_cases (p : Z * Z) :
  in_board p = true ->
  (p.1 = 1 \/ p.1 = 2 \/ p.1 = 3 \/ p.1 = 4 \/ p.1 = 5 \/ p.1 = 6) /\
  (p.2 = 1 \/ p.2 = 2 \/ p.2 = 3 \/ p.2 = 4 \/ p.2 = 5 \/ p.2 = 6).
Proof. rewrite in_board_true. lia. Qed.

Ltac each_cell p H :=
  destruct p as [?c ?r]; apply in_board_cases in H; cbn [fst snd] in H;
  destruct H as [[->|[->|[->|[->|[->| ->]]]]] [->|[->|[->|[->|[->| ->]]]]]].

Lemma state_at_grid f ships lens p :
  in_board p = true -> state_at (Board.mk (grid f) ships lens) p = Some (f p).
Proof. intros Hp. each_cell p Hp; reflexivity. Qed.

Lemma write_grid f ships lens p value :
  in_board p = true ->
  write (Board.mk (grid f) ships lens) p value =
  Board.mk (grid (fun q => if decide (q = p) then value else f q)) ships lens.
Proof. intros Hp. each_cell p Hp; reflexivity. Qed.

Lemma writes_grid self l value :
  (exists f, Board.board self = grid f) -> (forall p, p ∈ l -> in_board p = true) ->
  exists f, Board.board (writes self l value) = grid f.
Proof.
  revert self. induction l as [|p l IH]; intros self Hg Hl; [done|].
  cbn [writes foldl]. fold (writes (write self p value) l value).
  apply IH; [|intros q Hq; apply Hl; set_solver].
  destruct Hg as [f Hf]. destruct self as [g ships lens]. simpl in Hf. subst g.
  rewrite write_grid by (apply Hl; set_solver). by eexists.
Qed.

Lemma history_grid order allowed n self :
  history order allowed n self -> exists f, Board.board self = grid f.
Proof.
  induction 1 as [b Hb|n self ship self' Hhist IH (_ & _ & Hin) _ Hadd
                 |n self ship self' e Hhist IH (_ & _ & Hin) _ Hadd|n self c r Hhist IH].
  - vm_compute in Hb. injection Hb as <-. by exists (fun _ => hidden).
  - pose proof (history_inv _ _ _ _ Hhist) as (Hwf & _).
    destruct (add_ship_Return _ _ _ _ Hwf Hin Hadd) as (_ & _ & ->).
    cbn [Board.board]. by apply writes_grid.
  - pose proof (history_inv _ _ _ _ Hhist) as (Hwf & _).
    by destruct (add_ship_Raise _ _ _ _ _ Hwf Hin Hadd) as [-> _].
  - pose proof (history_inv _ _ _ _ Hhist) as Hinv.
    assert (Hw : forall p v, in_board p = true -> exists f, Board.board (write self p v) = grid f).
    { intros p v Hp. apply (writes_grid self [p] v IH). intros q Hq.
      by apply list_elem_of_singleton in Hq as ->. }
    destruct (shot_cases order self c r Hinv)
      as [Hp|st Hp Hst Hst'|Hp Hst|Hp Hst Hno|pre i post Hp Hst Hsplit Hpi Hh
         |pre i post Hp Hst Hsplit Hpi Hh|pre i post Hp Hst Hsplit Hpi Hh]; cbn [fst];
      auto.
    + cbn [Board.with_ships_list Board.board]. auto.
    + cbn [Board.board]. apply writes_grid; [auto|].
      intros q Hq. by apply elem_of_contour in Hq as [? _].
Qed.

Lemma board_text_ext hidden_ f f' :
  (forall p, in_board p = true -> f p = f' p) -> board_text hidden_ f = board_text hidden_ f'.
Proof.
  intros H. unfold board_text.
  change (seqZ 1 6) with [1; 2; 3; 4; 5; 6]. cbn [mbind list_bind fmap list_fmap app].
  rewrite !H by reflexivity. reflexivity.
Qed.

Lemma print_run args end_ out :
  print args end_ out = (out ++ [String.concat " " args +:+ end_], Return tt).
Proof. done. Qed.

Lemma print_header (l : list Z) out :
  for_ (Board.Label <$> l) (fun i => print [Board.entry_str i] " | ") out =
  (out ++ ((fun n => str_int n +:+ " | ") <$> l), Return tt).
Proof.
  revert out. induction l as [|n l IH]; intros out; cbn [fmap list_fmap for_].
  - by rewrite app_nil_r.
  - unfold bind at 1. rewrite print_run. change (list_fmap _ _ ?f ?l) with (f <$> l).
    rewrite IH, <- app_assoc. done.
Qed.

Lemma print_cells hidden_ f r (l : list Z) out :
  for_ ((fun c => Board.Cell (Dot.mk c r (f (c, r)))) <$> l) (Board.print_cell hidden_) out =
  (out ++ ((fun c => shown hidden_ (f (c, r)) +:+ " | ") <$> l), Return tt).
Proof.
  revert out. induction l as [|c l IH]; intros out; cbn [fmap list_fmap for_].
  - by rewrite app_nil_r.
  - unfold bind at 1. change (list_fmap _ _ ?f ?l) with (f <$> l).
    assert (Board.print_cell hidden_ (Board.Cell (Dot.mk c r (f (c, r)))) out
            = (out ++ [shown hidden_ (f (c, r)) +:+ " | "], Return tt)) as ->.
    { unfold Board.print_cell, shown. cbn [Dot.state].
      destruct hidden_; [|done]. simpl. by case_bool_decide. }
    rewrite IH, <- app_assoc. done.
Qed.

Lemma print_rows hidden_ f (rs : list Z) out :
  for_ ((fun r => Board.Label r :: ((fun c => Board.Cell (Dot.mk c r (f (c, r)))) <$> seqZ 1 6))
          <$> rs)
       (fun i => i0 ← lift (py_get i 0);
                 print [nl; Board.entry_str i0] " | ";;
                 for_ (drop 1 i) (Board.print_cell hidden_)) out =
  (out ++ (r ← rs;
           (nl +:+ " " +:+ str_int r +:+ " | ")
           :: ((fun c => shown hidden_ (f (c, r)) +:+ " | ") <$> seqZ 1 6)),
   Return tt).
Proof.
  revert out. induction rs as [|r rs IH]; intros out; cbn [fmap list_fmap for_].
  - by rewrite app_nil_r.
  - unfold bind at 1. change (list_fmap _ _ ?f ?l) with (f <$> l).
    rewrite bind_run. unfold lift at 1.
    change (py_get (Board.Label r :: _) 0) with (Return (A := Board.entry) (Board.Label r)).
    cbn beta iota. rewrite bind_run, print_run. cbn [drop]. rewrite drop_0.
    rewrite print_cells. rewrite IH. cbn [mbind list_bind]. f_equal.
    rewrite <- !app_assoc. done.
Qed.

Lemma print_grid hidden_ f ships lens out :
  Board.print_board hidden_ (Board.mk (grid f) ships lens) out =
  (out ++ board_text hidden_ f, Return tt).
Proof.
  unfold Board.print_board. rewrite bind_run, print_run. rewrite bind_run.
  unfold lift at 1. cbn [Board.board].
  change (py_get (grid f) 0) with (Return (A := list Board.entry) (Board.Label <$> seqZ 1 6)).
  cbn beta iota. rewrite bind_run, print_header. rewrite bind_run.
  change (drop 1 (grid f))
    with ((fun r => Board.Label r :: ((fun c => Board.Cell (Dot.mk c r (f (c, r)))) <$> seqZ 1 6))
            <$> seqZ 1 6).
  rewrite print_rows. rewrite print_run. f_equal. unfold board_text.
  rewrite <- !app_assoc. done.
Qed.

Lemma print_board_history order allowed n self hidden_ out :
  history order allowed n self ->
  Board.print_board hidden_ self out = (out ++ board_text hidden_ (cell_state self), Return tt).
Proof.
  intros Hhist. destruct (history_grid _ _ _ _ Hhist) as [f Hf].
  destruct self as [g ships lens]. simpl in Hf. subst g.
  rewrite print_grid. rewrite (board_text_ext hidden_ f (cell_state (Board.mk (grid f) ships lens))); [done|].
  intros p Hp. unfold cell_state. by rewrite state_at_grid.
Qed.

Lemma elem_of_board_text hidden_ f chunk :
  chunk ∈ board_text hidden_ f <->
  chunk = nl +:+ "   | " \/ chunk = nl +:+ nl \/
  (exists n, 1 <= n <= 6 /\ chunk = str_int n +:+ " | ") \/
  (exists r, 1 <= r <= 6 /\ chunk = nl +:+ " " +:+ str_int r +:+ " | ") \/
  (exists p, in_board p = true /\ chunk = shown hidden_ (f p) +:+ " | ").
Proof.
  unfold board_text.
  assert (Hl : forall x, x ∈ seqZ 1 6 <-> 1 <= x <= 6) by (intros x; rewrite elem_of_seqZ; lia).
  revert Hl. generalize (seqZ 1 6). intros l Hl.
  rewrite !elem_of_app, list_elem_of_bind, list_elem_of_fmap, !list_elem_of_singleton.
  split.
  - intros [->|[(n & -> & Hn)|[(r & Hc & Hr)| ->]]]; auto.
    + right; right; left. exists n. by rewrite <- Hl.
    + apply elem_of_cons in Hc as [->|Hc].
      * right; right; right; left. exists r. by rewrite <- Hl.
      * apply list_elem_of_fmap in Hc as (c & -> & Hc).
        right; right; right; right. exists (c, r). split; [|done].
        apply in_board_true. apply Hl in Hc, Hr. simpl. lia.
  - intros [->|[->|[(n & Hn & ->)|[(r & Hr & ->)|([c r] & Hp & ->)]]]]; auto.
    + right; left. exists n. by rewrite Hl.
    + right; right; left. exists r. rewrite Hl. split; [by left|done].
    + apply in_board_true in Hp. simpl in Hp.
      right; right; left. exists r. rewrite Hl. split; [|lia].
      right. apply list_elem_of_fmap. exists c. rewrite Hl. split; [done|lia].
Qed.

(** X13. [print_board] on any board the program can reach: it returns,
    having written the header and then, row by row, the number of the row
    and one mark per cell.  With [hidden] set the marks depend only on which
    cells are ["damaged"] and which are ["missed"] -- two boards that agree
    on these print the same text -- and no ship mark is written; without it
    a ship mark is written exactly when some cell is ["undamaged"]. *)
Theorem print_board_shows (order : set_order) (n : nat) (self : Board.t) (out : stdout) :
  history order any_ship n self ->
  (forall hidden_,
     Board.print_board hidden_ self out =
     (out ++ board_text hidden_ (cell_state self), Return tt)) /\
  (forall n' self',
     history order any_ship n' self' ->
     (forall p, in_board p = true ->
        (state_at self p = Some damaged <-> state_at self' p = Some damaged) /\
        (state_at self p = Some missed <-> state_at self' p = Some missed)) ->
     Board.print_board true self' out = Board.print_board true self out) /\
  ("■ | " ∉ board_text true (cell_state self)) /\
  ("■ | " ∈ board_text false (cell_state self) <->
   exists p, in_board p = true /\ state_at self p = Some undamaged).
Proof.
  intros Hhist.
  pose proof (history_inv _ _ _ _ Hhist) as (Hwf & _).
  assert (Hcs : forall b p st, state_at b p = Some st -> cell_state b p = st).
  { intros b p st H. unfold cell_state. by rewrite H. }
  assert (Hnot : forall hidden_ f,
            "■ | " ∈ board_text hidden_ f ->
            exists p, in_board p = true /\ shown hidden_ (f p) = "■").
  { intros hidden_ f Hin.
    apply elem_of_board_text in Hin
      as [Hin|[Hin|[(k & Hk & Hin)|[(r & Hr & Hin)|(p & Hp & Hin)]]]];
      try discriminate Hin.
    - exfalso. assert (k = 1 \/ k = 2 \/ k = 3 \/ k = 4 \/ k = 5 \/ k = 6)
        as [->|[->|[->|[->|[->| ->]]]]] by lia; discriminate Hin.
    - exists p. split; [done|]. destruct hidden_, (f p); simpl in *; (done || discriminate Hin). }
  split; [|split; [|split]].
  - intros hidden_. by eapply print_board_history.
  - intros n' self' Hhist' Hagree.
    pose proof (history_inv _ _ _ _ Hhist') as (Hwf' & _).
    rewrite (print_board_history _ _ _ _ true out Hhist),
            (print_board_history _ _ _ _ true out Hhist').
    f_equal. f_equal. unfold board_text.
    change (seqZ 1 6) with [1; 2; 3; 4; 5; 6]. cbn [mbind list_bind fmap list_fmap app].
    assert (Hsh : forall p, in_board p = true ->
              shown true (cell_state self' p) = shown true (cell_state self p)).
    { intros p Hp. destruct (Hagree p Hp) as [Hd Hm].
      destruct (state_at_is_Some self p Hwf Hp) as [st Hst].
      destruct (state_at_is_Some self' p Hwf' Hp) as [st' Hst'].
      rewrite (Hcs _ _ _ Hst), (Hcs _ _ _ Hst'). rewrite Hst, Hst' in Hd, Hm.
      destruct st, st'; try done;
        (destruct Hd as [Hd1 Hd2]; destruct Hm as [Hm1 Hm2];
         first [by specialize (Hd1 eq_refl) | by specialize (Hd2 eq_refl)
               | by specialize (Hm1 eq_refl) | by specialize (Hm2 eq_refl)]). }
    rewrite !Hsh by reflexivity. reflexivity.
  - intros Hin. destruct (Hnot _ _ Hin) as (p & _ & Hs).
    destruct (cell_state self p); discriminate Hs.
  - split.
    + intros Hin. destruct (Hnot _ _ Hin) as (p & Hp & Hs). exists p. split; [done|].
      destruct (state_at_is_Some self p Hwf Hp) as [st Hst].
      rewrite (Hcs _ _ _ Hst) in Hs. rewrite Hst. destruct st; (done || discriminate Hs).
    + intros (p & Hp & Hu). apply elem_of_board_text. do 4 right. exists p.
      split; [done|]. by rewrite (Hcs _ _ _ Hu).
Qed.

Lemma print_board_shows_witness :
  "■ | " ∈ board_text false (cell_state example_board).
Proof.
  apply (proj2 (proj2 (proj2 (print_board_shows sorted_order 1 example_board []
                                (any_default _ _ _ example_board_history))))).
  exists (5, 2). split; reflexivity.
Defined.

(** ** Player.move *)

Lemma move_refused order player q rest b out b' e text :
  Board.shot order q.1 q.2 b = (b', Raise e) ->
  (exists m, e = BoardOutException m /\ text = BoardOutException_str m) \/
  (exists m, e = IncorrectParametersException m /\ text = IncorrectParametersException_str m) ->
  Player.move order player (q :: rest) (Player.mk b out) =
  (Player.refused player text;; Player.move order player rest) (Player.mk b' out).
Proof.
  intros Hshot He. cbn [Player.move]. unfold try_except.
  rewrite bind_run. unfold Player.on_board at 1. cbn [Player.enemy_board Player.out].
  rewrite Hshot. by destruct He as [(m & -> & ->)|(m & -> & ->)].
Qed.

Lemma print_enemy_board_run order allowed n b hidden_ out :
  history order allowed n b ->
  Player.print_enemy_board hidden_ (Player.mk b out) =
  (Player.mk b (out ++ board_text hidden_ (cell_state b)), Return tt).
Proof.
  intros Hhist. unfold Player.print_enemy_board. rewrite bind_run.
  unfold gets at 1. cbn [Player.enemy_board]. unfold Player.on_out.
  cbn [Player.enemy_board Player.out].
  by rewrite (print_board_history _ _ _ _ hidden_ out Hhist).
Qed.

Lemma refused_run order allowed n b player q out :
  history order allowed n b ->
  Player.refused player (refusal_text q) (Player.mk b out) =
  (Player.mk b (out ++ refusals player b [q]), Return tt).
Proof.
  intros Hhist. unfold Player.refused, refusals. case_bool_decide.
  - rewrite bind_run. unfold Player.on_out at 1. cbn [Player.enemy_board Player.out].
    rewrite print_run. cbn [String.concat].
    rewrite (print_enemy_board_run _ _ _ _ _ _ Hhist).
    cbn [mbind list_bind]. by rewrite app_nil_r, <- app_assoc.
  - by rewrite app_nil_r.
Qed.

Lemma refused_answer_shot order b q :
  inv order b -> refused_answer b q ->
  exists e,
    Board.shot order q.1 q.2 b = (b, Raise e) /\
    ((exists m, e = BoardOutException m /\ refusal_text q = BoardOutException_str m) \/
     (exists m, e = IncorrectParametersException m /\
                refusal_text q = IncorrectParametersException_str m)).
Proof.
  intros Hinv Hq. destruct q as [c r]. cbn [fst snd]. unfold refusal_text.
  pose proof (shot_cases order b c r Hinv) as Hc.
  destruct (in_board (c, r)) eqn:Hp.
  - assert (Hst : state_at b (c, r) = Some damaged \/ state_at b (c, r) = Some missed)
      by (destruct Hq as [?|?]; [congruence|done]).
    inversion Hc as [Hp'|st Hp' Hst' Hst'' Heq|Hp' Hst' Heq|Hp' Hst' Hno Heq
                    |pre i post Hp' Hst' Hsplit Hpi Hh Heq
                    |pre i post Hp' Hst' Hsplit Hpi Hh Heq
                    |pre i post Hp' Hst' Hsplit Hpi Hh Heq];
      try (destruct Hst; congruence).
    eexists. split; [done|]. right. by eexists.
  - inversion Hc as [Hp' Heq|st Hp'|Hp'|Hp'|pre i post Hp'|pre i post Hp'|pre i post Hp'];
      try congruence.
    eexists. split; [done|]. left. by eexists.
Qed.

Lemma refusals_app player b qs qs' :
  refusals player b (qs ++ qs') = refusals player b qs ++ refusals player b qs'.
Proof. unfold refusals. case_bool_decide; [apply bind_app|done]. Qed.

Lemma move_skips order allowed n player b qs rest out :
  history order allowed n b ->
  Forall (refused_answer b) qs ->
  Player.move order player (qs ++ rest) (Player.mk b out) =
  Player.move order player rest (Player.mk b (out ++ refusals player b qs)).
Proof.
  intros Hhist Hqs. revert out. induction Hqs as [|q qs Hq _ IH]; intros out.
  - unfold refusals. by destruct (bool_decide _); rewrite app_nil_r.
  - pose proof (history_inv _ _ _ _ Hhist) as Hinv.
    destruct (refused_answer_shot order b q Hinv Hq) as (e & Hshot & He).
    cbn [app]. rewrite (move_refused _ _ _ _ _ _ _ _ _ Hshot He).
    rewrite bind_run, (refused_run _ _ _ _ _ _ _ Hhist). rewrite IH.
    change (q :: qs) with ([q] ++ qs). by rewrite refusals_app, app_assoc.
Qed.

Lemma move_performed order allowed n player b q rest out b' hit :
  history order allowed n b ->
  Board.shot order q.1 q.2 b = (b', Return hit) ->
  Player.move order player (q :: rest) (Player.mk b out) =
  if bool_decide (player = "user") then
    (Player.mk b' (out ++ [hit_line "You" q; "Enemy's board:" +:+ nl]
                       ++ board_text true (cell_state b')),
     Return (Some hit))
  else if bool_decide (player = "computer") then
    (Player.mk b' (out ++ [hit_line "Computer" q; "Your board:" +:+ nl]
                       ++ board_text false (cell_state b')),
     Return (Some hit))
  else (Player.mk b' out, Raise (GameplayException "Player can be user or computer")).
Proof.
  intros Hhist Hshot.
  assert (Hhist' : history order allowed n b').
  { replace b' with (Board.shot order q.1 q.2 b).1 by (by rewrite Hshot).
    by apply history_shot. }
  cbn [Player.move]. unfold try_except.
  rewrite bind_run. unfold Player.on_board at 1. cbn [Player.enemy_board Player.out].
  rewrite Hshot. cbn beta iota. rewrite bind_run.
  destruct (bool_decide (player = "user")); [|destruct (bool_decide (player = "computer"))].
  - rewrite bind_run. unfold Player.on_out at 1. cbn [Player.enemy_board Player.out].
    rewrite print_run. cbn beta iota. rewrite bind_run.
    unfold Player.on_out at 1. cbn [Player.enemy_board Player.out].
    rewrite print_run. cbn beta iota.
    rewrite (print_enemy_board_run _ _ _ _ _ _ Hhist'). cbn beta iota.
    rewrite <- !app_assoc. destruct hit; reflexivity.
  - rewrite bind_run. unfold Player.on_out at 1. cbn [Player.enemy_board Player.out].
    rewrite print_run. cbn beta iota. rewrite bind_run.
    unfold Player.on_out at 1. cbn [Player.enemy_board Player.out].
    rewrite print_run. cbn beta iota.
    rewrite (print_enemy_board_run _ _ _ _ _ _ Hhist'). cbn beta iota.
    rewrite <- !app_assoc. destruct hit; reflexivity.
  - done.
Qed.

Lemma shot_returns_hit order b q b' hit :
  inv order b -> Board.shot order q.1 q.2 b = (b', Return hit) ->
  ~ refused_answer b q /\ hit = bool_decide (state_at b q = Some undamaged).
Proof.
  intros Hinv Hshot. destruct q as [c r]. cbn [fst snd] in Hshot.
  pose proof (shot_cases order b c r Hinv) as Hc. rewrite Hshot in Hc.
  unfold refused_answer.
  inversion Hc as [Hp'|st Hp' Hst' Hst''|Hp' Hst'|Hp' Hst' Hno
                  |pre i post Hp' Hst' Hsplit Hpi Hh
                  |pre i post Hp' Hst' Hsplit Hpi Hh
                  |pre i post Hp' Hst' Hsplit Hpi Hh]; subst;
    rewrite Hst'; (split; [intros [?|[?|?]]; congruence|done]).
Qed.

Lemma refused_text_run order allowed n b player text out :
  history order allowed n b ->
  exists extra,
    Player.refused player text (Player.mk b out) = (Player.mk b (out ++ extra), Return tt) /\
    (player = "user" -> extra = (text +:+ nl) :: board_text false (cell_state b)).
Proof.
  intros Hhist. unfold Player.refused. case_bool_decide.
  - eexists. split; [|done].
    rewrite bind_run. unfold Player.on_out at 1. cbn [Player.enemy_board Player.out].
    rewrite print_run. cbn [String.concat].
    rewrite (print_enemy_board_run _ _ _ _ _ _ Hhist).
    by rewrite <- app_assoc.
  - exists []. by rewrite app_nil_r.
Qed.

Lemma move_out_grows order allowed n player rest b out :
  history order allowed n b ->
  exists extra, Player.out (Player.move order player rest (Player.mk b out)).1 = out ++ extra.
Proof.
  revert b out. induction rest as [|q rest IH]; intros b out Hhist.
  - exists []. by rewrite app_nil_r.
  - destruct (Board.shot order q.1 q.2 b) as [b' [hit|e]] eqn:Hshot.
    + rewrite (move_performed _ _ _ _ _ _ _ _ _ _ Hhist Hshot).
      destruct (bool_decide (player = "user")); [|destruct (bool_decide (player = "computer"))];
        cbn [fst Player.out]; [by eexists|by eexists|].
      exists []. by rewrite app_nil_r.
    + assert (Hhist' : history order allowed n b').
      { replace b' with (Board.shot order q.1 q.2 b).1 by (by rewrite Hshot).
        by apply history_shot. }
      assert (Hother : (forall m, e <> BoardOutException m) ->
                       (forall m, e <> IncorrectParametersException m) ->
                Player.move order player (q :: rest) (Player.mk b out)
                = (Player.mk b' out, Raise e)).
      { intros H1 H2. cbn [Player.move]. unfold try_except.
        rewrite bind_run. unfold Player.on_board at 1. cbn [Player.enemy_board Player.out].
        rewrite Hshot. destruct e as [m|m|m| |]; try done;
          [by destruct (H1 m)|by destruct (H2 m)]. }
      assert (Hcaught : forall text,
                (exists m, e = BoardOutException m /\ text = BoardOutException_str m) \/
                (exists m, e = IncorrectParametersException m
                           /\ text = IncorrectParametersException_str m) ->
                exists extra,
                  Player.out (Player.move order player (q :: rest) (Player.mk b out)).1
                  = out ++ extra).
      { intros text He. rewrite (move_refused _ _ _ _ _ _ _ _ _ Hshot He).
        rewrite bind_run.
        destruct (refused_text_run _ _ _ _ player text out Hhist') as (extra & -> & _).
        destruct (IH b' (out ++ extra) Hhist') as [extra' ->].
        exists (extra ++ extra'). by rewrite app_assoc. }
      destruct e as [m|m|m| |]; try (rewrite Hother by done; exists []; by rewrite app_nil_r).
      all: eapply Hcaught; eauto.
Qed.

Lemma ship_mark_shown self p :
  in_board p = true -> state_at self p = Some undamaged ->
  "■ | " ∈ board_text false (cell_state self).
Proof.
  intros Hp Hu. apply elem_of_board_text. do 4 right. exists p. split; [done|].
  unfold cell_state. by rewrite Hu.
Qed.

(** X14. [move] asks again after every answer that [shot] refuses -- one
    outside the grid, or at a cell already shot at or marked -- whatever the
    name of the player: the enemy's board stays as it is, and only for the
    player ["user"] is anything printed.  When every answer is refused no
    shot has been made. *)
Theorem move_retries (order : set_order) (n : nat) (player : string) (b : Board.t)
    (qs rest : list (Z * Z)) (out : stdout) :
  history order any_ship n b ->
  Forall (refused_answer b) qs ->
  Player.move order player (qs ++ rest) (Player.mk b out) =
    Player.move order player rest (Player.mk b (out ++ refusals player b qs)) /\
  Player.move order player qs (Player.mk b out) =
    (Player.mk b (out ++ refusals player b qs), Return None) /\
  (player <> "user" -> refusals player b qs = []).
Proof.
  intros Hhist Hqs. split; [|split].
  - by eapply move_skips.
  - rewrite <- (app_nil_r qs) at 1. by rewrite (move_skips _ _ _ _ _ _ _ _ Hhist Hqs).
  - intros Hp. unfold refusals. by case_bool_decide.
Qed.

(** X15. [move] performs the first answer that [shot] accepts, after the
    refused ones before it: the result is whether the target was a cell of a
    ship, the board is the one the shot leaves, and the board is printed
    with the ships concealed for ["user"] and open for ["computer"].  With
    any other name the shot is made all the same, and only then is
    [GameplayException] raised. *)
Theorem move_first_accepted (order : set_order) (n : nat) (player : string) (b b' : Board.t)
    (qs : list (Z * Z)) (q : Z * Z) (rest : list (Z * Z)) (out : stdout) (hit : bool) :
  history order any_ship n b ->
  Forall (refused_answer b) qs ->
  Board.shot order q.1 q.2 b = (b', Return hit) ->
  ~ refused_answer b q /\
  hit = bool_decide (state_at b q = Some undamaged) /\
  Player.move order player (qs ++ q :: rest) (Player.mk b out) =
    if bool_decide (player = "user") then
      (Player.mk b' (out ++ refusals player b qs
                         ++ [hit_line "You" q; "Enemy's board:" +:+ nl]
                         ++ board_text true (cell_state b')),
       Return (Some hit))
    else if bool_decide (player = "computer") then
      (Player.mk b' (out ++ [hit_line "Computer" q; "Your board:" +:+ nl]
                         ++ board_text false (cell_state b')),
       Return (Some hit))
    else (Player.mk b' out, Raise (GameplayException "Player can be user or computer")).
Proof.
  intros Hhist Hqs Hshot.
  destruct (shot_returns_hit order b q b' hit (history_inv _ _ _ _ Hhist) Hshot) as [Hq Hhit].
  split; [done|]. split; [done|].
  rewrite (move_skips _ _ _ _ _ _ _ _ Hhist Hqs).
  rewrite (move_performed _ _ _ _ _ _ _ _ _ _ Hhist Hshot).
  unfold refusals. destruct (bool_decide (player = "user")).
  - by rewrite <- app_assoc.
  - by rewrite app_nil_r.
Qed.

(** X16. When an answer of the player ["user"] is refused, [move] prints
    the enemy's board with nothing concealed: if the enemy has a ship cell
    that has not been hit, its mark is on standard output when the move
    ends, whatever the answers that follow. *)
Theorem refused_shot_reveals (order : set_order) (n : nat) (b : Board.t)
    (q : Z * Z) (rest : list (Z * Z)) (out : stdout) :
  history order any_ship n b ->
  refused_answer b q ->
  (exists p, in_board p = true /\ state_at b p = Some undamaged) ->
  "■ | " ∈ Player.out (Player.move order "user" (q :: rest) (Player.mk b out)).1.
Proof.
  intros Hhist Hq (p & Hp & Hu).
  change (q :: rest) with ([q] ++ rest).
  rewrite (move_skips _ _ _ _ _ _ _ _ Hhist (Forall_cons_2 _ _ _ Hq (Forall_nil_2 _))).
  destruct (move_out_grows order any_ship n "user" rest b
              (out ++ refusals "user" b [q]) Hhist) as [extra ->].
  apply elem_of_app. left. apply elem_of_app. right.
  unfold refusals. cbn [bool_decide decide_rel mbind list_bind].
  rewrite bool_decide_eq_true_2 by done. cbn [mbind list_bind].
  rewrite app_nil_r. apply elem_of_cons. right. by eapply ship_mark_shown.
Qed.

Lemma example_refused : Forall (refused_answer example_board) [(3, 2); (7, 1)].
Proof.
  constructor; [right; left; reflexivity|].
  constructor; [left; reflexivity|constructor].
Qed.

Lemma move_retries_witness :
  Player.move sorted_order "computer" [(3, 2); (7, 1)] (Player.mk example_board []) =
  (Player.mk example_board ([] ++ refusals "computer" example_board [(3, 2); (7, 1)]),
   Return None).
Proof.
  exact (proj1 (proj2 (move_retries sorted_order 1 "computer" example_board
                         [(3, 2); (7, 1)] [] []
                         (any_default _ _ _ example_board_history) example_refused))).
Defined.

Lemma move_first_accepted_witness :
  ~ refused_answer example_board (5, 2) /\
  (Player.move sorted_order "robot" ([(3, 2); (7, 1)] ++ [(5, 2)])
     (Player.mk example_board [])).1 =
  Player.mk (Board.shot sorted_order 5 2 example_board).1 [].
Proof.
  assert (Hshot : Board.shot sorted_order (5, 2).1 (5, 2).2 example_board =
                  ((Board.shot sorted_order 5 2 example_board).1, Return true))
    by (vm_compute; reflexivity).
  destruct (move_first_accepted sorted_order 1 "robot" example_board _
              [(3, 2); (7, 1)] (5, 2) [] [] true
              (any_default _ _ _ example_board_history) example_refused Hshot)
    as (Hq & _ & Hmove).
  split; [exact Hq|]. rewrite Hmove. reflexivity.
Defined.

Lemma refused_shot_reveals_witness :
  "■ | " ∈ Player.out (Player.move sorted_order "user" [(3, 2); (1, 1)]
                         (Player.mk example_board [])).1.
Proof.
  apply (refused_shot_reveals sorted_order 1 example_board (3, 2) [(1, 1)] []
           (any_default _ _ _ example_board_history)).
  - right. left. reflexivity.
  - exists (5, 2). split; reflexivity.
Defined.

(** ** A sunk ship handed to add_ship again *)

(** X17. [add_ship] does not look at the health of the ship it is given.
    After the shot that sinks a ship of the fleet, the same Ship object --
    its health is now 0 -- can be placed again whenever its length is still
    in [ship_length_list]: [add_ship] returns, the ship is the last of the
    fleet with health 0, and its cells are ["undamaged"] again.  A shot at
    any of these cells then marks the cell ["damaged"] and raises
    GameplayException. *)
Theorem sunk_ship_placed_again (order : set_order) (n : nat) (self : Board.t)
    (column row : Z) (pre : list Ship.t) (i : Ship.t) (post : list Ship.t) :
  history order any_ship n self ->
  Board.ships_list self = pre ++ i :: post ->
  (column, row) ∈ Ship.get_dots i ->
  state_at self (column, row) = Some undamaged ->
  Ship.health i = 1 ->
  Ship.length i ∈ Board.ship_length_list self ->
  exists sunk self1 self2,
    Ship.reduce_health i = Return sunk /\
    Board.shot order column row self = (self1, Return true) /\
    Board.add_ship order sunk self1 = (self2, Return tt) /\
    Board.ships_list self2 = pre ++ post ++ [bound sunk] /\
    Ship.health (bound sunk) = 0 /\
    (forall p, p ∈ Ship.get_dots i ->
       state_at self2 p = Some undamaged /\
       Board.shot order p.1 p.2 self2 =
       (write self2 p damaged, Raise (GameplayException health_message))).
Proof.
  intros Hhist Hsplit Hpi Hst Hh Hlen.
  pose proof (history_inv _ _ _ _ Hhist) as Hinv. pose proof Hinv as (Hwf & Hsep & Hships).
  assert (Hwfi : ship_wf i) by (apply Hships; rewrite Hsplit; set_solver).
  set (sunk := Ship.with_health i 0).
  assert (Hwfs : ship_wf sunk) by exact Hwfi.
  pose proof Hwfs as (_ & _ & Hin).
  exists sunk.
  pose proof (shot_owner order self column row pre i post Hinv Hsplit Hpi Hst) as Hshot.
  assert ((0 <? Ship.health i) = true) as Hpos by lia. rewrite Hpos in Hshot.
  rewrite bool_decide_eq_true_2 in Hshot by done.
  pose proof (inv_shot order self column row Hinv) as Hinv1. rewrite Hshot in Hinv1.
  cbn [fst] in Hinv1. eexists. 
  pose proof (inv_add_ship order _ sunk Hinv1 Hwfs) as Hinv2.
  pose proof Hinv1 as (Hwf1 & _).
  pose proof (add_ship_cases order _ sunk Hwf1 Hin) as Hc.
  match type of Hc with add_ship_result _ ?b _ _ => set (self1 := b) in * end.
  assert (Hnb : ~ blocked order self1 sunk).
  { intros (p & Hp & Hex). apply elem_of_exclusion in Hex as (s & Hs & Hps).
    rewrite Hsplit in Hsep. destruct (fleet_separated_split _ _ _ _ Hsep) as (_ & Hoth & _).
    destruct (Hoth s Hs) as [Hsep1 _]. destruct (Hsep1 p Hp) as [H1 H2].
    by destruct Hps. }
  assert (Hadd : Board.add_ship order sunk self1 =
                 (Board.mk (Board.board (writes self1 (Ship.get_dots sunk) undamaged))
                           (Board.ships_list self1 ++ [bound sunk])
                           (list_remove (Ship.length sunk) (Board.ship_length_list self1)),
                  Return tt)).
  { destruct (Board.add_ship order sunk self1) as [b r].
    inversion Hc; subst; [done|done|reflexivity]. }
  rewrite Hadd in Hinv2. cbn [fst] in Hinv2.
  eexists. split; [unfold Ship.reduce_health; by rewrite Hpos, Hh|].
  split; [exact Hshot|]. split; [exact Hadd|].
  split; [cbn [Board.ships_list self1]; by rewrite <- app_assoc|].
  split; [reflexivity|].
  intros p Hp.
  assert (Hpb : in_board p = true) by (by apply Hin).
  assert (Hstp : state_at (Board.mk (Board.board (writes self1 (Ship.get_dots sunk) undamaged))
                             (Board.ships_list self1 ++ [bound sunk])
                             (list_remove (Ship.length sunk) (Board.ship_length_list self1))) p
                 = Some undamaged).
  { rewrite state_at_indep, state_at_writes by done. by rewrite decide_True. }
  split; [exact Hstp|].
  destruct p as [c r].
  rewrite (shot_owner order _ c r (Board.ships_list self1) (bound sunk) []);
    [reflexivity|exact Hinv2|reflexivity|exact Hp|exact Hstp].
Qed.

Lemma sunk_ship_placed_again_witness :
  exists sunk self1 self2,
    Board.shot sorted_order 5 1 (fleet_board 4) = (self1, Return true) /\
    Board.add_ship sorted_order sunk self1 = (self2, Return tt) /\
    Ship.health (bound sunk) = 0 /\
    Board.shot sorted_order 5 1 self2 =
    (write self2 (5, 1) damaged, Raise (GameplayException health_message)).
Proof.
  assert (Hhist : history sorted_order any_ship 4 (fleet_board 4)).
  { destruct (run_history sorted_order any_ship (take 4 fleet_calls) new_board)
      as [k Hk]; [done|reflexivity|].
    pose proof (history_ship_length_list _ _ _ _ Hk) as Hlen.
    assert (Hk4 : k = 4%nat) by (vm_compute in Hlen; lia).
    rewrite Hk4 in Hk. exact Hk. }
  destruct (sunk_ship_placed_again sorted_order 4 (fleet_board 4) 5 1
              [Ship.mk 3 "horizontal" (Dot.mk 1 1 hidden) 3 [(1, 1); (2, 1); (3, 1)];
               Ship.mk 2 "horizontal" (Dot.mk 1 3 hidden) 2 [(1, 3); (2, 3)];
               Ship.mk 2 "horizontal" (Dot.mk 4 3 hidden) 2 [(4, 3); (5, 3)]]
              (Ship.mk 1 "horizontal" (Dot.mk 5 1 hidden) 1 [(5, 1)]) [] Hhist)
    as (sunk & self1 & self2 & _ & H2 & H3 & _ & H4 & H5).
  - vm_compute. reflexivity.
  - by_compute.
  - vm_compute. reflexivity.
  - reflexivity.
  - by_compute.
  - exists sunk, self1, self2. split; [exact H2|split; [exact H3|split; [exact H4|]]].
    apply (H5 (5, 1)). by_compute.
Defined.
